(** * Lunarian ad-layout engine: a shallow embedding of [backend/main.py]

    The development follows the Python source function by function:

    - Python numbers: [int] is [Z]; [float] is IEEE-754 binary64, taken from
      the Standard Library's executable specification [SpecFloat] (53-bit
      mantissa, round to nearest even).  Mixed int/float arithmetic and the
      builtins [min], [max], [int] are written out as Python evaluates them.
    - PIL images: a width, a height and a pixel function; [Image.new],
      [resize], [crop] and [paste] act on those, [Image.new] and [resize]
      with the ValueError they raise on a size they do not accept.  The
      resampling filter is a parameter (its arithmetic lives in the imaging
      library, not in the repository).
    - [create_base_canvas_with_hero], [find_font_size_for_height], the greedy
      word wrap and the per-format layout prelude of [generate_ads] (safe
      area, position keys, grouping, stacking order).

    Part I holds the definitions, Part II the properties. *)

From Stdlib Require Import ZArith Lia Bool List String Ascii.
From Stdlib Require Import Floats.SpecFloat.
From stdpp Require Import base option list strings gmap.
From Equations Require Import Equations.

Local Open Scope Z_scope.

(* ===================================================================== *)
(** * Part I. Definitions                                                 *)
(* ===================================================================== *)

(** ** Python numbers *)

(** binary64: [prec] mantissa bits, infinities at exponent [emax]. *)
Definition prec : Z := 53.
Definition emax : Z := 1024.

Definition float : Type := spec_float.

Definition fmul : float -> float -> float := SFmul prec emax.
Definition fdiv : float -> float -> float := SFdiv prec emax.
Definition fadd : float -> float -> float := SFadd prec emax.
Definition fsub : float -> float -> float := SFsub prec emax.

(** [float(n)] for an int [n]: the nearest double, ties to even.  Python
    raises OverflowError beyond the double range; here the conversion
    saturates to an infinity, which no image dimension comes near. *)
Definition of_int (z : Z) : float := binary_normalize prec emax z 0 false.

(** [a / b] on two ints is Python's true division: the correctly rounded
    quotient of the exact integers (no intermediate conversion).  Every
    division in the source is guarded by [b > 0] or divides by a literal. *)
Definition int_truediv (a b : Z) : float :=
  match a, b with
  | _, 0 => S754_nan
  | 0, _ => S754_zero (b <? 0)
  | _, _ =>
      let '(mz, ez, lz) := SFdiv_core_binary prec emax (Z.abs a) 0 (Z.abs b) 0 in
      binary_round_aux prec emax (xorb (a <? 0) (b <? 0)) mz ez lz
  end.

(** A Python number as the source handles it: an int or a float. *)
Inductive num : Type :=
| Int (z : Z)
| Flt (x : float).

Definition to_float (a : num) : float :=
  match a with
  | Int z => of_int z
  | Flt x => x
  end.

Definition py_mul (a b : num) : num :=
  match a, b with
  | Int x, Int y => Int (x * y)
  | _, _ => Flt (fmul (to_float a) (to_float b))
  end.

Definition py_add (a b : num) : num :=
  match a, b with
  | Int x, Int y => Int (x + y)
  | _, _ => Flt (fadd (to_float a) (to_float b))
  end.

Definition py_sub (a b : num) : num :=
  match a, b with
  | Int x, Int y => Int (x - y)
  | _, _ => Flt (fsub (to_float a) (to_float b))
  end.

Definition py_truediv (a b : num) : num :=
  match a, b with
  | Int x, Int y => Flt (int_truediv x y)
  | _, _ => Flt (fdiv (to_float a) (to_float b))
  end.

(** The signed integer mantissa of a finite double. *)
Definition signed (s : bool) (m : positive) : Z :=
  if s then Z.neg m else Z.pos m.

(** Python compares an int with a float exactly (no rounding of the int):
    [z] against [signed s m * 2^e]. *)
Definition cmp_int_flt (z : Z) (x : float) : option comparison :=
  match x with
  | S754_nan => None
  | S754_infinity s => Some (if s then Gt else Lt)
  | S754_zero _ => Some (z ?= 0)
  | S754_finite s m e =>
      Some (match e with
            | Zneg p => z * 2 ^ Z.pos p ?= signed s m
            | _ => z ?= signed s m * 2 ^ e
            end)
  end.

Definition py_compare (a b : num) : option comparison :=
  match a, b with
  | Int x, Int y => Some (x ?= y)
  | Flt x, Flt y => SFcompare x y
  | Int x, Flt y => cmp_int_flt x y
  | Flt x, Int y => CompOpp <$> cmp_int_flt y x
  end.

(** [a < b] and [a <= b]; both are False when a NaN is involved. *)
Definition py_lt (a b : num) : bool :=
  match py_compare a b with
  | Some Lt => true
  | _ => false
  end.

Definition py_le (a b : num) : bool :=
  match py_compare a b with
  | Some Lt | Some Eq => true
  | _ => false
  end.

(** The builtins on two arguments: [max] keeps the first unless the second
    is greater, [min] keeps the first unless the second is smaller. *)
Definition py_max (a b : num) : num := if py_lt a b then b else a.
Definition py_min (a b : num) : num := if py_lt b a then b else a.

(** [int(x)] truncates toward zero; it raises on NaN and the infinities,
    which is [None] here. *)
Definition trunc (x : float) : option Z :=
  match x with
  | S754_zero _ => Some 0
  | S754_finite s m e =>
      let v := match e with
               | Zneg p => Z.pos m / 2 ^ Z.pos p
               | _ => Z.pos m * 2 ^ e
               end in
      Some (if s then - v else v)
  | _ => None
  end.

Definition py_int (a : num) : option Z :=
  match a with
  | Int z => Some z
  | Flt x => trunc x
  end.

Definition is_nan (a : num) : bool :=
  match a with
  | Flt S754_nan => true
  | _ => false
  end.

(** Zero, or finite with a mantissa below [2^prec] and an exponent at most
    [k]: a double of magnitude below [2^(k + prec)]. *)
Definition finite_le (k : Z) (x : float) : Prop :=
  match x with
  | S754_zero _ => True
  | S754_finite _ m e => Z.pos m < 2 ^ prec /\ e <= k
  | _ => False
  end.

(** A number [int()] accepts: an int, or a finite double of exponent at
    most [k]. *)
Definition num_finite (k : Z) (a : num) : Prop :=
  match a with
  | Int _ => True
  | Flt x => finite_le k x
  end.

(** What [n] right shifts keep of a mantissa [m0]: the quotient, and
    round and sticky bits that are both clear only if nothing was lost. *)
Definition shr_inv (m0 n : Z) (mrs : shr_record) : Prop :=
  0 <= shr_m mrs
  /\ exists rem, m0 = shr_m mrs * 2 ^ n + rem /\ 0 <= rem < 2 ^ n
                 /\ (rem = 0 -> shr_r mrs = false /\ shr_s mrs = false).

(** The sizes and coordinates the totality results cover: ints of
    magnitude below [2^31]. *)
Definition small (z : Z) : Prop := Z.abs z < 2 ^ 31.

(** Float literals of the source, as the doubles Python parses them to. *)
Definition lit_0_7 : float := S754_finite false 6305039478318694 (-53).
Definition lit_0_07 : float := S754_finite false 5044031582654956 (-56).
Definition lit_127_34 : float := S754_finite false 8960755883583734 (-46).

(** ** PIL images *)

(** An RGBA pixel. *)
Definition color : Type := Z * Z * Z * Z.

(** What the compositor touches of a PIL image: its size and its pixels
    (the pixel function is meaningful inside [0,w) x [0,h)). *)
Record image : Type := mk_image {
  im_w : Z;
  im_h : Z;
  im_px : Z -> Z -> color
}.

(** A resampling filter: the pixel at (x, y) of the image resized to
    (w, h).  [Image.LANCZOS] is one; its arithmetic is the library's. *)
Definition resampler : Type := image -> Z -> Z -> Z -> Z -> color.

(** [Image.new("RGBA", (w, h), c)]: a ValueError ([None]) for a negative
    width or height; a side of 0 is accepted. *)
Definition Image_new (w h : Z) (c : color) : option image :=
  if (w <? 0) || (h <? 0) then None
  else Some {| im_w := w; im_h := h; im_px := fun _ _ => c |}.

(** [im.resize((w, h), filt)]: a ValueError ([None]) for a width or a
    height below 1, unless the image has that very size already (it is then
    handed back as a copy, without a look at the size). *)
Definition resize (filt : resampler) (im : image) (w h : Z) : option image :=
  if ((w <? 1) || (h <? 1)) && negb ((im_w im =? w) && (im_h im =? h)) then None
  else Some {| im_w := w; im_h := h; im_px := filt im w h |}.

(** [im.crop((l, t, r, b))]: a new image of size (r-l, b-t); what lies
    outside [im] is transparent black. *)
Definition crop (im : image) (box : Z * Z * Z * Z) : image :=
  let '(l, t, r, b) := box in
  {| im_w := r - l;
     im_h := b - t;
     im_px := fun x y =>
       if (0 <=? x + l) && (x + l <? im_w im) && (0 <=? y + t) && (y + t <? im_h im)
       then im_px im (x + l) (y + t)
       else (0, 0, 0, 0) |}.

(** [canvas.paste(im, (ox, oy))] without a mask: the pixels of [im]
    replace those of [canvas] where [im] lies; the canvas keeps its size. *)
Definition paste (canvas im : image) (ox oy : Z) : image :=
  {| im_w := im_w canvas;
     im_h := im_h canvas;
     im_px := fun x y =>
       if (ox <=? x) && (x <? ox + im_w im) && (oy <=? y) && (y <? oy + im_h im)
       then im_px im (x - ox) (y - oy)
       else im_px canvas x y |}.

(** ** Hero Canvas Compositor: [create_base_canvas_with_hero] *)

Definition bbox : Type := Z * Z * Z * Z.

(** [max(tw / iw if iw > 0 else 1, th / ih if ih > 0 else 1)] *)
Definition cover_scale (tw th iw ih : Z) : num :=
  py_max (if 0 <? iw then py_truediv (Int tw) (Int iw) else Int 1)
         (if 0 <? ih then py_truediv (Int th) (Int ih) else Int 1).

(** The numbers of the no-hero branch (source lines 175-179). *)
Record cover_plan : Type := mk_cover_plan {
  cp_scale : num;
  cp_rw : Z;
  cp_rh : Z;
  cp_box : Z * Z * Z * Z
}.

Definition plan_cover (tw th iw ih : Z) : option cover_plan :=
  let scale := cover_scale tw th iw ih in
  rw ← py_int (py_mul (Int iw) scale);
  rh ← py_int (py_mul (Int ih) scale);
  let cx := (rw - tw) `div` 2 in
  let cy := (rh - th) `div` 2 in
  Some {| cp_scale := scale; cp_rw := rw; cp_rh := rh;
          cp_box := (Z.max 0 cx, Z.max 0 cy, Z.min rw (cx + tw), Z.min rh (cy + th)) |}.

(** The numbers of the usable-hero branch (source lines 189-212). *)
Record hero_plan : Type := mk_hero_plan {
  hp_scale_for_hero : num;
  hp_scale_to_cover_canvas : num;
  hp_final_scale : num;
  hp_scaled_iw : Z;
  hp_scaled_ih : Z;
  hp_crop_x : num;
  hp_crop_y : num;
  hp_box : Z * Z * Z * Z
}.

Definition plan_hero (tw th iw ih : Z) (hero : bbox)
    (hero_area_x hero_area_y hero_area_w hero_area_h : Z)
    (hero_prominence : float) : option hero_plan :=
  let '(x1, y1, x2, y2) := hero in
  let h_w := x2 - x1 in
  let h_h := y2 - y1 in
  let hcx := py_add (Int x1) (py_truediv (Int h_w) (Int 2)) in
  let hcy := py_add (Int y1) (py_truediv (Int h_h) (Int 2)) in
  let scale_needed_for_hero_w :=
    if 0 <? h_w
    then py_truediv (py_mul (Int hero_area_w) (Flt hero_prominence)) (Int h_w)
    else Flt (S754_infinity false) in
  let scale_needed_for_hero_h :=
    if 0 <? h_h
    then py_truediv (py_mul (Int hero_area_h) (Flt hero_prominence)) (Int h_h)
    else Flt (S754_infinity false) in
  let scale_for_hero := py_min scale_needed_for_hero_w scale_needed_for_hero_h in
  let scale_to_cover_canvas := cover_scale tw th iw ih in
  let final_scale := py_max scale_for_hero scale_to_cover_canvas in
  scaled_iw0 ← py_int (py_mul (Int iw) final_scale);
  scaled_ih0 ← py_int (py_mul (Int ih) final_scale);
  let scaled_iw := Z.max tw scaled_iw0 in
  let scaled_ih := Z.max th scaled_ih0 in
  let scaled_hero_cx := py_mul hcx final_scale in
  let scaled_hero_cy := py_mul hcy final_scale in
  let target_hero_center_x_in_canvas :=
    py_add (Int hero_area_x) (py_truediv (Int hero_area_w) (Int 2)) in
  let target_hero_center_y_in_canvas :=
    py_add (Int hero_area_y) (py_truediv (Int hero_area_h) (Int 2)) in
  let crop_x0 := py_sub scaled_hero_cx target_hero_center_x_in_canvas in
  let crop_y0 := py_sub scaled_hero_cy target_hero_center_y_in_canvas in
  let crop_x := py_max (Int 0) (py_min crop_x0 (Int (scaled_iw - tw))) in
  let crop_y := py_max (Int 0) (py_min crop_y0 (Int (scaled_ih - th))) in
  l ← py_int crop_x;
  t ← py_int crop_y;
  r ← py_int (py_add crop_x (Int tw));
  b ← py_int (py_add crop_y (Int th));
  Some {| hp_scale_for_hero := scale_for_hero;
          hp_scale_to_cover_canvas := scale_to_cover_canvas;
          hp_final_scale := final_scale;
          hp_scaled_iw := scaled_iw;
          hp_scaled_ih := scaled_ih;
          hp_crop_x := crop_x;
          hp_crop_y := crop_y;
          hp_box := (l, t, r, b) |}.

Section Compositor.

(** [Image.LANCZOS] *)
Variable LANCZOS : resampler.

(** Lines 175-180: resize by the cover scale, crop around the centre,
    paste at the canvas origin. *)
Definition cover_crop (src canvas : image) (tw th : Z) : option image :=
  p ← plan_cover tw th (im_w src) (im_h src);
  img2 ← resize LANCZOS src (cp_rw p) (cp_rh p);
  Some (paste canvas (crop img2 (cp_box p)) 0 0).

(** Lines 189-214: resize by the final scale, crop around the hero.  (The
    source resizes at line 199, before it computes the crop box; an
    exception of either step ends the call.) *)
Definition hero_crop (src canvas : image) (tw th : Z) (hero : bbox)
    (hero_area_x hero_area_y hero_area_w hero_area_h : Z)
    (hero_prominence : float) : option image :=
  p ← plan_hero tw th (im_w src) (im_h src) hero
        hero_area_x hero_area_y hero_area_w hero_area_h hero_prominence;
  img_resized ← resize LANCZOS src (hp_scaled_iw p) (hp_scaled_ih p);
  let final_img_to_paste := crop img_resized (hp_box p) in
  Some (paste canvas final_img_to_paste 0 0).

(** The body of the function, with its one recursive call (line 187, made
    with [hero_bbox = None] and the default prominence) left open as
    [self].  The source computes the hero centre (line 184) before it tests
    for a degenerate bbox; the value is not used on that path, so it is
    computed in [plan_hero] only.  (Python's [h_w / 2] raises OverflowError
    for an int beyond the double range, about [2^1024]; the model's
    division saturates instead, as [of_int] does.) *)
Definition create_base_canvas_body
    (self : image -> Z -> Z -> option bbox -> Z -> Z -> Z -> Z -> color -> option image)
    (src : image) (tw th : Z) (hero_bbox : option bbox)
    (hero_area_x hero_area_y hero_area_w hero_area_h : Z)
    (hero_prominence : float) (bg_color : color) : option image :=
  let iw := im_w src in
  let ih := im_h src in
  canvas ← Image_new tw th bg_color;
  if (iw =? 0) || (ih =? 0) then Some canvas
  else
    match hero_bbox with
    | None => cover_crop src canvas tw th
    | Some (x1, y1, x2, y2) =>
        if (hero_area_w <=? 0) || (hero_area_h <=? 0)
        then cover_crop src canvas tw th
        else
          let h_w := x2 - x1 in
          let h_h := y2 - y1 in
          if (h_w <=? 0) || (h_h <=? 0)
          then self src tw th None
                 hero_area_x hero_area_y hero_area_w hero_area_h bg_color
          else hero_crop src canvas tw th (x1, y1, x2, y2)
                 hero_area_x hero_area_y hero_area_w hero_area_h hero_prominence
    end.

(** Line 187 calls the function itself with [hero_bbox = None] and the
    default prominence, and a call without a bbox never reaches line 187
    again.  So the callee is the body with its own recursive call cut off,
    and one unfolding ties the knot (the fixpoint equation is
    [create_base_canvas_unfold] in Part II). *)
Definition create_base_canvas_callee
    (src : image) (tw th : Z) (hero_bbox : option bbox)
    (hero_area_x hero_area_y hero_area_w hero_area_h : Z)
    (bg_color : color) : option image :=
  create_base_canvas_body (fun _ _ _ _ _ _ _ _ _ => None)
    src tw th hero_bbox hero_area_x hero_area_y hero_area_w hero_area_h
    lit_0_7 bg_color.

Definition create_base_canvas_with_hero
    (src : image) (tw th : Z) (hero_bbox : option bbox)
    (hero_area_x hero_area_y hero_area_w hero_area_h : Z)
    (hero_prominence : float) (bg_color : color) : option image :=
  create_base_canvas_body create_base_canvas_callee
    src tw th hero_bbox hero_area_x hero_area_y hero_area_w hero_area_h
    hero_prominence bg_color.

End Compositor.

(** The default fill, [(255, 255, 255, 0)]: transparent white. *)
Definition default_bg : color := (255, 255, 255, 0).

(** ** Font Metrics Probe: [find_font_size_for_height] *)

(** [diff < best_diff], where [best_diff] starts as [float('inf')]
    ([None]) and is an int afterwards. *)
Definition improves (diff : Z) (best_diff : option Z) : bool :=
  match best_diff with
  | None => true
  | Some d => diff <? d
  end.

(** The [while low <= high] loop.  [measure mid] is the height [h] the
    loop body obtains for the candidate [mid]: the ink height of the sample
    text in the font loaded at that size, or [mid] itself when measuring
    fails.  The last component records the candidates probed so far, in
    order; it is a ghost of the embedding and steers nothing. *)
Equations? font_search (measure : Z -> Z) (target_height low high best_size : Z)
    (best_diff : option Z) (probed : list Z) : Z * list Z
    by wf (Z.to_nat (high - low + 1)) lt :=
font_search measure target_height low high best_size best_diff probed
    with Z_le_gt_dec low high := {
  | right _ => (best_size, probed)
  | left _ with Z_le_gt_dec ((low + high) `div` 2) 0 := {
    | left _ =>
        font_search measure target_height 1 high best_size best_diff probed
    | right _ with (measure ((low + high) `div` 2) ?= target_height) := {
      | Lt =>
          let mid := (low + high) `div` 2 in
          let diff := Z.abs (measure mid - target_height) in
          if improves diff best_diff
          then font_search measure target_height (mid + 1) high mid (Some diff)
                 (probed ++ [mid])
          else font_search measure target_height (mid + 1) high best_size best_diff
                 (probed ++ [mid])
      | Gt =>
          let mid := (low + high) `div` 2 in
          let diff := Z.abs (measure mid - target_height) in
          if improves diff best_diff
          then font_search measure target_height low (mid - 1) mid (Some diff)
                 (probed ++ [mid])
          else font_search measure target_height low (mid - 1) best_size best_diff
                 (probed ++ [mid])
      | Eq => ((low + high) `div` 2, probed ++ [(low + high) `div` 2])
      }
    }
  }.
Proof.
  all: try (assert (low <= (low + high) `div` 2 <= high)
              by (split; [apply Z.div_le_lower_bound | apply Z.div_le_upper_bound]; lia));
    lia.
Qed.

(** Lines 229-266.  [target_height = max(1, target_height)], then the loop
    from [low, high = min_size, max_size] with [best_size = min_size]. *)
Definition find_font_size_for_height (measure : Z -> Z)
    (target_height min_size max_size : Z) : Z :=
  fst (font_search measure (Z.max 1 target_height) min_size max_size min_size None []).

(** The candidate sizes the search probes, in order. *)
Definition probed_sizes (measure : Z -> Z) (target_height min_size max_size : Z) : list Z :=
  snd (font_search measure (Z.max 1 target_height) min_size max_size min_size None []).

(** The vocabulary of the search's correctness statement. *)

(** How far the height measured at size [c] is from the target. *)
Definition miss (measure : Z -> Z) (T : Z) (c : Z) : Z := Z.abs (measure c - T).

(** What the loop maintains: no candidate probed so far hit the target,
    and [best_size] is a probed candidate of least miss (or nothing was
    probed and [best_diff] is still infinite). *)
Definition best_inv (measure : Z -> Z) (T : Z) (best_size : Z) (best_diff : option Z) (probed : list Z) : Prop :=
  (forall c, c ∈ probed -> measure c <> T)
  /\ match best_diff with
     | None => probed = []
     | Some d => d = miss measure T best_size /\ best_size ∈ probed
                 /\ forall c, c ∈ probed -> d <= miss measure T c
     end.

(** What the loop delivers from a state: the result [res.1] and the full
    list of probed candidates [res.2]. *)
Definition search_post (measure : Z -> Z) (T : Z) (low high best_size : Z) (probed : list Z)
    (res : Z * list Z) : Prop :=
  exists new,
    res.2 = probed ++ new
    /\ (forall c, c ∈ new -> Z.max low 1 <= c <= high)
    /\ (Z.max low 1 <= high -> new <> [])
    /\ (res.2 = [] -> res.1 = best_size)
    /\ (res.2 <> [] -> res.1 ∈ res.2 /\ forall c, c ∈ res.2 -> miss measure T res.1 <= miss measure T c)
    /\ (forall c, c ∈ res.2 -> measure c = T ->
          res.1 = c
          /\ exists pre, res.2 = pre ++ [c] /\ forall c', c' ∈ pre -> measure c' <> T).

(** ** Text Flow Engine: the greedy word wrap *)

(** A Python [str] as its sequence of code points. *)
Definition str : Type := list Z.

(** The code points of an ASCII literal. *)
Definition of_string (s : string) : str :=
  (fun a => Z.of_N (N_of_ascii a)) <$> list_ascii_of_string s.

Definition space : Z := 32.

(** [str.isspace] on one code point: the characters [str.split()] splits
    on. *)
Definition is_whitespace (c : Z) : bool :=
  ((9 <=? c) && (c <=? 13)) || ((28 <=? c) && (c <=? 32))
  || (c =? 133) || (c =? 160) || (c =? 5760)
  || ((8192 <=? c) && (c <=? 8202))
  || (c =? 8232) || (c =? 8233) || (c =? 8239) || (c =? 8287) || (c =? 12288).

(** [s.split()]: the maximal runs of non-whitespace, in order.  [word] is
    the run being read, reversed. *)
Fixpoint split_ws_from (word : str) (s : str) : list str :=
  match s with
  | [] => if word is [] then [] else [rev word]
  | c :: s' =>
      if is_whitespace c
      then (if word is [] then split_ws_from [] s'
            else rev word :: split_ws_from [] s')
      else split_ws_from (c :: word) s'
  end.

Definition split_ws (s : str) : list str := split_ws_from [] s.

(** [s.split(sep)] for a one-character separator: cut at every [sep]. *)
Fixpoint split_on (sep : Z) (s : str) : list str :=
  match s with
  | [] => [[]]
  | c :: s' =>
      if c =? sep then [] :: split_on sep s'
      else match split_on sep s' with
           | w :: ws => (c :: w) :: ws
           | [] => [[c]]
           end
  end.

(** [s[:k]] *)
Definition slice_to (s : str) (k : Z) : str :=
  if 0 <=? k then take (Z.to_nat k) s
  else take (Z.to_nat (Z.of_nat (length s) + k)) s.

Definition lit_0_6 : float := S754_finite false 5404319552844595 (-53).

Section Wrap.

(** [lw] for a candidate line in the font at hand: the ink width, or
    [len(line) * size * 0.6] when the font gives no box. *)
Variable line_width : str -> num.
(** [max_ac_w_final] *)
Variable max_w : Z.

(** One round of [for word in words] (lines 645-650) on the state
    [(ad_copy_lines, curr_l)]. *)
Definition wrap_step (st : list str * str) (word : str) : list str * str :=
  let '(lines, curr_l) := st in
  let test_l := curr_l ++ (if curr_l is [] then [] else [space]) ++ word in
  if py_le (line_width test_l) (Int max_w) then (lines, test_l)
  else ((if curr_l is [] then lines else lines ++ [curr_l]), word).

(** Lines 642-651: the loop, then the flush of the last line. *)
Definition greedy_wrap (words : list str) : list str :=
  let '(lines, curr_l) := foldl wrap_step ([], []) words in
  if curr_l is [] then lines else lines ++ [curr_l].

(** Line 652: with no line and a non-empty text, one line cut to
    [int(max_w / (size * 0.6))] characters. *)
Definition fallback_fires (content_item : str) : bool :=
  bool_decide (greedy_wrap (split_ws content_item) = [])
  && negb (bool_decide (content_item = [])).

Definition wrap_text (font_sz : Z) (content_item : str) : option (list str) :=
  let lines := greedy_wrap (split_ws content_item) in
  if fallback_fires content_item
  then k ← py_int (py_truediv (Int max_w) (py_mul (Int font_sz) (Flt lit_0_6)));
       Some (lines ++ [slice_to content_item k])
  else Some lines.

End Wrap.

(** What the round trip reads back: every line split on single spaces, the
    pieces concatenated in line order. *)
Definition words_of_lines (lines : list str) : list str :=
  concat (split_on space <$> lines).

(** A word as [str.split()] yields them: not empty, no whitespace inside. *)
Definition is_word (w : str) : Prop :=
  w <> [] /\ Forall (fun c => is_whitespace c = false) w.

(** The lines a loop state stands for: those emitted plus the pending
    one. *)
Definition flushed (st : list str * str) : list str :=
  st.1 ++ (if st.2 is [] then [] else [st.2]).

(** ** Layout Planner: the per-format prelude of [generate_ads] *)

Local Open Scope string_scope.
Local Open Scope list_scope.

(** [needle in hay] on strings. *)
Fixpoint str_in (needle hay : string) : bool :=
  String.prefix needle hay
  || match hay with
     | EmptyString => false
     | String _ rest => str_in needle rest
     end.

Record FormatItem : Type := mk_FormatItem {
  id : string;
  width : Z;
  height : Z
}.

(** The fields of [GenerateRequest] the layout reads.  [brandLogo] is the
    decoded logo when the request carries one; [adCopy] and [ctaText] are
    the optional texts. *)
Record GenerateRequest : Type := mk_GenerateRequest {
  brandLogo : option image;
  includeLogo : bool;
  logoAppliesToAll : bool;
  logoSelectedFormats : list string;
  logoPositionByOrientation : gmap string string;
  includeCopy : bool;
  adCopy : option str;
  copyAppliesToAll : bool;
  copySelectedFormats : list string;
  copyPositionByOrientation : gmap string string;
  includeCta : bool;
  ctaText : option str;
  ctaAppliesToAll : bool;
  ctaSelectedFormats : list string;
  ctaPositionByOrientation : gmap string string
}.

(** Lines 352-354. *)
Definition orientation (tw th : Z) : string :=
  if (tw =? th)%Z then "square"
  else if (tw <? th)%Z then "portrait"
  else "landscape".

Definition lit_254_56 : float := S754_finite false 8956533758933074 (-45).
Definition lit_1182_1 : float := S754_finite false 5198930780776038 (-42).
Definition lit_2072_43 : float := S754_finite false 4557321765503631 (-41).

(** Lines 356-363: the safe rectangle [(sx, sy, sw, sh)]. *)
Definition safe_area (tw th : Z) : option (Z * Z * Z * Z) :=
  if ((tw =? 1440) && (th =? 2560))%Z
  then
    sx ← py_int (Flt lit_127_34);
    sy ← py_int (Flt lit_254_56);
    sw ← py_int (Flt lit_1182_1);
    sh ← py_int (Flt lit_2072_43);
    Some (sx, sy, sw, sh)
  else
    let margin_pct := Flt lit_0_07 in
    margin_x ← py_int (py_mul (Int tw) margin_pct);
    margin_y ← py_int (py_mul (Int th) margin_pct);
    Some (margin_x, margin_y, (tw - 2 * margin_x)%Z, (th - 2 * margin_y)%Z).

(** A non-empty optional text is truthy. *)
Definition truthy_text (t : option str) : bool :=
  match t with
  | Some (_ :: _) => true
  | _ => false
  end.

(** Line 338: the logo image is decoded only when a logo is sent and
    [includeLogo] is set. *)
Definition logo_pil_img (req : GenerateRequest) : option image :=
  if includeLogo req then brandLogo req else None.

(** Lines 366-368. *)
Definition show_logo_for_format (req : GenerateRequest) (fid : string) : bool :=
  includeLogo req && bool_decide (is_Some (logo_pil_img req))
  && (logoAppliesToAll req || bool_decide (fid ∈ logoSelectedFormats req)).

Definition show_copy_for_format (req : GenerateRequest) (fid : string) : bool :=
  includeCopy req && truthy_text (adCopy req)
  && (copyAppliesToAll req || bool_decide (fid ∈ copySelectedFormats req)).

Definition show_cta_for_format (req : GenerateRequest) (fid : string) : bool :=
  includeCta req && truthy_text (ctaText req)
  && (ctaAppliesToAll req || bool_decide (fid ∈ ctaSelectedFormats req)).

(** Lines 370-374: the position key of each element for an orientation.
    [selected_*] is what [dict.get] returns, [*_pos_key] what the rest of
    the function uses. *)
Definition selected_logo_key (req : GenerateRequest) (o : string) : string :=
  default "top_center" (logoPositionByOrientation req !! o).

Definition selected_copy_key (req : GenerateRequest) (o : string) : string :=
  default "bottom_center" (copyPositionByOrientation req !! o).

Definition selected_cta_key (req : GenerateRequest) (o : string) : string :=
  default "bottom_center" (ctaPositionByOrientation req !! o).

Definition logo_pos_key (req : GenerateRequest) (o : string) : string :=
  selected_logo_key req o.

Definition copy_pos_key (req : GenerateRequest) (o : string) : string :=
  let k := selected_copy_key req o in
  if bool_decide (k = "let_ai_choose") then "bottom_center" else k.

Definition cta_pos_key (req : GenerateRequest) (o : string) : string :=
  let k := selected_cta_key req o in
  if bool_decide (k = "let_ai_choose") then "bottom_center" else k.

(** The element names ["logo"], ["copy"], ["cta"]. *)
Inductive element : Type := logo | copy | cta.

#[global] Instance element_eq_dec : EqDecision element.
Proof. solve_decision. Defined.

(** Lines 398-401 and 557-560: the elements shown for a format, each with
    its position key (the content travels along in the source). *)
Definition elements_for (req : GenerateRequest) (fmt : FormatItem)
    : list (element * string) :=
  let o := orientation (width fmt) (height fmt) in
  (if show_logo_for_format req (id fmt) then [(logo, logo_pos_key req o)] else [])
  ++ (if show_copy_for_format req (id fmt) then [(copy, copy_pos_key req o)] else [])
  ++ (if show_cta_for_format req (id fmt) then [(cta, cta_pos_key req o)] else []).

(** [groups[key].append(name)] on a [defaultdict(list)]: a dict keeps its
    keys in insertion order. *)
Fixpoint group_append (groups : list (string * list element))
    (key : string) (name : element) : list (string * list element) :=
  match groups with
  | [] => [(key, [name])]
  | (k, g) :: rest =>
      if bool_decide (k = key) then (k, g ++ [name]) :: rest
      else (k, g) :: group_append rest key name
  end.

(** Lines 403-405 and 562-564. *)
Definition pos_groups (els : list (element * string)) : list (string * list element) :=
  foldl (fun groups '(name, pos_key_item) => group_append groups pos_key_item name) [] els.

(** Lines 268-276. *)
Definition get_edges_for_pos_key (pos_key : string) : gset string :=
  (if str_in "top" pos_key then {["top"]} else ∅)
  ∪ (if str_in "bottom" pos_key then {["bottom"]} else ∅)
  ∪ (if str_in "left" pos_key then {["left"]} else ∅)
  ∪ (if str_in "right" pos_key then {["right"]} else ∅)
  ∪ (if bool_decide (pos_key = "top_center") || bool_decide (pos_key = "bottom_center")
     then {[ if str_in "top" pos_key then "top" else "bottom" ]} else ∅)
  ∪ (if bool_decide (pos_key = "left_middle") || bool_decide (pos_key = "right_middle")
     then {[ if str_in "left" pos_key then "left" else "right" ]} else ∅).

(** Lines 216-227. *)
Definition get_element_position (pos_key : string)
    (el_w el_h zone_x zone_y zone_w zone_h : Z) : Z * Z :=
  let px :=
    if str_in "left" pos_key then zone_x
    else if str_in "right" pos_key then (zone_x + zone_w - el_w)%Z
    else if str_in "center" pos_key then (zone_x + (zone_w - el_w) `div` 2)%Z
    else zone_x in
  let py :=
    if str_in "top" pos_key then zone_y
    else if str_in "bottom" pos_key then (zone_y + zone_h - el_h)%Z
    else if str_in "middle" pos_key then (zone_y + (zone_h - el_h) `div` 2)%Z
    else zone_y in
  (px, py).

(** Lines 567-587: the stacking order of one group. *)
Definition stacking_order (pos_key_item : string) (group_content : list element)
    : list element :=
  let has name := bool_decide (name ∈ group_content) in
  if bool_decide (pos_key_item = "bottom_center")
     && bool_decide (length group_content = 2%nat)
  then
    if has copy
    then copy :: (if has cta then [cta] else if has logo then [logo] else [])
    else if has cta
    then cta :: (if has logo then [logo] else [])
    else if has logo then [logo]
    else []
  else
    (if has logo then [logo] else [])
    ++ (if has copy then [copy] else [])
    ++ (if has cta then [cta] else []).

(** Lines 604-732, names only: the logo detail is appended first (first
    loop, which stops at the first logo), then copy and cta as they come
    (second loop, which skips the logo). *)
Definition el_render_details (group_content : list element) : list element :=
  (if bool_decide (logo ∈ group_content) then [logo] else [])
  ++ filter (fun name => name ≠ logo) group_content.

(** [l.index(name)], [None] when [name] is not in [l]. *)
Fixpoint index_of (name : element) (l : list element) : option Z :=
  match l with
  | [] => None
  | n :: rest =>
      if bool_decide (n = name) then Some 0%Z
      else Z.succ <$> index_of name rest
  end.

(** [stacking_order.index(name) if name in stacking_order else 99] *)
Definition stack_rank (stacking : list element) (name : element) : Z :=
  default 99%Z (index_of name stacking).

(** [sorted(l, key=key)]: Python's sort is stable, and a stable sort has
    one result; insertion sort computes it. *)
Fixpoint insert_by {A} (key : A -> Z) (x : A) (l : list A) : list A :=
  match l with
  | [] => [x]
  | y :: l' => if (key x <=? key y)%Z then x :: y :: l' else y :: insert_by key x l'
  end.

Definition sorted_by {A} (key : A -> Z) (l : list A) : list A :=
  foldr (insert_by key) [] l.

(** Lines 734-737: the members of a group in the order they are drawn,
    top to bottom. *)
Definition el_render_details_sorted (pos_key_item : string)
    (group_content : list element) : list element :=
  sorted_by (stack_rank (stacking_order pos_key_item group_content))
    (el_render_details group_content).

(** Lines 745-754 and 803-812: the gap below an element, by the types of
    the element and of the one after it. *)
Definition gap_between (logo_spacing copy_cta_spacing general_element_spacing : Z)
    (curr_type next_type : element) : Z :=
  match curr_type, next_type with
  | logo, (copy | cta) | (copy | cta), logo => logo_spacing
  | copy, cta | cta, copy => copy_cta_spacing
  | _, _ => general_element_spacing
  end.

(** Lines 761-812: [current_y_offset] at which each member is drawn. *)
Fixpoint y_offsets (gap : element -> element -> Z) (el_h : element -> Z)
    (current_y_offset : Z) (els : list element) : list (element * Z) :=
  match els with
  | [] => []
  | el :: rest =>
      (el, current_y_offset)
      :: y_offsets gap el_h
           (current_y_offset + el_h el
            + match rest with
              | next :: _ => gap el next
              | [] => 0
              end)%Z
           rest
  end.

Local Close Scope string_scope.

(** ** Sample data for the worked examples *)

(** A nearest-neighbour filter, to run the compositor on concrete images. *)
Definition nearest : resampler :=
  fun im w h x y => im_px im ((x * im_w im) `div` w) ((y * im_h im) `div` h).

(** Opaque black images of a given size. *)
Definition black (w h : Z) : image :=
  {| im_w := w; im_h := h; im_px := fun _ _ => (0, 0, 0, 255) |}.

Local Open Scope string_scope.
Local Open Scope list_scope.

(** The members of a group in a given order of precedence. *)
Definition in_order (precedence : list element) (group_content : list element)
    : list element :=
  filter (fun name => name ∈ group_content) precedence.

(** A request that shows all three elements with given position keys for
    landscape formats. *)
Definition sample_request (logo_key copy_key cta_key : string) : GenerateRequest :=
  {| brandLogo := Some (black 40 20);
     includeLogo := true; logoAppliesToAll := true; logoSelectedFormats := [];
     logoPositionByOrientation := {["landscape" := logo_key]};
     includeCopy := true; adCopy := Some (of_string "Spring Collection");
     copyAppliesToAll := true; copySelectedFormats := [];
     copyPositionByOrientation := {["landscape" := copy_key]};
     includeCta := true; ctaText := Some (of_string "SHOP");
     ctaAppliesToAll := true; ctaSelectedFormats := [];
     ctaPositionByOrientation := {["landscape" := cta_key]} |}.

Definition fb_feed : FormatItem := {| id := "fb-feed-1200x628"; width := 1200; height := 628 |}.

Local Close Scope string_scope.

(** [int(w * 0.07)] against the exact [floor(7 * w / 100)]. *)
Definition margin_matches (w : Z) : bool :=
  match py_int (py_mul (Int w) (Flt lit_0_07)) with
  | Some m => (m =? (7 * w) `div` 100)%Z
  | None => false
  end.

(** ** More of the code *)

(** The sign bit of a double (clear for NaN). *)
Definition is_negative (x : float) : bool :=
  match x with
  | S754_zero s | S754_infinity s | S754_finite s _ _ => s
  | S754_nan => false
  end.

(** ** Drawing a group: block size, anchor and per-element positions *)

(** Lines 739-754: the loop that adds up the heights of the members and
    the gaps between them, and takes the largest width.  The state is
    [(stacked_block_total_h, stacked_block_max_w)]. *)
Fixpoint stacked_block (gap : element -> element -> Z) (el_w el_h : element -> Z)
    (stacked_block_total_h stacked_block_max_w : Z) (els : list element) : Z * Z :=
  match els with
  | [] => (stacked_block_total_h, stacked_block_max_w)
  | el :: rest =>
      stacked_block gap el_w el_h
        (stacked_block_total_h + el_h el
         + match rest with
           | next :: _ => gap el next
           | [] => 0
           end)
        (Z.max stacked_block_max_w (el_w el))
        rest
  end.

(** Lines 756-767 and 801-812: the block is anchored in the safe
    rectangle by its position key; each member is drawn at
    [(px, current_y_offset)], centred in the width of the block. *)
Definition draw_positions (pos_key : string) (gap : element -> element -> Z)
    (el_w el_h : element -> Z) (sx sy safe_w safe_h : Z) (els : list element)
    : list (element * Z * Z) :=
  let '(total_h, max_w) := stacked_block gap el_w el_h 0 0 els in
  let '(gx, gy) := get_element_position pos_key max_w total_h sx sy safe_w safe_h in
  (fun '(el, y) => (el, gx + (max_w - el_w el) `div` 2, y)) <$> y_offsets gap el_h gy els.

Definition lit_0_05 : float := S754_finite false 7205759403792794 (-57).
Definition lit_0_06 : float := S754_finite false 8646911284551352 (-57).
Definition lit_0_02 : float := S754_finite false 5764607523034235 (-58).
Definition lit_0_03 : float := S754_finite false 8646911284551352 (-58).

(** [max(3, int(side * pct))] *)
Definition spacing (side : Z) (pct : float) : option Z :=
  n ← py_int (py_mul (Int side) (Flt pct));
  Some (Z.max 3 n).

(** [(tw, th) in [(300, 250), (336, 280)]] *)
Definition is_special_fmt (tw th : Z) : bool :=
  ((tw =? 300) && (th =? 250)) || ((tw =? 336) && (th =? 280)).

(** Lines 589-602: [(logo_spacing, copy_cta_spacing,
    general_element_spacing)] of a format. *)
Definition group_spacings (tw th safe_w safe_h : Z) : option (Z * Z * Z) :=
  logo_copy ←
    (if tw <? th
     then l ← spacing safe_h lit_0_05; c ← spacing safe_h lit_0_02; Some (l, c)
     else if (tw =? th) || is_special_fmt tw th
     then l ← spacing safe_h lit_0_06; c ← spacing safe_h lit_0_03; Some (l, c)
     else l ← spacing safe_h lit_0_06; c ← spacing safe_h lit_0_05; Some (l, c));
  g ← spacing (Z.min safe_w safe_h) lit_0_02;
  Some (logo_copy.1, logo_copy.2, g).

(** ** Fonts, the user's hero box, the results *)

Local Open Scope string_scope.

Section FontPaths.

(** [os.path.join(FONT_DIR, name)] *)
Variable font_file : string -> string.
(** [os.path.exists] *)
Variable path_exists : string -> bool.

Definition DEFAULT_FONT_PATH : string := font_file "arial.ttf".

(** Lines 76-90. *)
Definition FONT_MAP : gmap string string :=
  list_to_map
    [("arial.ttf", font_file "arial.ttf");
     ("helvetica.ttf", font_file "helvetica.ttf");
     ("verdana.ttf", font_file "verdana.ttf");
     ("georgia.ttf", font_file "georgia.ttf");
     ("times.ttf", font_file "times.ttf");
     ("cour.ttf", font_file "cour.ttf");
     ("Inter-Regular.ttf", font_file "Inter-Regular.ttf");
     ("Roboto-Regular.ttf", font_file "Roboto-Regular.ttf");
     ("OpenSans-Regular.ttf", font_file "OpenSans-Regular.ttf");
     ("Lato-Regular.ttf", font_file "Lato-Regular.ttf");
     ("Montserrat-Regular.ttf", font_file "Montserrat-Regular.ttf");
     ("Poppins-Regular.ttf", font_file "Poppins-Regular.ttf");
     ("Nunito-Regular.ttf", font_file "Nunito-Regular.ttf")].

(** Lines 92-101.  [None] and the empty string are falsy. *)
Definition get_font_path (font_filename : option string) : string :=
  match font_filename with
  | None => DEFAULT_FONT_PATH
  | Some f =>
      if bool_decide (f = "") then DEFAULT_FONT_PATH
      else
        let path := default DEFAULT_FONT_PATH (FONT_MAP !! f) in
        if path_exists path then path else DEFAULT_FONT_PATH
  end.

End FontPaths.

(** The file names of the bundled fonts, the keys of [FONT_MAP]. *)
Definition font_names : list string :=
  ["arial.ttf"; "helvetica.ttf"; "verdana.ttf"; "georgia.ttf"; "times.ttf"; "cour.ttf";
   "Inter-Regular.ttf"; "Roboto-Regular.ttf"; "OpenSans-Regular.ttf"; "Lato-Regular.ttf";
   "Montserrat-Regular.ttf"; "Poppins-Regular.ttf"; "Nunito-Regular.ttf"].


(** Lines 347-349 and 814-815: the loop over the requested formats fills
    the dict [output_results], keyed by format id.  [render] stands for
    the body of the loop up to the encoded image; [None] is an exception,
    which ends the request. *)
Definition generate_results (render : FormatItem -> option string)
    (formats : list FormatItem) : option (gmap string string) :=
  foldl (fun acc fmt_item =>
           output_results ← acc;
           data ← render fmt_item;
           Some (<[id fmt_item := data]> output_results))
        (Some ∅) formats.

Local Close Scope string_scope.

(** ** Fitting the copy: wrap, shrink, block height *)

Definition lit_0_2 : float := S754_finite false 7205759403792794 (-55).

Section CopyFit.

(** [ImageFont.truetype(copy_font_path, size).getbbox(text)]: the ink box
    of a text in the copy font at a size, or a falsy value ([None]). *)
Variable getbbox : Z -> str -> option (Z * Z * Z * Z).
(** [max_ac_w_final] *)
Variable max_ac_w : Z.
(** [content_item], the ad copy *)
Variable content_item : str.

(** [lw] of the wrap at a size (lines 646 and 672): the ink width, or
    [len(test_l) * size * 0.6] without a box. *)
Definition wrap_line_width (size : Z) (test_l : str) : num :=
  match getbbox size test_l with
  | Some (x0, _, x1, _) => Int (x1 - x0)
  | None => py_mul (py_mul (Int (Z.of_nat (length test_l))) (Int size)) (Flt lit_0_6)
  end.

(** Lines 642-652 (and 668-678): the wrap of the copy at a size. *)
Definition wrap_at (size : Z) : option (list str) :=
  wrap_text (wrap_line_width size) max_ac_w size content_item.

(** Lines 654-660, [all_lines_fit_final]: no line is wider than the
    target; a line without a box counts as width 0. *)
Definition all_lines_fit (lines : list str) (size : Z) : bool :=
  forallb (fun line =>
             let lw := match getbbox size line with
                       | Some (x0, _, x1, _) => x1 - x0
                       | None => 0
                       end in
             negb (max_ac_w <? lw))
          lines.

(** Lines 666-692: [while current_ac_font_sz_final > 10], with its
    [break] and its [else].  The state is [(temp_ad_copy_lines_final,
    current_ac_font_sz_final)]; the lines are wrapped again only at a size
    other than the first one.  The result is [(ad_copy_lines_final,
    ac_font_sz_final)]. *)
Equations? shrink_loop (ac_font_sz : Z) (temp : list str) (current : Z)
    : option (list str * Z) by wf (Z.to_nat (current - 10)) lt :=
shrink_loop ac_font_sz temp current with Z_gt_le_dec current 10 := {
  | right _ => Some (temp, current)
  | left _
      with (if bool_decide (current <> ac_font_sz) then wrap_at current else Some temp) := {
    | None => None
    | Some temp' =>
        if all_lines_fit temp' current then Some (temp', current)
        else shrink_loop ac_font_sz temp' (current - 1)
    }
  }.
Proof. lia. Qed.

(** Lines 642-692: wrap at the size the font search gave, then shrink. *)
Definition fit_copy (ac_font_sz : Z) : option (list str * Z) :=
  ad_copy_lines ← wrap_at ac_font_sz;
  shrink_loop ac_font_sz ad_copy_lines ac_font_sz.

End CopyFit.

(** Lines 694-696: the height of the copy block of [n_lines] lines of
    height [line_h]; the result is [(ac_line_sp_final,
    ac_block_h_final)]. *)
Definition copy_block_height (n_lines line_h : Z) : option (Z * Z) :=
  ac_line_sp ← py_int (py_mul (Int line_h) (Flt lit_0_2));
  Some (ac_line_sp,
        Z.max 0 (n_lines * (line_h + ac_line_sp)
                 - (if (0 <? ac_line_sp) && (0 <? n_lines) then ac_line_sp else 0))).

(* ===================================================================== *)
(** * Part II. Properties                                                 *)
(* ===================================================================== *)

(** ** The order on Python numbers *)

Lemma SFcompare_antisym (x y : float) :
  SFcompare y x = CompOpp <$> SFcompare x y.
Proof.
  destruct x as [sx | sx | | sx mx ex], y as [sy | sy | | sy my ey];
    try reflexivity; try (destruct sx, sy; reflexivity);
    try (destruct sx; reflexivity); try (destruct sy; reflexivity).
  simpl. destruct sx, sy; try reflexivity; simpl; f_equal;
    rewrite (Z.compare_antisym ex ey);
    destruct (ex ?= ey) eqn:E; simpl; try reflexivity;
    change (Pos.compare_cont Eq my mx) with (Pos.compare_cont (CompOpp Eq) my mx);
    rewrite <- (Pos.compare_cont_antisym mx my Eq);
    try rewrite CompOpp_involutive; reflexivity.
Qed.

Lemma py_compare_antisym (a b : num) :
  py_compare b a = CompOpp <$> py_compare a b.
Proof.
  destruct a as [x | x], b as [y | y]; simpl.
  - f_equal. apply Z.compare_antisym.
  - reflexivity.
  - destruct (cmp_int_flt y x) as [c |]; simpl; [| reflexivity].
    by rewrite CompOpp_involutive.
  - apply SFcompare_antisym.
Qed.

Lemma SFcompare_refl (x : float) :
  x <> S754_nan -> SFcompare x x = Some Eq.
Proof.
  destruct x as [s | s | | s m e]; intros H; try done.
  - by destruct s.
  - simpl. rewrite Z.compare_refl.
    replace (Pos.compare_cont Eq m m) with Eq
      by (symmetry; apply Pos.compare_cont_refl).
    by destruct s.
Qed.

Lemma py_compare_refl (a : num) :
  is_nan a = false -> py_compare a a = Some Eq.
Proof.
  destruct a as [x | x]; simpl.
  - intros _. by rewrite Z.compare_refl.
  - intros H. apply SFcompare_refl. by destruct x.
Qed.

Lemma SFcompare_None (x y : float) :
  SFcompare x y = None -> x = S754_nan \/ y = S754_nan.
Proof.
  destruct x as [sx | sx | | sx mx ex], y as [sy | sy | | sy my ey];
    simpl; intros H; try discriminate; auto.
Qed.

(** A comparison is undefined only when a NaN takes part. *)
Lemma py_compare_None (a b : num) :
  py_compare a b = None -> is_nan a = true \/ is_nan b = true.
Proof.
  destruct a as [x | x], b as [y | y]; simpl; try discriminate.
  - destruct y; simpl; try discriminate; auto.
  - destruct x; simpl; try discriminate; auto.
  - intros H. destruct (SFcompare_None _ _ H) as [-> | ->]; auto.
Qed.

Lemma py_lt_le (a b : num) : py_lt a b = true -> py_le a b = true.
Proof. unfold py_lt, py_le. by destruct (py_compare a b) as [[] |]. Qed.

Lemma py_le_refl (a : num) : is_nan a = false -> py_le a a = true.
Proof. intros H. unfold py_le. by rewrite py_compare_refl. Qed.

(** On numbers that are not NaN the order is total. *)
Lemma py_not_lt_le (a b : num) :
  is_nan a = false -> is_nan b = false ->
  py_lt a b = false -> py_le b a = true.
Proof.
  intros Ha Hb. unfold py_lt, py_le. rewrite (py_compare_antisym a b).
  destruct (py_compare a b) as [[] |] eqn:E; simpl; try done.
  destruct (py_compare_None _ _ E); congruence.
Qed.

Lemma py_lt_not_nan (a b : num) :
  py_lt a b = true -> is_nan a = false /\ is_nan b = false.
Proof.
  unfold py_lt.
  destruct a as [x | [| | |]], b as [y | [| | |]]; simpl; auto; discriminate.
Qed.

Lemma py_max_cases (a b : num) :
  (py_lt a b = true /\ py_max a b = b) \/ (py_lt a b = false /\ py_max a b = a).
Proof. unfold py_max. destruct (py_lt a b); auto. Qed.

Lemma py_min_cases (a b : num) :
  (py_lt b a = true /\ py_min a b = b) \/ (py_lt b a = false /\ py_min a b = a).
Proof. unfold py_min. destruct (py_lt b a); auto. Qed.

(** [max(a, b) >= b] and [max(a, b) >= a] away from NaN. *)
Lemma py_max_ge_r (a b : num) :
  is_nan a = false -> is_nan b = false -> py_le b (py_max a b) = true.
Proof.
  intros Ha Hb. destruct (py_max_cases a b) as [[H ->] | [H ->]].
  - by apply py_le_refl.
  - by apply py_not_lt_le.
Qed.

Lemma py_max_ge_l (a b : num) :
  is_nan a = false -> py_le a (py_max a b) = true.
Proof.
  intros Ha. destruct (py_max_cases a b) as [[H ->] | [H ->]].
  - by apply py_lt_le.
  - by apply py_le_refl.
Qed.

(** A NaN operand makes [max] return its first argument. *)
Lemma py_max_nan_r (a b : num) : is_nan b = true -> py_max a b = a.
Proof.
  intros Hb. destruct (py_max_cases a b) as [[H _] | [_ ->]]; [| done].
  apply py_lt_not_nan in H. destruct H; congruence.
Qed.

(** ** [int()] of a product needs both factors away from NaN *)

Lemma fmul_nan_l (y : float) : fmul S754_nan y = S754_nan.
Proof. reflexivity. Qed.

Lemma fmul_nan_r (x : float) : fmul x S754_nan = S754_nan.
Proof. by destruct x. Qed.

Lemma py_int_mul_not_nan (z c : Z) (s : num) :
  py_int (py_mul (Int z) s) = Some c -> is_nan s = false.
Proof.
  destruct s as [y | y]; [done |].
  destruct y; try done. simpl. by rewrite fmul_nan_r.
Qed.

(** ** Rounding never invents a NaN *)

Lemma iter_pos_invariant {A} (P : A -> Prop) (f : A -> A) :
  (forall x, P x -> P (f x)) -> forall p x, P x -> P (SpecFloat.iter_pos f p x).
Proof.
  intros Hf. induction p as [p IH | p IH |]; intros x Hx; simpl; auto.
Qed.

Lemma shr_1_nonneg (mrs : shr_record) : 0 <= shr_m mrs -> 0 <= shr_m (shr_1 mrs).
Proof.
  destruct mrs as [m r s]. simpl. intros H.
  destruct m as [| [p | p |] | p]; simpl; lia.
Qed.

Lemma shr_nonneg (mrs : shr_record) (e n : Z) :
  0 <= shr_m mrs -> 0 <= shr_m (shr mrs e n).1.
Proof.
  intros H. destruct n as [| p | p]; simpl; auto.
  apply (iter_pos_invariant (fun x => 0 <= shr_m x)); auto using shr_1_nonneg.
Qed.

Lemma shr_record_of_loc_m (m : Z) (l : location) : shr_m (shr_record_of_loc m l) = m.
Proof. by destruct l as [| []]. Qed.

Lemma shr_fexp_nonneg (m e : Z) (l : location) :
  0 <= m -> 0 <= shr_m (shr_fexp prec emax m e l).1.
Proof.
  intros H. unfold shr_fexp. apply shr_nonneg. by rewrite shr_record_of_loc_m.
Qed.

Lemma round_nearest_even_nonneg (m : Z) (l : location) :
  0 <= m -> 0 <= round_nearest_even m l.
Proof.
  intros H. destruct l as [| []]; simpl; try lia. destruct (Z.even m); lia.
Qed.

Lemma binary_round_aux_not_nan (s : bool) (mx ex : Z) (lx : location) :
  0 <= mx -> binary_round_aux prec emax s mx ex lx <> S754_nan.
Proof.
  intros H. unfold binary_round_aux.
  pose proof (shr_fexp_nonneg mx ex lx H) as H1.
  destruct (shr_fexp prec emax mx ex lx) as [mrs' e'].
  pose proof (shr_fexp_nonneg
                (round_nearest_even (shr_m mrs') (loc_of_shr_record mrs')) e' loc_Exact
                (round_nearest_even_nonneg _ _ H1)) as H2.
  destruct (shr_fexp prec emax _ e' loc_Exact) as [mrs'' e''].
  simpl in H2. destruct (shr_m mrs'') as [| m | m]; [done | | lia].
  by destruct (e'' <=? emax - prec).
Qed.

Lemma SFdiv_core_binary_nonneg (m1 e1 m2 e2 : Z) :
  0 <= m1 -> 0 < m2 -> 0 <= (SFdiv_core_binary prec emax m1 e1 m2 e2).1.1.
Proof.
  intros H1 H2. unfold SFdiv_core_binary.
  set (s := _ - _ - _). set (m' := match s with Z0 => _ | _ => _ end).
  assert (0 <= m') as Hm'.
  { subst m'. destruct s; try lia. apply Z.shiftl_nonneg. lia. }
  pose proof (Z_div_mod m' m2 ltac:(lia)) as Hd.
  destruct (Z.div_eucl m' m2) as [q r]. simpl. nia.
Qed.

Lemma div_round_not_nan (s : bool) (m1 m2 : Z) :
  0 <= m1 -> 0 < m2 ->
  (let '(mz, ez, lz) := SFdiv_core_binary prec emax m1 0 m2 0 in
   binary_round_aux prec emax s mz ez lz) <> S754_nan.
Proof.
  intros H1 H2.
  pose proof (SFdiv_core_binary_nonneg m1 0 m2 0 H1 H2) as Hq.
  destruct (SFdiv_core_binary prec emax m1 0 m2 0) as [[mz ez] lz].
  by apply binary_round_aux_not_nan.
Qed.

(** A true division by a non-zero int is never NaN. *)
Lemma int_truediv_not_nan (a b : Z) : b <> 0 -> int_truediv a b <> S754_nan.
Proof.
  intros Hb. unfold int_truediv.
  destruct a as [| a | a], b as [| b | b]; try done;
    apply div_round_not_nan; simpl; lia.
Qed.

Lemma cover_scale_not_nan (tw th iw ih : Z) :
  is_nan (cover_scale tw th iw ih) = false.
Proof.
  unfold cover_scale.
  assert (forall t i, is_nan (if 0 <? i then py_truediv (Int t) (Int i) else Int 1) = false)
    as H.
  { intros t i. destruct (Z.ltb_spec 0 i); [| done]. simpl.
    pose proof (int_truediv_not_nan t i ltac:(lia)).
    by destruct (int_truediv t i). }
  destruct (py_max_cases (if 0 <? iw then py_truediv (Int tw) (Int iw) else Int 1)
              (if 0 <? ih then py_truediv (Int th) (Int ih) else Int 1))
    as [[_ ->] | [_ ->]]; apply H.
Qed.

(** ** Finite results

    The rounding of [SpecFloat] on bounded operands: no operation of the
    compositor overflows on 32-bit sizes, so every [int()] has a value. *)

Lemma digits2_pos_size (p : positive) : digits2_pos p = Pos.size p.
Proof. induction p; simpl; congruence. Qed.

Lemma Zdigits2_log2 (m : Z) : 0 < m -> Zdigits2 m = Z.log2 m + 1.
Proof.
  destruct m as [| p | p]; try lia. intros _. simpl.
  rewrite digits2_pos_size. destruct p; simpl; lia.
Qed.

Lemma Zdigits2_nonneg (m : Z) : 0 <= Zdigits2 m.
Proof. destruct m; simpl; lia. Qed.

(** [Zdigits2 m] is the least [d] with [m < 2^d]. *)
Lemma Zdigits2_le (m d : Z) : 0 <= m -> 0 <= d -> (Zdigits2 m <= d <-> m < 2 ^ d).
Proof.
  intros Hm Hd. destruct (Z.eq_dec m 0) as [-> | Hne].
  - simpl. pose proof (Z.pow_pos_nonneg 2 d). lia.
  - rewrite Zdigits2_log2 by lia. rewrite Z.log2_lt_pow2 by lia. lia.
Qed.

Lemma Zdigits2_gt (m : Z) : 0 <= m -> m < 2 ^ Zdigits2 m.
Proof. intros Hm. apply Zdigits2_le; [done | apply Zdigits2_nonneg | lia]. Qed.

Lemma shr_1_m (mrs : shr_record) : 0 <= shr_m mrs -> shr_m (shr_1 mrs) = shr_m mrs / 2.
Proof.
  destruct mrs as [m r s]. cbn [shr_m]. intros H.
  destruct m as [| [p | p |] | p]; cbn [shr_1 shr_m]; try lia; try done;
    [apply (Z.div_unique _ _ _ 1) | apply (Z.div_unique _ _ _ 0)]; lia.
Qed.

Lemma pow2_xO (p : positive) : 2 ^ Z.pos p~0 = 2 ^ Z.pos p * 2 ^ Z.pos p.
Proof.
  replace (Z.pos p~0) with (Z.pos p + Z.pos p) by lia. apply Z.pow_add_r; lia.
Qed.

Lemma pow2_xI (p : positive) : 2 ^ Z.pos p~1 = 2 * (2 ^ Z.pos p * 2 ^ Z.pos p).
Proof.
  replace (Z.pos p~1) with (1 + (Z.pos p + Z.pos p)) by lia.
  rewrite !Z.pow_add_r by lia. by rewrite Z.pow_1_r.
Qed.

Lemma iter_shr_1_m (p : positive) (mrs : shr_record) :
  0 <= shr_m mrs ->
  shr_m (SpecFloat.iter_pos shr_1 p mrs) = shr_m mrs / 2 ^ Z.pos p.
Proof.
  revert mrs. induction p as [p IH | p IH |]; intros mrs Hm; simpl.
  - pose proof (shr_1_nonneg _ Hm) as H1.
    pose proof (iter_pos_invariant (fun x => 0 <= shr_m x) shr_1 shr_1_nonneg p _ H1) as H2.
    assert (0 < 2 ^ Z.pos p) by (apply Z.pow_pos_nonneg; lia).
    rewrite (IH _ H2), (IH _ H1), shr_1_m by done.
    rewrite !Z.div_div by lia. by rewrite pow2_xI.
  - pose proof (iter_pos_invariant (fun x => 0 <= shr_m x) shr_1 shr_1_nonneg p _ Hm) as H2.
    assert (0 < 2 ^ Z.pos p) by (apply Z.pow_pos_nonneg; lia).
    rewrite (IH _ H2), (IH _ Hm).
    rewrite !Z.div_div by lia. by rewrite pow2_xO.
  - by rewrite shr_1_m.
Qed.

(** One [shr_fexp]: the mantissa is divided by [2^n] and the exponent
    raised by [n], for [n] the shortfall of the exponent (when positive). *)
Lemma shr_fexp_spec (m e : Z) (l : location) :
  0 <= m ->
  let n := fexp prec emax (Zdigits2 m + e) - e in
  let r := shr_fexp prec emax m e l in
  (0 < n -> shr_m r.1 = m / 2 ^ n /\ r.2 = e + n)
  /\ (n <= 0 -> r = (shr_record_of_loc m l, e)).
Proof.
  intros Hm n r. subst r. unfold shr_fexp, shr. fold n.
  destruct n as [| p | p] eqn:E; split; intros Hn; try lia; try done.
  simpl. split; [| done].
  rewrite iter_shr_1_m by (by rewrite shr_record_of_loc_m).
  by rewrite shr_record_of_loc_m.
Qed.

Lemma fexp_eq (x : Z) : fexp prec emax x = Z.max (x - 53) (-1074).
Proof. reflexivity. Qed.

Lemma round_nearest_even_bounds (m : Z) (l : location) :
  m <= round_nearest_even m l <= m + 1.
Proof. destruct l as [| []]; simpl; try lia. destruct (Z.even m); lia. Qed.

Lemma pow2_pos (n : Z) : 0 <= n -> 0 < 2 ^ n.
Proof. intros. apply Z.pow_pos_nonneg; lia. Qed.

(** The rounding core on a mantissa of at most [d] digits: if the
    exponent, and the exponent the magnitude calls for, stay below [k],
    the result is finite with exponent at most [k]. *)
Lemma binary_round_aux_finite (s : bool) (mx ex : Z) (lx : location) (d k : Z) :
  0 <= mx < 2 ^ d -> 0 <= d ->
  ex < k -> d + ex - 53 < k -> -1074 < k -> k <= 971 ->
  finite_le k (binary_round_aux prec emax s mx ex lx).
Proof.
  intros [Hmx Hd] Hd0 Hex Hmag Hmin Hmax.
  assert (Zdigits2 mx <= d) as Hdd by (by apply Zdigits2_le).
  pose proof (Zdigits2_gt mx Hmx) as Hgt. pose proof (Zdigits2_nonneg mx) as Hdn.
  unfold binary_round_aux.
  pose proof (shr_fexp_spec mx ex lx Hmx) as [Hpos Hneg]. rewrite fexp_eq in Hpos, Hneg.
  destruct (shr_fexp prec emax mx ex lx) as [mrs1 e1]. simpl in Hpos, Hneg.
  assert (0 <= shr_m mrs1 < 2 ^ 53 /\ -1074 <= e1 < k) as [[Hm1 Hm1'] [He1 He1']].
  { destruct (Z_lt_le_dec 0 (Z.max (Zdigits2 mx + ex - 53) (-1074) - ex)) as [Hn | Hn].
    - destruct (Hpos Hn) as [-> ->]. clear Hpos Hneg.
      set (n := Z.max (Zdigits2 mx + ex - 53) (-1074) - ex) in *.
      pose proof (pow2_pos n ltac:(lia)). split; [| lia]. split.
      + apply Z.div_pos; lia.
      + apply Z.div_lt_upper_bound; [lia |].
        rewrite <- Z.pow_add_r by lia.
        eapply Z.lt_le_trans; [exact Hgt |]. apply Z.pow_le_mono_r; lia.
    - specialize (Hneg Hn). injection Hneg as -> ->. rewrite shr_record_of_loc_m.
      split; [| lia]. split; [done |].
      eapply Z.lt_le_trans; [exact Hgt |]. apply Z.pow_le_mono_r; lia. }
  clear Hpos Hneg.
  set (m2 := round_nearest_even (shr_m mrs1) (loc_of_shr_record mrs1)).
  pose proof (round_nearest_even_bounds (shr_m mrs1) (loc_of_shr_record mrs1)) as Hm2.
  fold m2 in Hm2.
  assert (0 <= m2 <= 2 ^ 53) as [Hm2a Hm2b] by lia.
  assert (Zdigits2 m2 <= 54) as Hd2.
  { apply Zdigits2_le; [done | lia |]. change (2 ^ 54) with (2 * 2 ^ 53). lia. }
  pose proof (Zdigits2_gt m2 Hm2a) as Hgt2. pose proof (Zdigits2_nonneg m2) as Hdn2.
  pose proof (shr_fexp_spec m2 e1 loc_Exact Hm2a) as [Hpos Hneg].
  rewrite fexp_eq in Hpos, Hneg.
  destruct (shr_fexp prec emax m2 e1 loc_Exact) as [mrs2 e2]. simpl in Hpos, Hneg.
  assert (0 <= shr_m mrs2 < 2 ^ 53 /\ e2 <= k) as [[Hm3 Hm3'] He2].
  { destruct (Z_lt_le_dec 0 (Z.max (Zdigits2 m2 + e1 - 53) (-1074) - e1)) as [Hn | Hn].
    - destruct (Hpos Hn) as [-> ->]. clear Hpos Hneg.
      set (n := Z.max (Zdigits2 m2 + e1 - 53) (-1074) - e1) in *.
      pose proof (pow2_pos n ltac:(lia)). split; [| lia]. split.
      + apply Z.div_pos; lia.
      + apply Z.div_lt_upper_bound; [lia |].
        assert (2 * 2 ^ 53 <= 2 ^ n * 2 ^ 53); [| lia].
        apply Z.mul_le_mono_nonneg_r; [lia |].
        change 2 with (2 ^ 1) at 1. apply Z.pow_le_mono_r; lia.
    - specialize (Hneg Hn). injection Hneg as -> ->. simpl.
      split; [| lia]. split; [done |].
      eapply Z.lt_le_trans; [exact Hgt2 |]. apply Z.pow_le_mono_r; lia. }
  destruct (shr_m mrs2) as [| m | m]; [done | | lia].
  destruct (Z.leb_spec e2 (emax - prec)) as [_ | Hbig]; [done |].
  unfold emax, prec in Hbig. lia.
Qed.

Lemma finite_le_mono (k k' : Z) (x : float) : k <= k' -> finite_le k x -> finite_le k' x.
Proof. destruct x; simpl; try done. lia. Qed.

Lemma finite_le_trunc (k : Z) (x : float) : finite_le k x -> is_Some (trunc x).
Proof. destruct x; simpl; try done; by eexists. Qed.

Lemma iter_xO (m d : positive) : Z.pos (Pos.iter xO m d) = Z.pos m * 2 ^ Z.pos d.
Proof.
  induction d as [| d IH] using Pos.peano_ind.
  - simpl. lia.
  - rewrite Pos.iter_succ, Pos2Z.inj_succ, Z.pow_succ_r by lia.
    rewrite Pos2Z.inj_xO, IH. lia.
Qed.

Lemma shl_align_spec (mx : positive) (ex ex' : Z) :
  let r := shl_align mx ex ex' in
  r.2 = Z.min ex ex' /\ Z.pos r.1 = Z.pos mx * 2 ^ (ex - r.2).
Proof.
  unfold shl_align. destruct (ex' - ex) as [| d | d] eqn:E; simpl.
  - split; [lia |]. rewrite Z.sub_diag. simpl. lia.
  - split; [lia |]. rewrite Z.sub_diag. simpl. lia.
  - split; [lia |]. rewrite iter_xO. f_equal. f_equal. lia.
Qed.

(** Rounding a mantissa of at most [d] digits at exponent [ex]. *)
Lemma binary_round_finite (s : bool) (mx : positive) (ex d k : Z) :
  Z.pos mx < 2 ^ d -> 0 <= d ->
  ex < k -> d + ex - 53 < k -> -1074 < k -> k <= 971 ->
  finite_le k (binary_round prec emax s mx ex).
Proof.
  intros Hmx Hd Hex Hmag Hmin Hmax. unfold binary_round.
  pose proof (shl_align_spec mx ex (fexp prec emax (Z.pos (digits2_pos mx) + ex))) as [He Hm].
  destruct (shl_align mx ex _) as [mz ez]. simpl in He, Hm.
  apply (binary_round_aux_finite s (Z.pos mz) ez loc_Exact (d + (ex - ez)) k); try lia.
  split; [lia |]. rewrite Hm, Z.pow_add_r by lia.
  apply Z.mul_lt_mono_pos_r; [apply pow2_pos; lia | done].
Qed.

Lemma binary_normalize_finite (m e d k : Z) (sz : bool) :
  Z.abs m < 2 ^ d -> 0 <= d ->
  e < k -> d + e - 53 < k -> -1074 < k -> k <= 971 ->
  finite_le k (binary_normalize prec emax m e sz).
Proof.
  intros Hm Hd He Hmag Hmin Hmax.
  destruct m as [| m | m]; simpl; [done | |]; by apply (binary_round_finite _ _ _ d).
Qed.

(** [float(z)] of an int below [2^53] in magnitude is finite, of
    magnitude below [2^54]. *)
Lemma of_int_finite (z : Z) : Z.abs z < 2 ^ 53 -> finite_le 1 (of_int z).
Proof. intros Hz. apply (binary_normalize_finite z 0 53 1); lia. Qed.

Lemma fmul_finite (k1 k2 : Z) (x y : float) :
  finite_le k1 x -> finite_le k2 y ->
  -1128 < k1 + k2 -> k1 + k2 + 54 <= 971 ->
  finite_le (k1 + k2 + 54) (fmul x y).
Proof.
  destruct x as [sx | sx | | sx mx ex], y as [sy | sy | | sy my ey]; simpl; try done.
  intros [Hx Hex] [Hy Hey] Hlo Hhi.
  apply (binary_round_aux_finite _ _ _ _ 106); try lia.
  split; [lia |]. rewrite Pos2Z.inj_mul. change (2 ^ 106) with (2 ^ 53 * 2 ^ 53).
  unfold prec in *. nia.
Qed.

(** The quotient mantissa of the division core and its exponent. *)
Lemma SFdiv_core_binary_bounds (m1 e1 m2 e2 : Z) :
  0 < m1 -> 0 < m2 ->
  let r := SFdiv_core_binary prec emax m1 e1 m2 e2 in
  0 <= r.1.1 /\ r.1.2 <= e1 - e2
  /\ r.1.1 < 2 ^ (Zdigits2 m1 + (e1 - e2 - r.1.2)).
Proof.
  intros H1 H2. unfold SFdiv_core_binary.
  set (e' := Z.min _ _). set (s := _ - _ - e').
  assert (0 <= s) as Hs by (subst s e'; lia).
  set (m' := match s with Z0 => _ | _ => _ end).
  assert (m' = m1 * 2 ^ s) as Hm'.
  { subst m'. destruct s as [| p | p] eqn:E; [simpl; lia | | lia].
    by rewrite Z.shiftl_mul_pow2. }
  pose proof (pow2_pos s Hs) as Hp.
  pose proof (Z_div_mod m' m2 ltac:(lia)) as Hd.
  destruct (Z.div_eucl m' m2) as [q r]. simpl.
  pose proof (Zdigits2_gt m1 ltac:(lia)) as Hg. pose proof (Zdigits2_nonneg m1).
  split; [nia |]. split; [subst e'; lia |].
  fold s. clearbody s m'. rewrite Z.pow_add_r by lia.
  assert (m1 * 2 ^ s < 2 ^ Zdigits2 m1 * 2 ^ s) by (by apply Z.mul_lt_mono_pos_r).
  nia.
Qed.

Lemma div_round_finite (s : bool) (m1 e1 m2 e2 k : Z) :
  0 < m1 < 2 ^ 53 -> 0 < m2 ->
  e1 - e2 < k -> -1074 < k -> k <= 971 ->
  finite_le k (let '(mz, ez, lz) := SFdiv_core_binary prec emax m1 e1 m2 e2 in
               binary_round_aux prec emax s mz ez lz).
Proof.
  intros [H1 H1'] H2 He Hlo Hhi.
  pose proof (SFdiv_core_binary_bounds m1 e1 m2 e2 H1 H2) as (Hq & He' & Hq').
  destruct (SFdiv_core_binary prec emax m1 e1 m2 e2) as [[mz ez] lz].
  cbn [fst snd] in Hq, He', Hq'.
  pose proof (Zdigits2_nonneg m1).
  assert (Zdigits2 m1 <= 53) by (apply Zdigits2_le; lia).
  apply (binary_round_aux_finite _ _ _ _ (Zdigits2 m1 + (e1 - e2 - ez))); lia.
Qed.

(** A true division of an int below [2^53] in magnitude by a non-zero int
    is finite, of magnitude below [2^54]. *)
Lemma int_truediv_finite (a b : Z) :
  Z.abs a < 2 ^ 53 -> b <> 0 -> finite_le 1 (int_truediv a b).
Proof.
  intros Ha Hb. unfold int_truediv.
  destruct a as [| a | a], b as [| b | b]; try done;
    apply div_round_finite; simpl in *; lia.
Qed.

(** Dividing a finite double by a finite non-zero one whose exponent is
    at least [lo]. *)
Lemma fdiv_finite (k lo : Z) (x : float) (sy : bool) (my : positive) (ey : Z) :
  finite_le k x -> lo <= ey ->
  -1075 < k - lo -> k - lo + 1 <= 971 ->
  finite_le (k - lo + 1) (fdiv x (S754_finite sy my ey)).
Proof.
  destruct x as [sx | sx | | sx mx ex]; simpl; try done.
  intros [Hx Hex] Hey Hlo Hhi.
  apply div_round_finite; unfold prec in *; lia.
Qed.

Lemma Zdigits2_mul_pow2 (m s : Z) :
  0 < m -> 0 <= s -> Zdigits2 (m * 2 ^ s) = Zdigits2 m + s.
Proof.
  intros Hm Hs. pose proof (pow2_pos s Hs).
  rewrite !Zdigits2_log2 by nia. rewrite Z.log2_mul_pow2 by lia. lia.
Qed.

(** A mantissa that already sits at the exponent its digits call for is
    kept as it is. *)
Lemma binary_round_aux_exact (s : bool) (m : positive) (e : Z) :
  fexp prec emax (Zdigits2 (Z.pos m) + e) <= e -> e <= 971 ->
  binary_round_aux prec emax s (Z.pos m) e loc_Exact = S754_finite s m e.
Proof.
  intros Hf He. unfold binary_round_aux.
  pose proof (shr_fexp_spec (Z.pos m) e loc_Exact ltac:(lia)) as [_ Hn].
  rewrite Hn by lia. cbn [fst snd shr_record_of_loc loc_of_shr_record shr_m shr_r shr_s
    round_nearest_even].
  rewrite Hn by lia. cbn [fst snd shr_record_of_loc shr_m].
  destruct (Z.leb_spec e (emax - prec)) as [_ | Hbig]; [done |].
  unfold emax, prec in Hbig. lia.
Qed.

(** Rounding a mantissa below [2^53]: the value is kept, the mantissa is
    aligned to the exponent its digits call for. *)
Lemma binary_round_exact (s : bool) (mx : positive) (ex : Z) :
  Z.pos mx < 2 ^ 53 -> -1074 <= ex <= 971 ->
  let ez := fexp prec emax (Zdigits2 (Z.pos mx) + ex) in
  exists m, binary_round prec emax s mx ex = S754_finite s m ez
            /\ Z.pos m = Z.pos mx * 2 ^ (ex - ez)
            /\ ex - 52 <= ez <= ex.
Proof.
  intros Hmx Hex ez. unfold binary_round.
  pose proof (Zdigits2_le (Z.pos mx) 53 ltac:(lia) ltac:(lia)) as [_ Hd].
  specialize (Hd Hmx).
  assert (0 < Zdigits2 (Z.pos mx)) as Hd0 by (rewrite Zdigits2_log2 by lia;
    pose proof (Z.log2_nonneg (Z.pos mx)); lia).
  assert (ex - 52 <= ez <= ex) as Hez by (subst ez; rewrite fexp_eq; lia).
  pose proof (shl_align_spec mx ex ez) as [He Hm].
  change (Z.pos (digits2_pos mx)) with (Zdigits2 (Z.pos mx)). fold ez.
  destruct (shl_align mx ex ez) as [mz ez']. cbn [fst snd] in He, Hm.
  assert (ez' = ez) as -> by lia.
  exists mz. split; [| done].
  apply binary_round_aux_exact; [| lia].
  rewrite Hm, Zdigits2_mul_pow2 by lia.
  replace (Zdigits2 (Z.pos mx) + (ex - ez) + ez) with (Zdigits2 (Z.pos mx) + ex) by lia.
  fold ez. lia.
Qed.

(** [float(z)] of a non-zero int below [2^53] in magnitude: finite, not
    zero, with an exponent in [-52, 0]. *)
Lemma of_int_exact (z : Z) :
  z <> 0 -> Z.abs z < 2 ^ 53 ->
  exists m e, of_int z = S754_finite (z <? 0) m e
              /\ Z.pos m = Z.abs z * 2 ^ (- e) /\ -52 <= e <= 0.
Proof.
  intros Hz Hz'. unfold of_int, binary_normalize.
  destruct z as [| p | p]; [done | |].
  - destruct (binary_round_exact false p 0 Hz' ltac:(lia)) as (m & -> & Hm & He).
    eexists _, _. split; [done |]. split; [exact Hm | lia].
  - destruct (binary_round_exact true p 0 Hz' ltac:(lia)) as (m & -> & Hm & He).
    eexists _, _. split; [done |]. split; [exact Hm | lia].
Qed.

Lemma aligned_sum_bound (mx my : positive) (ex ey : Z) (sx sy : bool) (neg : bool) :
  Z.pos mx < 2 ^ 53 -> Z.pos my < 2 ^ 53 ->
  let ez := Z.min ex ey in
  let a := cond_Zopp sx (Z.pos (shl_align mx ex ez).1) in
  let b := cond_Zopp sy (Z.pos (shl_align my ey ez).1) in
  Z.abs (if neg then a - b else a + b) < 2 ^ (54 + Z.max ex ey - ez).
Proof.
  intros Hx Hy ez a b.
  pose proof (shl_align_spec mx ex ez) as [Hxe Hxm].
  pose proof (shl_align_spec my ey ez) as [Hye Hym].
  cbn zeta in Hxe, Hxm, Hye, Hym.
  assert ((shl_align mx ex ez).2 = ez) as Hxe' by lia.
  assert ((shl_align my ey ez).2 = ez) as Hye' by lia.
  rewrite Hxe' in Hxm. rewrite Hye' in Hym. clear Hxe Hye Hxe' Hye'.
  assert (Z.abs a = Z.pos mx * 2 ^ (ex - ez)) as Ha
    by (subst a; destruct sx; simpl; lia).
  assert (Z.abs b = Z.pos my * 2 ^ (ey - ez)) as Hb
    by (subst b; destruct sy; simpl; lia).
  clearbody a b. clear Hxm Hym.
  set (M := Z.max ex ey).
  assert (0 <= ex - ez /\ 0 <= ey - ez /\ ex - ez <= M - ez /\ ey - ez <= M - ez)
    as (? & ? & ? & ?) by (subst ez M; lia).
  pose proof (pow2_pos (ex - ez) ltac:(lia)). pose proof (pow2_pos (ey - ez) ltac:(lia)).
  assert (2 ^ (ex - ez) <= 2 ^ (M - ez)) by (apply Z.pow_le_mono_r; lia).
  assert (2 ^ (ey - ez) <= 2 ^ (M - ez)) by (apply Z.pow_le_mono_r; lia).
  replace (54 + M - ez) with (54 + (M - ez)) by lia.
  rewrite Z.pow_add_r by lia. change (2 ^ 54) with (2 * 2 ^ 53).
  assert (Z.abs (if neg then a - b else a + b) <= Z.abs a + Z.abs b)
    by (destruct neg; lia).
  nia.
Qed.

Lemma fadd_finite (k1 k2 : Z) (x y : float) :
  finite_le k1 x -> finite_le k2 y ->
  -1076 < Z.max k1 k2 -> Z.max k1 k2 + 2 <= 971 ->
  finite_le (Z.max k1 k2 + 2) (fadd x y).
Proof.
  destruct x as [sx | sx | | sx mx ex], y as [sy | sy | | sy my ey]; simpl; try done.
  - by destruct sx, sy.
  - lia.
  - lia.
  - intros [Hx Hex] [Hy Hey] Hlo Hhi.
    pose proof (aligned_sum_bound mx my ex ey sx sy false Hx Hy) as Hs. cbn zeta in Hs.
    apply (binary_normalize_finite _ _ (54 + Z.max ex ey - Z.min ex ey)); first done; lia.
Qed.

Lemma fsub_finite (k1 k2 : Z) (x y : float) :
  finite_le k1 x -> finite_le k2 y ->
  -1076 < Z.max k1 k2 -> Z.max k1 k2 + 2 <= 971 ->
  finite_le (Z.max k1 k2 + 2) (fsub x y).
Proof.
  destruct x as [sx | sx | | sx mx ex], y as [sy | sy | | sy my ey]; simpl; try done.
  - by destruct sx, sy.
  - lia.
  - lia.
  - intros [Hx Hex] [Hy Hey] Hlo Hhi.
    pose proof (aligned_sum_bound mx my ex ey sx sy true Hx Hy) as Hs. cbn zeta in Hs.
    apply (binary_normalize_finite _ _ (54 + Z.max ex ey - Z.min ex ey)); first done; lia.
Qed.

Lemma num_finite_mono (k k' : Z) (a : num) : k <= k' -> num_finite k a -> num_finite k' a.
Proof. destruct a; simpl; [done | apply finite_le_mono]. Qed.

Lemma py_int_finite (k : Z) (a : num) : num_finite k a -> is_Some (py_int a).
Proof. destruct a; simpl; [by eexists | apply finite_le_trunc]. Qed.

Lemma py_max_finite (k : Z) (a b : num) :
  num_finite k a -> num_finite k b -> num_finite k (py_max a b).
Proof. intros Ha Hb. by destruct (py_max_cases a b) as [[_ ->] | [_ ->]]. Qed.

Lemma py_min_finite (k : Z) (a b : num) :
  num_finite k a -> num_finite k b -> num_finite k (py_min a b).
Proof. intros Ha Hb. by destruct (py_min_cases a b) as [[_ ->] | [_ ->]]. Qed.

Lemma py_max_flt (k : Z) (x y : float) :
  finite_le k x -> finite_le k y ->
  exists z, py_max (Flt x) (Flt y) = Flt z /\ finite_le k z.
Proof.
  intros Hx Hy. destruct (py_max_cases (Flt x) (Flt y)) as [[_ ->] | [_ ->]]; eauto.
Qed.

Lemma py_min_flt (k : Z) (x y : float) :
  finite_le k x -> finite_le k y ->
  exists z, py_min (Flt x) (Flt y) = Flt z /\ finite_le k z.
Proof.
  intros Hx Hy. destruct (py_min_cases (Flt x) (Flt y)) as [[_ ->] | [_ ->]]; eauto.
Qed.

(** The cover scale of a source with positive sides is a finite double. *)
Lemma cover_scale_finite (tw th iw ih : Z) :
  Z.abs tw < 2 ^ 53 -> Z.abs th < 2 ^ 53 -> 0 < iw -> 0 < ih ->
  exists x, cover_scale tw th iw ih = Flt x /\ finite_le 1 x.
Proof.
  intros Htw Hth Hiw Hih. unfold cover_scale.
  rewrite (proj2 (Z.ltb_lt 0 iw) Hiw), (proj2 (Z.ltb_lt 0 ih) Hih). simpl py_truediv.
  apply py_max_flt; apply int_truediv_finite; lia.
Qed.

(** [int(n * x)] for an int below [2^53] in magnitude and a finite [x]. *)
Lemma py_int_mul_finite (k z : Z) (x : float) :
  Z.abs z < 2 ^ 53 -> finite_le k x -> -1129 < k -> k + 55 <= 971 ->
  is_Some (py_int (py_mul (Int z) (Flt x))).
Proof.
  intros Hz Hx Hlo Hhi. simpl.
  apply (finite_le_trunc (1 + k + 54)), fmul_finite; [by apply of_int_finite | done | lia..].
Qed.

(** The no-hero branch computes its sizes for every target below [2^53]
    and every source with positive sides below [2^53]. *)
Lemma plan_cover_total (tw th iw ih : Z) :
  Z.abs tw < 2 ^ 53 -> Z.abs th < 2 ^ 53 -> 0 < iw < 2 ^ 53 -> 0 < ih < 2 ^ 53 ->
  is_Some (plan_cover tw th iw ih).
Proof.
  intros Htw Hth [Hiw Hiw'] [Hih Hih']. unfold plan_cover.
  destruct (cover_scale_finite tw th iw ih) as (x & -> & Hx); try done.
  destruct (py_int_mul_finite 1 iw x) as [rw ->]; [lia | done | lia.. |].
  destruct (py_int_mul_finite 1 ih x) as [rh ->]; [lia | done | lia.. |].
  simpl. by eexists.
Qed.

(** [a + b / c] on ints below [2^53] in magnitude, [c] not zero. *)
Lemma py_add_int_div_finite (a b c : Z) :
  Z.abs a < 2 ^ 53 -> Z.abs b < 2 ^ 53 -> c <> 0 ->
  exists x, py_add (Int a) (py_truediv (Int b) (Int c)) = Flt x /\ finite_le 3 x.
Proof.
  intros Ha Hb Hc. eexists. split; [done |]. simpl.
  apply (fadd_finite 1 1); [by apply of_int_finite | by apply int_truediv_finite | lia..].
Qed.

(** [n * p / d] for ints [n], [d] below [2^53] in magnitude, [d] not zero,
    and a finite double [p]. *)
Lemma py_mul_div_finite (k n d : Z) (p : float) :
  Z.abs n < 2 ^ 53 -> Z.abs d < 2 ^ 53 -> d <> 0 ->
  finite_le k p -> -1100 < k -> k + 108 <= 971 ->
  finite_le (k + 108) (fdiv (fmul (of_int n) p) (of_int d)).
Proof.
  intros Hn Hd Hd0 Hp Hlo Hhi.
  destruct (of_int_exact d Hd0 Hd) as (m & e & -> & _ & He).
  pose proof (fmul_finite 1 k _ _ (of_int_finite n Hn) Hp ltac:(lia) ltac:(lia)) as Hm.
  eapply finite_le_mono; [| apply (fdiv_finite (1 + k + 54) (-52)); [done | lia..]]. lia.
Qed.

Lemma py_int_add_int_finite (k z : Z) (a : num) :
  num_finite k a -> Z.abs z < 2 ^ 53 -> -1076 < k -> Z.max k 1 + 2 <= 971 ->
  is_Some (py_int (py_add a (Int z))).
Proof.
  intros Ha Hz Hlo Hhi. destruct a as [n | x]; simpl; [by eexists |].
  apply (finite_le_trunc (Z.max k 1 + 2)), fadd_finite; [done | by apply of_int_finite | lia..].
Qed.

(** The clamped crop origin [max(0, min(c * s - t, limit))]. *)
Lemma crop_origin_finite (c s t : float) (limit : Z) :
  finite_le 3 c -> finite_le 108 s -> finite_le 3 t ->
  num_finite 167
    (py_max (Int 0) (py_min (py_sub (py_mul (Flt c) (Flt s)) (Flt t)) (Int limit))).
Proof.
  intros Hc Hs Ht. apply py_max_finite; [done |]. apply py_min_finite; [| done].
  simpl. apply (fsub_finite 165 3); [| done | lia..].
  apply (fmul_finite 3 108); [done | done | lia..].
Qed.

(** The usable-hero branch computes its sizes and its crop box for every
    32-bit target, source, bbox and hero area and every prominence below
    [2^53] in magnitude. *)
Lemma plan_hero_total (tw th iw ih x1 y1 x2 y2 hax hay haw hah : Z) (prom : float) :
  Z.abs tw < 2 ^ 31 -> Z.abs th < 2 ^ 31 -> 0 < iw < 2 ^ 31 -> 0 < ih < 2 ^ 31 ->
  Z.abs x1 < 2 ^ 31 -> Z.abs y1 < 2 ^ 31 -> Z.abs x2 < 2 ^ 31 -> Z.abs y2 < 2 ^ 31 ->
  x1 < x2 -> y1 < y2 ->
  Z.abs hax < 2 ^ 31 -> Z.abs hay < 2 ^ 31 -> Z.abs haw < 2 ^ 31 -> Z.abs hah < 2 ^ 31 ->
  finite_le 0 prom ->
  is_Some (plan_hero tw th iw ih (x1, y1, x2, y2) hax hay haw hah prom).
Proof.
  intros Htw Hth [Hiw Hiw'] [Hih Hih'] Hx1 Hy1 Hx2 Hy2 Hw Hh Hax Hay Haw Hah Hp.
  unfold plan_hero. cbn zeta.
  rewrite (proj2 (Z.ltb_lt 0 (x2 - x1)) ltac:(lia)), (proj2 (Z.ltb_lt 0 (y2 - y1)) ltac:(lia)).
  destruct (py_add_int_div_finite x1 (x2 - x1) 2) as (hcx & -> & Hhcx); [lia.. |].
  destruct (py_add_int_div_finite y1 (y2 - y1) 2) as (hcy & -> & Hhcy); [lia.. |].
  destruct (py_add_int_div_finite hax haw 2) as (tcx & -> & Htcx); [lia.. |].
  destruct (py_add_int_div_finite hay hah 2) as (tcy & -> & Htcy); [lia.. |].
  assert (exists x, py_truediv (py_mul (Int haw) (Flt prom)) (Int (x2 - x1)) = Flt x
                    /\ finite_le 108 x) as (snw & -> & Hsnw).
  { eexists. split; [done |]. apply (py_mul_div_finite 0); [lia.. | done | lia | lia]. }
  assert (exists x, py_truediv (py_mul (Int hah) (Flt prom)) (Int (y2 - y1)) = Flt x
                    /\ finite_le 108 x) as (snh & -> & Hsnh).
  { eexists. split; [done |]. apply (py_mul_div_finite 0); [lia.. | done | lia | lia]. }
  destruct (py_min_flt 108 snw snh) as (sfh & -> & Hsfh); [done.. |].
  destruct (cover_scale_finite tw th iw ih) as (cs & -> & Hcs); [lia.. |].
  destruct (py_max_flt 108 sfh cs) as (fs & -> & Hfs);
    [done | by apply (finite_le_mono 1) |].
  destruct (py_int_mul_finite 108 iw fs) as [w0 ->]; [lia | done | lia.. |].
  destruct (py_int_mul_finite 108 ih fs) as [h0 ->]; [lia | done | lia.. |].
  cbn [mbind option_bind].
  pose proof (crop_origin_finite hcx fs tcx (Z.max tw w0 - tw) Hhcx Hfs Htcx) as Hcx.
  pose proof (crop_origin_finite hcy fs tcy (Z.max th h0 - th) Hhcy Hfs Htcy) as Hcy.
  set (crop_x := py_max (Int 0) (py_min (py_sub (py_mul (Flt hcx) _) _) _)) in *.
  set (crop_y := py_max (Int 0) (py_min (py_sub (py_mul (Flt hcy) _) _) _)) in *.
  destruct (py_int_finite _ _ Hcx) as [l ->].
  destruct (py_int_finite _ _ Hcy) as [t ->].
  destruct (py_int_add_int_finite 167 tw crop_x) as [r ->]; [done | lia.. |].
  destruct (py_int_add_int_finite 167 th crop_y) as [b ->]; [done | lia.. |].
  cbn [mbind option_bind]. by eexists.
Qed.

(** ** The compositor's plans, read back *)

Lemma plan_cover_fields (tw th iw ih : Z) (p : cover_plan) :
  plan_cover tw th iw ih = Some p ->
  cp_scale p = cover_scale tw th iw ih
  /\ py_int (py_mul (Int iw) (cp_scale p)) = Some (cp_rw p)
  /\ py_int (py_mul (Int ih) (cp_scale p)) = Some (cp_rh p)
  /\ cp_box p = (Z.max 0 ((cp_rw p - tw) `div` 2), Z.max 0 ((cp_rh p - th) `div` 2),
                 Z.min (cp_rw p) ((cp_rw p - tw) `div` 2 + tw),
                 Z.min (cp_rh p) ((cp_rh p - th) `div` 2 + th)).
Proof.
  unfold plan_cover. intros H.
  destruct (py_int (py_mul (Int iw) _)) as [rw |] eqn:Hw; [| done].
  destruct (py_int (py_mul (Int ih) _)) as [rh |] eqn:Hh; [| done].
  simpl in H. injection H as <-. by simpl.
Qed.

Lemma plan_hero_fields (tw th iw ih : Z) (hero : bbox)
    (hax hay haw hah : Z) (prom : float) (p : hero_plan) :
  plan_hero tw th iw ih hero hax hay haw hah prom = Some p ->
  hp_scale_to_cover_canvas p = cover_scale tw th iw ih
  /\ hp_final_scale p = py_max (hp_scale_for_hero p) (hp_scale_to_cover_canvas p)
  /\ (exists w0 h0,
        py_int (py_mul (Int iw) (hp_final_scale p)) = Some w0
        /\ py_int (py_mul (Int ih) (hp_final_scale p)) = Some h0
        /\ hp_scaled_iw p = Z.max tw w0 /\ hp_scaled_ih p = Z.max th h0)
  /\ (exists crop_x0 crop_y0,
        hp_crop_x p = py_max (Int 0) (py_min crop_x0 (Int (hp_scaled_iw p - tw)))
        /\ hp_crop_y p = py_max (Int 0) (py_min crop_y0 (Int (hp_scaled_ih p - th))))
  /\ (exists l t r b,
        hp_box p = (l, t, r, b)
        /\ py_int (hp_crop_x p) = Some l /\ py_int (hp_crop_y p) = Some t
        /\ py_int (py_add (hp_crop_x p) (Int tw)) = Some r
        /\ py_int (py_add (hp_crop_y p) (Int th)) = Some b).
Proof.
  unfold plan_hero. destruct hero as [[[x1 y1] x2] y2]. intros H.
  repeat match type of H with
         | context [mbind _ ?o] =>
             let v := fresh "v" in let E := fresh "E" in
             destruct o as [v |] eqn:E; [simpl in H | done]
         end.
  injection H as <-. simpl. repeat split; eauto 10.
Qed.

(** ** Cover guarantee *)

Lemma cover_scale_positive_size (tw th iw ih : Z) :
  0 < iw -> 0 < ih ->
  cover_scale tw th iw ih
  = py_max (py_truediv (Int tw) (Int iw)) (py_truediv (Int th) (Int ih)).
Proof.
  intros Hw Hh. unfold cover_scale.
  by rewrite (proj2 (Z.ltb_lt 0 iw) Hw), (proj2 (Z.ltb_lt 0 ih) Hh).
Qed.

(** C1.  For a source of positive width and height, the scale either regime
    applies is at least the cover scale [max(tw / iw, th / ih)]: the no-hero
    regime scales by exactly the cover scale, and the usable-hero regime by
    [max(scale_for_hero, cover)], which is the cover scale itself or the
    larger hero scale. *)
Theorem cover_guarantee (tw th iw ih : Z) :
  0 < iw -> 0 < ih ->
  let cover := py_max (py_truediv (Int tw) (Int iw)) (py_truediv (Int th) (Int ih)) in
  (forall p, plan_cover tw th iw ih = Some p ->
     cp_scale p = cover /\ py_le cover (cp_scale p) = true)
  /\ (forall hero hax hay haw hah prom p,
        plan_hero tw th iw ih hero hax hay haw hah prom = Some p ->
        hp_final_scale p = py_max (hp_scale_for_hero p) cover
        /\ py_le cover (hp_final_scale p) = true
        /\ (hp_final_scale p = cover
            \/ (hp_final_scale p = hp_scale_for_hero p
                /\ py_le cover (hp_scale_for_hero p) = true))).
Proof.
  intros Hw Hh cover. subst cover.
  rewrite <- (cover_scale_positive_size tw th iw ih Hw Hh).
  pose proof (cover_scale_not_nan tw th iw ih) as Hc.
  split.
  - intros p Hp. apply plan_cover_fields in Hp as (-> & _).
    split; [done | by apply py_le_refl].
  - intros hero hax hay haw hah prom p Hp.
    apply plan_hero_fields in Hp as (Hcov & Hfin & (w0 & h0 & Hw0 & _) & _).
    rewrite Hcov in Hfin. split; [done |].
    pose proof (py_int_mul_not_nan _ _ _ Hw0) as Hn.
    rewrite Hfin in *.
    destruct (py_max_cases (hp_scale_for_hero p) (cover_scale tw th iw ih))
      as [[Hlt E] | [Hlt E]]; rewrite E in *.
    + split; [by apply py_le_refl | by left].
    + assert (py_le (cover_scale tw th iw ih) (hp_scale_for_hero p) = true)
        by (by apply py_not_lt_le).
      split; [done | by right].
Qed.

Lemma cover_guarantee_witness :
  py_le (py_max (py_truediv (Int 1200) (Int 1000)) (py_truediv (Int 628) (Int 800)))
        (py_max (Flt (S754_finite false 5695552328747887 (-52)))
                (py_max (py_truediv (Int 1200) (Int 1000)) (py_truediv (Int 628) (Int 800))))
  = true.
Proof.
  pose proof (cover_guarantee 1200 628 1000 800 ltac:(lia) ltac:(lia)) as [_ H].
  destruct (plan_hero 1200 628 1000 800 (100, 100, 300, 400) 84 43 1032 542 lit_0_7)
    as [p |] eqn:E; [| by vm_compute in E].
  destruct (H _ _ _ _ _ _ p E) as (Hfin & Hle & _).
  rewrite Hfin in Hle.
  assert (hp_scale_for_hero p = Flt (S754_finite false 5695552328747887 (-52))) as Hs
    by (vm_compute in E; by injection E as <-).
  by rewrite Hs in Hle.
Defined.

(** The cover scale is a rounded quotient, and it can lie below the exact
    ratio: [970 / 100] is the double [5460614548186726 * 2^-49], and 100
    times it is less than 970.  (The no-hero branch trips over this, see
    the coverage section.) *)
Lemma cover_scale_below_the_ratio :
  cover_scale 970 250 100 100 = Flt (S754_finite false 5460614548186726 (-49))
  /\ 5460614548186726 * 100 < 970 * 2 ^ 49.
Proof. split; [by vm_compute | lia]. Qed.

(** ** Crop clamp *)

Lemma Zcompare_le (a b : Z) :
  match a ?= b with Lt | Eq => true | Gt => false end = true <-> a <= b.
Proof. destruct (Z.compare_spec a b); split; intros; try done; lia. Qed.

(** [max(0, min(c, M))] with [0 <= M] lies in [[0, M]] whatever [c] is,
    NaN and the infinities included. *)
Lemma clamp_bounds (c0 : num) (M : Z) :
  0 <= M ->
  py_le (Int 0) (py_max (Int 0) (py_min c0 (Int M))) = true
  /\ py_le (py_max (Int 0) (py_min c0 (Int M))) (Int M) = true.
Proof.
  intros HM.
  assert (py_le (Int 0) (Int M) = true) as H0M.
  { unfold py_le, py_compare. by apply Zcompare_le. }
  destruct (py_max_cases (Int 0) (py_min c0 (Int M))) as [[Hlt ->] | [_ ->]];
    [| by split].
  split; [by apply py_lt_le |].
  destruct (py_min_cases c0 (Int M)) as [[_ E] | [Hge E]]; rewrite E in *.
  - by apply py_le_refl.
  - apply py_not_lt_le; [done | | done]. by apply py_lt_not_nan in Hlt as [_ ?].
Qed.

Lemma py_le_int_finite (z : Z) (s : bool) (m : positive) (e : Z) :
  py_le (Int z) (Flt (S754_finite s m e)) = true <->
  match e with
  | Zneg p => z * 2 ^ Z.pos p <= signed s m
  | _ => z <= signed s m * 2 ^ e
  end.
Proof.
  unfold py_le, py_compare, cmp_int_flt. destruct e; apply Zcompare_le.
Qed.

Lemma Zcompare_opp_le (a b : Z) :
  match CompOpp (a ?= b) with Lt | Eq => true | Gt => false end = true <-> b <= a.
Proof. rewrite <- Z.compare_antisym. apply Zcompare_le. Qed.

Lemma py_le_finite_int (z : Z) (s : bool) (m : positive) (e : Z) :
  py_le (Flt (S754_finite s m e)) (Int z) = true <->
  match e with
  | Zneg p => signed s m <= z * 2 ^ Z.pos p
  | _ => signed s m * 2 ^ e <= z
  end.
Proof.
  unfold py_le, py_compare, cmp_int_flt, fmap, option_fmap, option_map.
  destruct e; apply Zcompare_opp_le.
Qed.

(** A number between the ints [0] and [M] is finite, and [int()] of it is
    between them too. *)
Lemma py_int_between (c : num) (M : Z) :
  py_le (Int 0) c = true -> py_le c (Int M) = true ->
  exists l, py_int c = Some l /\ 0 <= l <= M.
Proof.
  destruct c as [z | [s | s | | s m e]].
  - unfold py_le, py_compare. rewrite !Zcompare_le. eauto.
  - intros _. unfold py_le, py_compare, cmp_int_flt, fmap, option_fmap, option_map.
    rewrite Zcompare_opp_le. intros H. exists 0. split; [done | lia].
  - unfold py_le, py_compare, cmp_int_flt. intros H0 HM. by destruct s.
  - done.
  - rewrite py_le_int_finite, py_le_finite_int.
    unfold py_int, trunc, signed.
    destruct e as [| e | e]; intros H0 HM; eexists; (split; [reflexivity |]).
    + destruct s; lia.
    + assert (0 < 2 ^ Z.pos e) by (apply Z.pow_pos_nonneg; lia).
      destruct s; [nia | lia].
    + assert (0 < 2 ^ Z.pos e) by (apply Z.pow_pos_nonneg; lia).
      destruct s; [lia |].
      split; [apply Z.div_pos; lia | apply Z.div_le_upper_bound; lia].
Qed.

(** *** Rounding below an integer bound *)

Lemma iter_pos_count {A} (P : Z -> A -> Prop) (f : A -> A) :
  (forall n x, 0 <= n -> P n x -> P (n + 1) (f x)) ->
  forall p n x, 0 <= n -> P n x -> P (n + Z.pos p) (SpecFloat.iter_pos f p x).
Proof.
  intros Hf. induction p as [p IH | p IH |]; intros n x Hn Hx; simpl.
  - replace (n + Z.pos p~1) with (n + 1 + Z.pos p + Z.pos p) by lia.
    apply IH; [lia |]. apply IH; [lia |]. by apply Hf.
  - replace (n + Z.pos p~0) with (n + Z.pos p + Z.pos p) by lia.
    apply IH; [lia |]. by apply IH.
  - by apply Hf.
Qed.

Lemma shr_1_inv (m0 n : Z) (mrs : shr_record) :
  0 <= n -> shr_inv m0 n mrs -> shr_inv m0 (n + 1) (shr_1 mrs).
Proof.
  unfold shr_inv. intros Hn (Hm & rem & E & Hrem & Hz).
  destruct mrs as [m r s]. cbn [shr_m shr_r shr_s] in *.
  pose proof (pow2_pos n Hn) as Hp.
  rewrite Z.pow_add_r, Z.pow_1_r by lia.
  destruct m as [| [q | q |] | q]; cbn [shr_1 shr_m shr_r shr_s]; try lia.
  - split; [lia |]. exists rem. split; [lia |]. split; [lia |].
    intros H0. destruct (Hz H0) as [-> ->]. done.
  - split; [lia |]. exists (2 ^ n + rem). split; [lia |]. split; [lia |]. lia.
  - split; [lia |]. exists rem. split; [lia |]. split; [lia |].
    intros H0. destruct (Hz H0) as [-> ->]. done.
  - split; [lia |]. exists (2 ^ n + rem). split; [lia |]. split; [lia |]. lia.
Qed.

(** A [shr_fexp] that shifts by [n > 0] from an exact mantissa. *)
Lemma shr_fexp_inv (m e : Z) :
  0 <= m ->
  let n := fexp prec emax (Zdigits2 m + e) - e in
  let r := shr_fexp prec emax m e loc_Exact in
  0 < n -> shr_inv m n r.1 /\ r.2 = e + n.
Proof.
  intros Hm n r Hn. subst r. unfold shr_fexp, shr. fold n.
  destruct n as [| p | p] eqn:E; try lia. cbn [fst snd]. split; [| done].
  apply (iter_pos_count (shr_inv m) shr_1 (shr_1_inv m) p 0); [lia |].
  split; [done |]. exists 0. simpl. repeat split; lia.
Qed.

Lemma round_nearest_even_cases (mrs : shr_record) :
  let m' := round_nearest_even (shr_m mrs) (loc_of_shr_record mrs) in
  m' = shr_m mrs
  \/ (m' = shr_m mrs + 1 /\ ~ (shr_r mrs = false /\ shr_s mrs = false)).
Proof.
  destruct mrs as [m [] []]; simpl; try (by left); try (right; split; [done | by intros []]).
  destruct (Z.even m); [by left | right; split; [done | by intros []]].
Qed.

(** Rounding never crosses an integer bound below [2^53]: a positive
    mantissa [m] at an exponent [e <= 0] with [m * 2^e <= W] rounds to a
    double whose integer part is at most [W]. *)
Lemma binary_round_aux_le_int (m e W r : Z) :
  0 < m -> e <= 0 -> m <= W * 2 ^ (- e) -> W < 2 ^ 53 ->
  trunc (binary_round_aux prec emax false m e loc_Exact) = Some r -> r <= W.
Proof.
  intros Hm He HW HW53.
  pose proof (pow2_pos (- e) ltac:(lia)) as Hpe.
  assert (0 < W) as HW0 by nia.
  unfold binary_round_aux.
  (* the first shift and the rounding *)
  pose proof (shr_fexp_spec m e loc_Exact ltac:(lia)) as [_ Hneg].
  pose proof (shr_fexp_inv m e ltac:(lia)) as Hpos.
  rewrite fexp_eq in Hneg, Hpos. cbn zeta in Hneg, Hpos.
  destruct (shr_fexp prec emax m e loc_Exact) as [mrs1 e1]. cbn [fst snd] in *.
  set (m2 := round_nearest_even (shr_m mrs1) (loc_of_shr_record mrs1)).
  assert (0 <= m2 /\ e1 <= 0 /\ m2 <= W * 2 ^ (- e1)) as (Hm2 & He1 & Hm2W).
  { destruct (Z_lt_le_dec 0 (Z.max (Zdigits2 m + e - 53) (-1074) - e)) as [Hn | Hn].
    - destruct (Hpos Hn) as [(Hm1 & rem & E & Hrem & Hz) ->]. clear Hpos Hneg.
      set (n := Z.max (Zdigits2 m + e - 53) (-1074) - e) in *.
      assert (Zdigits2 m <= 53 - e) as Hd.
      { apply Zdigits2_le; [lia | lia |].
        replace (53 - e) with (53 + - e) by lia. rewrite Z.pow_add_r by lia. nia. }
      assert (e + n <= 0) as Hen by lia.
      pose proof (pow2_pos n ltac:(lia)) as Hpn.
      pose proof (pow2_pos (- (e + n)) ltac:(lia)) as Hpen.
      assert (2 ^ (- e) = 2 ^ (- (e + n)) * 2 ^ n) as Hsplit.
      { rewrite <- Z.pow_add_r by lia. f_equal. lia. }
      rewrite Hsplit in HW.
      set (X := W * 2 ^ (- (e + n))) in *.
      assert (shr_m mrs1 * 2 ^ n <= X * 2 ^ n) as Hle by lia.
      assert (shr_m mrs1 <= X) as Hm1X by (apply (Z.mul_le_mono_pos_r _ _ (2 ^ n)); lia).
      pose proof (round_nearest_even_cases mrs1) as [Hr | [Hr Hne]];
        cbn zeta in Hr; fold m2 in Hr; rewrite Hr.
      + repeat split; lia.
      + assert (rem <> 0) as Hrem0 by (intros H0; by apply Hne, Hz).
        assert (shr_m mrs1 * 2 ^ n < X * 2 ^ n) as Hlt by lia.
        assert (shr_m mrs1 < X) by (apply (Z.mul_lt_mono_pos_r (2 ^ n)); lia).
        repeat split; lia.
    - specialize (Hneg Hn). injection Hneg as -> ->. subst m2. simpl. lia. }
  clearbody m2. clear Hpos Hneg.
  (* the second shift *)
  pose proof (shr_fexp_spec m2 e1 loc_Exact Hm2) as [Hpos Hneg].
  rewrite fexp_eq in Hpos, Hneg. cbn zeta in Hpos, Hneg.
  destruct (shr_fexp prec emax m2 e1 loc_Exact) as [mrs2 e2]. cbn [fst snd] in *.
  pose proof (pow2_pos (- e1) ltac:(lia)) as Hpe1.
  assert (exists n, 0 <= n /\ e2 = e1 + n /\ 0 <= shr_m mrs2 /\ shr_m mrs2 * 2 ^ n <= m2)
    as (n & Hn0 & -> & Hm3 & Hm3').
  { destruct (Z_lt_le_dec 0 (Z.max (Zdigits2 m2 + e1 - 53) (-1074) - e1)) as [Hn | Hn].
    - destruct (Hpos Hn) as [E ->]. eexists. split; [| split; [reflexivity |]]; [lia |].
      rewrite E. set (n := Z.max _ _ - e1) in *.
      pose proof (pow2_pos n ltac:(lia)) as Hpn.
      split; [apply Z.div_pos; lia |].
      rewrite Z.mul_comm. apply Z.mul_div_le. lia.
    - specialize (Hneg Hn). injection Hneg as -> ->. exists 0.
      cbn [shr_record_of_loc shr_m]. simpl (2 ^ 0). lia. }
  pose proof (pow2_pos n Hn0) as Hpn.
  destruct (shr_m mrs2) as [| m3 | m3] eqn:E3; [simpl; intros [= <-]; lia | | lia].
  destruct (e1 + n <=? emax - prec); [| done].
  cbn [trunc]. intros [= <-].
  assert (Z.pos m3 * 2 ^ n <= W * 2 ^ (- e1)) as Hb by lia.
  destruct (e1 + n) as [| q | q] eqn:Eq.
  - assert (n = - e1) as -> by lia. simpl. nia.
  - assert (2 ^ n = 2 ^ Z.pos q * 2 ^ (- e1)) as Hs.
    { rewrite <- Z.pow_add_r by lia. f_equal. lia. }
    rewrite Hs in Hb. pose proof (pow2_pos (Z.pos q) ltac:(lia)). nia.
  - assert (2 ^ (- e1) = 2 ^ Z.pos q * 2 ^ n) as Hs.
    { rewrite <- Z.pow_add_r by lia. f_equal. lia. }
    rewrite Hs in Hb. pose proof (pow2_pos (Z.pos q) ltac:(lia)).
    apply Z.div_le_upper_bound; [lia |].
    apply (Z.mul_le_mono_pos_r _ _ (2 ^ n)); lia.
Qed.

Lemma binary_normalize_le_int (S e W r : Z) :
  0 < S -> e <= 0 -> S <= W * 2 ^ (- e) -> W < 2 ^ 53 ->
  trunc (binary_normalize prec emax S e false) = Some r -> r <= W.
Proof.
  intros HS He HW HW53. destruct S as [| p | p]; try lia.
  unfold binary_normalize, binary_round.
  pose proof (shl_align_spec p e (fexp prec emax (Z.pos (digits2_pos p) + e))) as [He' Hm].
  destruct (shl_align p e _) as [mz ez]. cbn [fst snd] in He', Hm.
  apply binary_round_aux_le_int; [lia | lia | | done].
  rewrite Hm. pose proof (pow2_pos (e - ez) ltac:(lia)).
  replace (- ez) with (- e + (e - ez)) by lia. rewrite Z.pow_add_r by lia. nia.
Qed.

(** [int(x + n)] for a positive double [x <= M] and an int [0 < n] with
    [M + n < 2^53] is at most [M + n]. *)
Lemma fadd_of_int_le (mx : positive) (ex tw M r : Z) :
  py_le (Flt (S754_finite false mx ex)) (Int M) = true ->
  0 < tw -> M + tw < 2 ^ 53 ->
  trunc (fadd (S754_finite false mx ex) (of_int tw)) = Some r -> r <= M + tw.
Proof.
  intros HM Htw HW. rewrite py_le_finite_int in HM. unfold signed in HM.
  assert (0 < M) as HM0.
  { destruct ex as [| q | q]; [lia | |].
    - pose proof (pow2_pos (Z.pos q) ltac:(lia)). nia.
    - pose proof (pow2_pos (Z.pos q) ltac:(lia)). nia. }
  destruct (of_int_exact tw ltac:(lia) ltac:(lia)) as (mt & et & -> & Hmt & Het).
  rewrite Z.abs_eq in Hmt by lia. rewrite (proj2 (Z.ltb_ge tw 0)) by lia.
  unfold fadd, SFadd. set (ez := Z.min ex et).
  pose proof (shl_align_spec mx ex ez) as [Hxe Hxm].
  pose proof (shl_align_spec mt et ez) as [Hte Htm].
  destruct (shl_align mx ex ez) as [ax ex']. destruct (shl_align mt et ez) as [at' et'].
  cbn [fst snd cond_Zopp] in *.
  assert (ex' = ez) as -> by (subst ez; lia). assert (et' = ez) as -> by (subst ez; lia).
  assert (ez <= 0) as Hez by (subst ez; lia).
  assert (0 <= ex - ez /\ 0 <= et - ez) as [? ?] by (subst ez; lia).
  clearbody ez.
  apply binary_normalize_le_int; [lia | done | | done].
  rewrite Hxm, Htm, Hmt, Z.mul_add_distr_r.
  pose proof (pow2_pos (- ez) ltac:(lia)) as Hpz.
  apply Z.add_le_mono.
  - destruct ex as [| q | q].
    + replace (0 - ez) with (- ez) by lia. nia.
    + replace (Z.pos q - ez) with (Z.pos q + - ez) by lia.
      rewrite Z.pow_add_r by lia. nia.
    + change (Z.neg q) with (- Z.pos q) in *.
      assert (2 ^ Z.pos q * 2 ^ (- Z.pos q - ez) = 2 ^ (- ez)) as <-.
      { rewrite <- Z.pow_add_r by lia. f_equal. lia. }
      pose proof (pow2_pos (- Z.pos q - ez) ltac:(lia)). nia.
  - rewrite <- Z.mul_assoc, <- Z.pow_add_r by lia.
    replace (- et + (et - ez)) with (- ez) by lia. lia.
Qed.

(** [int(c + n)] for a number [0 <= c <= M] and an int [0 <= n] with
    [M + n < 2^53] is at most [M + n]. *)
Lemma py_int_add_le (c : num) (tw M r : Z) :
  py_le (Int 0) c = true -> py_le c (Int M) = true ->
  0 <= tw -> M + tw < 2 ^ 53 ->
  py_int (py_add c (Int tw)) = Some r -> r <= M + tw.
Proof.
  intros H0 HM Htw HW.
  destruct (py_int_between c M H0 HM) as (l & Hl & Hl0 & HlM).
  destruct (Z.eq_dec tw 0) as [-> | Hne].
  { destruct c as [z | [s | s | | s m e]]; simpl in Hl; try done.
    - injection Hl as ->. simpl. intros [= <-]. lia.
    - destruct s; simpl; intros [= <-]; lia.
    - change (py_int (py_add (Flt (S754_finite s m e)) (Int 0)))
        with (trunc (S754_finite s m e)).
      simpl. rewrite Hl. intros [= <-]. lia. }
  destruct c as [z | [s | s | | s m e]].
  - simpl in *. injection Hl as ->. intros [= <-]. lia.
  - destruct (of_int_exact tw Hne ltac:(lia)) as (mt & et & E & Hmt & Het).
    rewrite Z.abs_eq in Hmt by lia. rewrite (proj2 (Z.ltb_ge tw 0)) in E by lia.
    unfold py_add, to_float, py_int. rewrite E. cbn [fadd SFadd trunc].
    destruct et as [| q | q]; [| lia |].
    + simpl in Hmt. intros [= <-]. lia.
    + change (- Z.neg q) with (Z.pos q) in Hmt.
      pose proof (pow2_pos (Z.pos q) ltac:(lia)).
      rewrite Hmt, Z.div_mul by lia. intros [= <-]. lia.
  - done.
  - done.
  - destruct s.
    { rewrite py_le_int_finite in H0. unfold signed in H0.
      pose proof (pow2_pos (Z.abs e) ltac:(lia)).
      destruct e as [| q | q]; simpl Z.abs in *; lia. }
    simpl py_int. unfold py_add, to_float. apply fadd_of_int_le; [done | lia | done].
Qed.

(** C4.  In the usable-hero regime the resized size is at least the target
    size, the clamped crop origin lies between 0 and (resized - target) on
    both axes (in exact comparison, so [crop_x + tw <= scaled_iw] and
    [crop_y + th <= scaled_ih]), and so does the integer origin
    [(int(crop_x), int(crop_y))] at which the crop is taken.  The right and
    bottom edges [int(crop_x + tw)] and [int(crop_y + th)], which the source
    computes by a rounded float addition, stay within the resized image for
    a target size that is not negative and a resized size below [2^53]. *)
Theorem crop_clamp_safety (tw th iw ih : Z) (hero : bbox)
    (hax hay haw hah : Z) (prom : float) (p : hero_plan) :
  plan_hero tw th iw ih hero hax hay haw hah prom = Some p ->
  tw <= hp_scaled_iw p /\ th <= hp_scaled_ih p
  /\ py_le (Int 0) (hp_crop_x p) = true
  /\ py_le (hp_crop_x p) (Int (hp_scaled_iw p - tw)) = true
  /\ py_le (Int 0) (hp_crop_y p) = true
  /\ py_le (hp_crop_y p) (Int (hp_scaled_ih p - th)) = true
  /\ (exists l t r b,
        hp_box p = (l, t, r, b)
        /\ 0 <= l /\ l + tw <= hp_scaled_iw p
        /\ 0 <= t /\ t + th <= hp_scaled_ih p
        /\ (0 <= tw -> hp_scaled_iw p < 2 ^ 53 -> r <= hp_scaled_iw p)
        /\ (0 <= th -> hp_scaled_ih p < 2 ^ 53 -> b <= hp_scaled_ih p)).
Proof.
  intros Hp.
  apply plan_hero_fields in Hp
    as (_ & _ & (w0 & h0 & _ & _ & Hsw & Hsh) & (cx0 & cy0 & Hcx & Hcy)
        & (l & t & r & b & Hbox & Hl & Ht & Hr & Hb)).
  assert (tw <= hp_scaled_iw p) as Hw by lia.
  assert (th <= hp_scaled_ih p) as Hh by lia.
  destruct (clamp_bounds cx0 (hp_scaled_iw p - tw) ltac:(lia)) as [Hx0 HxM].
  destruct (clamp_bounds cy0 (hp_scaled_ih p - th) ltac:(lia)) as [Hy0 HyM].
  rewrite <- Hcx in Hx0, HxM. rewrite <- Hcy in Hy0, HyM.
  destruct (py_int_between _ _ Hx0 HxM) as (l' & Hl' & ?).
  destruct (py_int_between _ _ Hy0 HyM) as (t' & Ht' & ?).
  assert (l' = l) by congruence. assert (t' = t) by congruence. subst.
  repeat split; try done.
  exists l, t, r, b. repeat split; try done; try lia.
  - intros Htw HW.
    replace (hp_scaled_iw p) with (hp_scaled_iw p - tw + tw) at 1 by lia.
    apply (py_int_add_le (hp_crop_x p)); try done. lia.
  - intros Hth HH.
    replace (hp_scaled_ih p) with (hp_scaled_ih p - th + th) at 1 by lia.
    apply (py_int_add_le (hp_crop_y p)); try done. lia.
Qed.

Lemma crop_clamp_safety_witness :
  py_le (Int 0) (Flt (S754_finite false 4878899596317952 (-51))) = true
  /\ py_le (Flt (S754_finite false 4878899596317952 (-51))) (Int (1011 - 628)) = true.
Proof.
  destruct (plan_hero 1200 628 1000 800 (100, 100, 300, 400) 84 43 1032 542 lit_0_7)
    as [p |] eqn:E; [| by vm_compute in E].
  pose proof (crop_clamp_safety _ _ _ _ _ _ _ _ _ _ p E) as (_ & _ & _ & _ & H0 & HM & _).
  assert (hp_crop_y p = Flt (S754_finite false 4878899596317952 (-51))
          /\ hp_scaled_ih p = 1011) as [Hy Hs]
    by (vm_compute in E; by injection E as <-).
  rewrite Hy, ?Hs in *. by split.
Defined.

(** ** The canvas: regimes, size, coverage *)

Section CompositorFacts.

Variable LANCZOS : resampler.

(** *** What the imaging library accepts *)

Lemma Image_new_Some (w h : Z) (c : color) :
  0 <= w -> 0 <= h ->
  Image_new w h c = Some {| im_w := w; im_h := h; im_px := fun _ _ => c |}.
Proof.
  intros Hw Hh. unfold Image_new.
  by rewrite (proj2 (Z.ltb_ge w 0)), (proj2 (Z.ltb_ge h 0)) by lia.
Qed.

Lemma Image_new_None (w h : Z) (c : color) :
  w < 0 \/ h < 0 -> Image_new w h c = None.
Proof.
  intros H. unfold Image_new.
  destruct (Z.ltb_spec w 0), (Z.ltb_spec h 0); simpl; try done. lia.
Qed.

Lemma Image_new_inv (w h : Z) (c : color) (im : image) :
  Image_new w h c = Some im ->
  0 <= w /\ 0 <= h /\ im = {| im_w := w; im_h := h; im_px := fun _ _ => c |}.
Proof.
  unfold Image_new.
  destruct (Z.ltb_spec w 0), (Z.ltb_spec h 0); simpl; try done.
  intros [= <-]. done.
Qed.

Lemma resize_Some (im : image) (w h : Z) :
  1 <= w -> 1 <= h ->
  resize LANCZOS im w h = Some {| im_w := w; im_h := h; im_px := LANCZOS im w h |}.
Proof.
  intros Hw Hh. unfold resize.
  by rewrite (proj2 (Z.ltb_ge w 1)), (proj2 (Z.ltb_ge h 1)) by lia.
Qed.


(** *** The regimes *)

(** The definition of [create_base_canvas_with_hero] solves the recursive
    equation of the source: the body, with the function itself (at the
    default prominence) for the call of line 187. *)
Lemma create_base_canvas_unfold (src : image) (tw th : Z) (hero_bbox : option bbox)
    (hax hay haw hah : Z) (prom : float) (bg : color) :
  create_base_canvas_with_hero LANCZOS src tw th hero_bbox hax hay haw hah prom bg
  = create_base_canvas_body LANCZOS
      (fun src' tw' th' bb' hax' hay' haw' hah' bg' =>
         create_base_canvas_with_hero LANCZOS src' tw' th' bb' hax' hay' haw' hah' lit_0_7 bg')
      src tw th hero_bbox hax hay haw hah prom bg.
Proof.
  unfold create_base_canvas_with_hero, create_base_canvas_callee, create_base_canvas_body.
  destruct (Image_new tw th bg) as [canvas |]; [simpl | done].
  destruct ((im_w src =? 0) || (im_h src =? 0)); [done |].
  destruct hero_bbox as [[[[x1 y1] x2] y2] |]; [| done].
  destruct ((haw <=? 0) || (hah <=? 0)); [done |].
  by destruct ((x2 - x1 <=? 0) || (y2 - y1 <=? 0)).
Qed.

(** Without a bbox the prominence plays no part. *)
Lemma create_base_canvas_no_bbox (src : image) (tw th hax hay haw hah : Z)
    (prom prom' : float) (bg : color) :
  create_base_canvas_with_hero LANCZOS src tw th None hax hay haw hah prom bg
  = create_base_canvas_with_hero LANCZOS src tw th None hax hay haw hah prom' bg.
Proof. reflexivity. Qed.

(** C2.  A degenerate hero bbox ([x2 <= x1] or [y2 <= y1]) gives exactly
    the canvas of the call without a bbox, for every source, target size,
    hero area, prominence and fill. *)
Theorem degenerate_bbox_is_no_bbox (src : image) (tw th : Z) (x1 y1 x2 y2 : Z)
    (hax hay haw hah : Z) (prom prom' : float) (bg : color) :
  x2 <= x1 \/ y2 <= y1 ->
  create_base_canvas_with_hero LANCZOS src tw th (Some (x1, y1, x2, y2))
    hax hay haw hah prom bg
  = create_base_canvas_with_hero LANCZOS src tw th None hax hay haw hah prom' bg.
Proof.
  intros Hdeg.
  unfold create_base_canvas_with_hero, create_base_canvas_callee, create_base_canvas_body.
  destruct (Image_new tw th bg) as [canvas |] eqn:Hn; [simpl | done].
  destruct ((im_w src =? 0) || (im_h src =? 0)) eqn:Hz; [done |].
  destruct ((haw <=? 0) || (hah <=? 0)); [done |].
  assert ((x2 - x1 <=? 0) || (y2 - y1 <=? 0) = true) as ->.
  { apply orb_true_iff. rewrite !Z.leb_le. lia. }
  rewrite ?Hn. simpl. by rewrite ?Hz.
Qed.

Lemma paste_size (canvas im : image) (ox oy : Z) :
  im_w (paste canvas im ox oy) = im_w canvas
  /\ im_h (paste canvas im ox oy) = im_h canvas.
Proof. done. Qed.

Lemma cover_crop_size (src canvas c : image) (tw th : Z) :
  cover_crop LANCZOS src canvas tw th = Some c ->
  im_w c = im_w canvas /\ im_h c = im_h canvas.
Proof.
  unfold cover_crop. destruct (plan_cover _ _ _ _) as [p |]; simpl; [| done].
  destruct (resize _ _ _ _) as [img2 |]; simpl; [| done].
  by intros [= <-].
Qed.

Lemma hero_crop_size (src canvas c : image) (tw th : Z) (hero : bbox)
    (hax hay haw hah : Z) (prom : float) :
  hero_crop LANCZOS src canvas tw th hero hax hay haw hah prom = Some c ->
  im_w c = im_w canvas /\ im_h c = im_h canvas.
Proof.
  unfold hero_crop. destruct (plan_hero _ _ _ _ _ _ _ _ _ _) as [p |]; simpl; [| done].
  destruct (resize _ _ _ _) as [img_resized |]; simpl; [| done].
  by intros [= <-].
Qed.

(** A source without area gives back the untouched canvas. *)
Lemma create_base_canvas_zero_area (src : image) (tw th : Z) (hero_bbox : option bbox)
    (hax hay haw hah : Z) (prom : float) (bg : color) :
  im_w src = 0 \/ im_h src = 0 ->
  create_base_canvas_with_hero LANCZOS src tw th hero_bbox hax hay haw hah prom bg
  = Image_new tw th bg.
Proof.
  intros H. unfold create_base_canvas_with_hero, create_base_canvas_body.
  assert ((im_w src =? 0) || (im_h src =? 0) = true) as ->.
  { apply orb_true_iff. rewrite !Z.eqb_eq. lia. }
  by destruct (Image_new tw th bg).
Qed.

(** A target with a negative side is refused by [Image.new], on every
    branch. *)
Lemma create_base_canvas_negative_target (src : image) (tw th : Z)
    (hero_bbox : option bbox) (hax hay haw hah : Z) (prom : float) (bg : color) :
  tw < 0 \/ th < 0 ->
  create_base_canvas_with_hero LANCZOS src tw th hero_bbox hax hay haw hah prom bg = None.
Proof.
  intros H. unfold create_base_canvas_with_hero, create_base_canvas_body.
  by rewrite Image_new_None.
Qed.

(** A canvas that is returned, on any branch, has the requested size. *)
Lemma canvas_size_of_result (src : image) (tw th : Z) (hero_bbox : option bbox)
    (hax hay haw hah : Z) (prom : float) (bg : color) (c : image) :
  create_base_canvas_with_hero LANCZOS src tw th hero_bbox hax hay haw hah prom bg
  = Some c ->
  im_w c = tw /\ im_h c = th.
Proof.
  unfold create_base_canvas_with_hero, create_base_canvas_callee, create_base_canvas_body.
  destruct (Image_new tw th bg) as [canvas |] eqn:Hn; simpl; [| done].
  apply Image_new_inv in Hn as (_ & _ & ->).
  destruct ((im_w src =? 0) || (im_h src =? 0)) eqn:Hz.
  { by intros [= <-]. }
  destruct hero_bbox as [[[[x1 y1] x2] y2] |].
  - destruct ((haw <=? 0) || (hah <=? 0)).
    { intros H. by apply cover_crop_size in H. }
    destruct ((x2 - x1 <=? 0) || (y2 - y1 <=? 0)).
    + simpl. rewrite ?Hz. intros H. by apply cover_crop_size in H.
    + intros H. by apply hero_crop_size in H.
  - intros H. by apply cover_crop_size in H.
Qed.

(** With a usable hero a canvas of the target size is returned for every
    positive target: line 198 lifts the resized size to the target size, so
    the resize is never asked for a side below 1.  (Sizes and coordinates
    below [2^31] and a prominence below [2^53] in magnitude keep every
    [int()] away from an infinity or a NaN.) *)
Lemma hero_regime_returns (src : image) (tw th x1 y1 x2 y2 hax hay haw hah : Z)
    (prom : float) (bg : color) :
  0 < im_w src < 2 ^ 31 -> 0 < im_h src < 2 ^ 31 ->
  0 < tw < 2 ^ 31 -> 0 < th < 2 ^ 31 ->
  small x1 -> small y1 -> small x2 -> small y2 -> x1 < x2 -> y1 < y2 ->
  small hax -> small hay -> 0 < haw < 2 ^ 31 -> 0 < hah < 2 ^ 31 ->
  finite_le 0 prom ->
  exists c,
    create_base_canvas_with_hero LANCZOS src tw th (Some (x1, y1, x2, y2))
      hax hay haw hah prom bg = Some c
    /\ im_w c = tw /\ im_h c = th.
Proof.
  unfold small. intros Hiw Hih Htw Hth Hx1 Hy1 Hx2 Hy2 Hw Hh Hax Hay Haw Hah Hp.
  assert (is_Some (create_base_canvas_with_hero LANCZOS src tw th (Some (x1, y1, x2, y2))
                     hax hay haw hah prom bg)) as [c Hc];
    [| exists c; split; [done | by eapply canvas_size_of_result]].
  unfold create_base_canvas_with_hero, create_base_canvas_body, hero_crop.
  rewrite Image_new_Some by lia. cbn [mbind option_bind].
  rewrite (proj2 (Z.eqb_neq (im_w src) 0)), (proj2 (Z.eqb_neq (im_h src) 0)) by lia.
  rewrite (proj2 (Z.leb_gt haw 0)), (proj2 (Z.leb_gt hah 0)) by lia.
  rewrite (proj2 (Z.leb_gt (x2 - x1) 0)), (proj2 (Z.leb_gt (y2 - y1) 0)) by lia.
  cbn [orb].
  destruct (plan_hero_total tw th (im_w src) (im_h src) x1 y1 x2 y2 hax hay haw hah prom)
    as [p Hplan]; [lia.. | done |].
  rewrite Hplan. cbn [mbind option_bind].
  pose proof (plan_hero_fields _ _ _ _ _ _ _ _ _ _ _ Hplan)
    as (_ & _ & (w0 & h0 & _ & _ & Hsw & Hsh) & _).
  rewrite resize_Some by lia. by eexists.
Qed.

End CompositorFacts.

Lemma degenerate_bbox_is_no_bbox_witness :
  create_base_canvas_with_hero nearest (black 1000 800) 1200 628 (Some (40, 50, 40, 90))
    84 43 1032 542 lit_0_7 default_bg
  = create_base_canvas_with_hero nearest (black 1000 800) 1200 628 None
    84 43 1032 542 lit_0_7 default_bg.
Proof. apply degenerate_bbox_is_no_bbox. lia. Defined.

(** ** Coverage of the canvas *)

(** C3, at a failing input.  A 100 x 100 source into a 970 x 250 canvas
    without a hero: [970 / 100] is a double just below 9.7, so
    [int(100 * scale)] is 969, the crop is 969 wide, and column 969 of the
    canvas keeps the fill colour in every row.  The no-hero branch has no
    counterpart of the hero branch's [max(tw, scaled_iw)]. *)
Lemma cover_crop_leaves_a_column (LANCZOS : resampler) (bg : color) :
  plan_cover 970 250 100 100
  = Some {| cp_scale := Flt (S754_finite false 5460614548186726 (-49));
            cp_rw := 969; cp_rh := 969; cp_box := (0, 359, 969, 609) |}
  /\ exists c,
       create_base_canvas_with_hero LANCZOS (black 100 100) 970 250 None
         0 0 970 250 lit_0_7 bg = Some c
       /\ forall y, im_px c 969 y = bg.
Proof.
  assert (plan_cover 970 250 100 100
          = Some {| cp_scale := Flt (S754_finite false 5460614548186726 (-49));
                    cp_rw := 969; cp_rh := 969; cp_box := (0, 359, 969, 609) |}) as Hp
    by (by vm_compute).
  split; [done |].
  unfold create_base_canvas_with_hero, create_base_canvas_body, cover_crop.
  change (im_w (black 100 100)) with 100. change (im_h (black 100 100)) with 100.
  rewrite Hp. eexists. split; reflexivity.
Qed.

(** On the same input the hero branch, given a hero, does resize to the
    full canvas width. *)
Lemma hero_crop_keeps_the_column :
  hp_scaled_iw <$> plan_hero 970 250 100 100 (10, 10, 90, 90) 67 17 836 216 lit_0_7
  = Some 970.
Proof. by vm_compute. Qed.

(** ** A canvas for every target *)

(** C10, at a failing input.  A 49 x 49 source into a 1 x 1 canvas
    without a hero: [1 / 49] is a double whose product with 49 lies just
    below 1, so [int(49 * scale)] is 0 and [resize((0, 0))] raises
    ValueError: no canvas comes back.  With a usable hero bbox the same
    source and target give a 1 x 1 canvas: [int(49 * final_scale)] is 0
    there too, and line 198 lifts it to the target size.  Lines 175-177
    have no such step. *)
Lemma no_canvas_for_a_one_pixel_target (LANCZOS : resampler) (bg : color) :
  plan_cover 1 1 49 49
  = Some {| cp_scale := Flt (S754_finite false 5882252574524729 (-58));
            cp_rw := 0; cp_rh := 0; cp_box := (0, 0, 0, 0) |}
  /\ create_base_canvas_with_hero LANCZOS (black 49 49) 1 1 None
       0 0 1 1 lit_0_7 bg = None
  /\ hp_scaled_iw <$> plan_hero 1 1 49 49 (0, 0, 49, 49) 0 0 1 1 lit_0_7 = Some 1
  /\ exists c,
       create_base_canvas_with_hero LANCZOS (black 49 49) 1 1 (Some (0, 0, 49, 49))
         0 0 1 1 lit_0_7 bg = Some c
       /\ im_w c = 1 /\ im_h c = 1.
Proof.
  assert (plan_cover 1 1 49 49
          = Some {| cp_scale := Flt (S754_finite false 5882252574524729 (-58));
                    cp_rw := 0; cp_rh := 0; cp_box := (0, 0, 0, 0) |}) as Hp
    by (by vm_compute).
  assert (exists p, plan_hero 1 1 49 49 (0, 0, 49, 49) 0 0 1 1 lit_0_7 = Some p
                    /\ hp_scaled_iw p = 1 /\ hp_scaled_ih p = 1) as (p & Hh & Hw1 & Hh1)
    by (eexists; split; [by vm_compute | done]).
  split; [done |]. split.
  { unfold create_base_canvas_with_hero, create_base_canvas_body, cover_crop.
    change (im_w (black 49 49)) with 49. change (im_h (black 49 49)) with 49.
    rewrite Hp. reflexivity. }
  split; [by rewrite Hh; simpl; rewrite Hw1 |].
  unfold create_base_canvas_with_hero, create_base_canvas_body, hero_crop.
  change (im_w (black 49 49)) with 49. change (im_h (black 49 49)) with 49.
  rewrite Hh. simpl. rewrite Hw1, Hh1. eexists. split; [reflexivity | by split].
Qed.

(** ** Font-size search *)

Section FontSearchFacts.

Variable measure : Z -> Z.
Variable T : Z.

Local Abbreviation miss := (miss measure T).
Local Abbreviation best_inv := (best_inv measure T).
Local Abbreviation search_post := (search_post measure T).

Lemma best_inv_probe (best_size : Z) (best_diff : option Z) (probed : list Z) (mid : Z) :
  best_inv best_size best_diff probed -> measure mid <> T ->
  (improves (miss mid) best_diff = true ->
   best_inv mid (Some (miss mid)) (probed ++ [mid]))
  /\ (improves (miss mid) best_diff = false ->
      best_inv best_size best_diff (probed ++ [mid])).
Proof.
  intros [Hno Hbest] Hmid.
  assert (forall c, c ∈ probed ++ [mid] -> measure c <> T) as Hno'.
  { intros c [Hc | ->%list_elem_of_singleton]%elem_of_app; auto. }
  split; intros Himp; (split; [done |]).
  - split; [done |]. split; [set_solver |].
    intros c [Hc | ->%list_elem_of_singleton]%elem_of_app; [| lia].
    destruct best_diff as [d |]; simpl in Himp.
    + destruct Hbest as (_ & _ & Hmin). specialize (Hmin c Hc). lia.
    + subst probed. set_solver.
  - destruct best_diff as [d |]; simpl in Himp; [| done].
    destruct Hbest as (Hd & Hin & Hmin). split; [done |]. split; [set_solver |].
    intros c [Hc | ->%list_elem_of_singleton]%elem_of_app; [auto | lia].
Qed.

Lemma search_post_probe (low high low' high' best_size best_size' : Z)
    (probed : list Z) (mid : Z) (res : Z * list Z) :
  Z.max low 1 <= mid <= high -> Z.max low 1 <= Z.max low' 1 -> high' <= high ->
  search_post low' high' best_size' (probed ++ [mid]) res ->
  search_post low high best_size probed res.
Proof.
  intros Hmid Hlow Hhigh (new & Hps & Hnew & _ & _ & Hbest & Hhit).
  rewrite <- app_assoc in Hps. simpl in Hps.
  exists (mid :: new). split; [done |].
  split.
  { intros c [-> | Hc]%elem_of_cons; [done |]. specialize (Hnew c Hc). lia. }
  split; [done |]. split; [| done].
  intros E. rewrite E in Hps. by destruct probed.
Qed.

Lemma font_search_spec (low high best_size : Z) (best_diff : option Z) (probed : list Z) :
  best_inv best_size best_diff probed ->
  search_post low high best_size probed
    (font_search measure T low high best_size best_diff probed).
Proof.
  funelim (font_search measure T low high best_size best_diff probed);
    intros Hinv; clear Heqcall.
  - (* low > high: the loop ends *)
    destruct Hinv as [Hno Hbest].
    exists []. simpl. rewrite app_nil_r. split; [done |]. split; [set_solver |].
    split; [lia |]. split; [done |]. split.
    + intros Hne. destruct best_diff as [d |]; [| done].
      destruct Hbest as (-> & Hin & Hmin). done.
    + intros c Hc Hhit. by destruct (Hno c Hc).
  - (* mid <= 0: low becomes 1 *)
    destruct (H Hinv) as (new & Hps & Hnew & Hne & Hrest).
    assert (low <= (low + high) `div` 2) by (apply Z.div_le_lower_bound; lia).
    exists new. split; [done |]. split; [| split; [| done]].
    + intros c Hc. specialize (Hnew c Hc). lia.
    + intros Hlh. apply Hne. lia.
  - (* exact hit: return mid *)
    apply Z.compare_eq in Heq.
    set (mid := (low + high) `div` 2) in *.
    destruct Hinv as [Hno Hbest].
    exists [mid]. simpl. split; [done |].
    assert (low <= mid <= high)
      by (subst mid; split;
          [apply Z.div_le_lower_bound | apply Z.div_le_upper_bound]; lia).
    split; [intros c ->%list_elem_of_singleton; lia |].
    split; [done |].
    split; [intros E; apply app_eq_nil in E as [_ E]; discriminate |].
    split.
    + intros _. split; [apply elem_of_app; right; by apply list_elem_of_singleton |].
      intros c _. unfold miss. rewrite Heq. lia.
    + intros c [Hc | ->%list_elem_of_singleton]%elem_of_app Hhit.
      * by destruct (Hno c Hc).
      * split; [done |]. by exists probed.
  - (* too small: search above mid *)
    set (mid := (low + high) `div` 2) in *.
    assert (measure mid <> T) as Hmiss
      by (intros E; rewrite E, Z.compare_refl in Heq; done).
    assert (low <= mid <= high)
      by (subst mid; split;
          [apply Z.div_le_lower_bound | apply Z.div_le_upper_bound]; lia).
    destruct (best_inv_probe _ _ _ mid Hinv Hmiss) as [Hyes Hno].
    fold (miss mid) in *.
    destruct (improves (miss mid) best_diff);
      [specialize (H (Hyes eq_refl)) | specialize (H0 (Hno eq_refl))];
      (eapply (search_post_probe low high (mid + 1) high _ _ probed mid);
       [lia | lia | lia | eassumption]).
  - (* too large: search below mid *)
    set (mid := (low + high) `div` 2) in *.
    assert (measure mid <> T) as Hmiss
      by (intros E; rewrite E, Z.compare_refl in Heq; done).
    assert (low <= mid <= high)
      by (subst mid; split;
          [apply Z.div_le_lower_bound | apply Z.div_le_upper_bound]; lia).
    destruct (best_inv_probe _ _ _ mid Hinv Hmiss) as [Hyes Hno].
    fold (miss mid) in *.
    destruct (improves (miss mid) best_diff);
      [specialize (H (Hyes eq_refl)) | specialize (H0 (Hno eq_refl))];
      (eapply (search_post_probe low high low (mid - 1) _ _ probed mid);
       [lia | lia | lia | eassumption]).
Qed.

End FontSearchFacts.

(** C5.  With the bounds 10 and 128 the search returns a size in [10, 128]
    that it probed, every probed candidate lies in [10, 128], and the
    measured height at the returned size is as close to the target
    ([max(1, target_height)]) as that of any candidate probed during the
    search.  A candidate that hits the target exactly ends the search at
    once: it is the last one probed, the one returned, and none before it
    was a hit. *)
Theorem find_font_size_for_height_best_probed (measure : Z -> Z) (target_height : Z) :
  let T := Z.max 1 target_height in
  let size := find_font_size_for_height measure target_height 10 128 in
  let probed := probed_sizes measure target_height 10 128 in
  10 <= size <= 128
  /\ size ∈ probed
  /\ (forall c, c ∈ probed -> 10 <= c <= 128)
  /\ (forall c, c ∈ probed ->
        Z.abs (measure size - T) <= Z.abs (measure c - T))
  /\ (forall c, c ∈ probed -> measure c = T ->
        size = c
        /\ exists pre, probed = pre ++ [c]
                       /\ forall c', c' ∈ pre -> measure c' <> T).
Proof.
  intros T size probed.
  assert (best_inv measure T 10 None []) as Hinv by (split; [set_solver | done]).
  destruct (font_search_spec measure T 10 128 10 None [] Hinv)
    as (new & Hps & Hnew & Hne & _ & Hbest & Hhit).
  fold T in Hps, Hbest, Hhit.
  change (font_search measure T 10 128 10 None []).1 with size in *.
  change (font_search measure T 10 128 10 None []).2 with probed in *.
  simpl in Hps. subst new. specialize (Hne ltac:(lia)).
  destruct (Hbest Hne) as [Hin Hmin].
  assert (forall c, c ∈ probed -> 10 <= c <= 128) as Hrange
    by (intros c Hc; specialize (Hnew c Hc); lia).
  split; [by apply Hrange |].
  split; [done |]. split; [done |]. split; [exact Hmin | exact Hhit].
Qed.

(** ** Text wrap round trip *)

Lemma split_on_nonempty (sep : Z) (s : str) : split_on sep s <> [].
Proof.
  destruct s as [| c s]; simpl; [done |].
  destruct (c =? sep); [done |]. by destruct (split_on sep s).
Qed.

(** Cutting at every separator distributes over a separator in the
    middle. *)
Lemma split_on_app (sep : Z) (a b : str) :
  split_on sep (a ++ sep :: b) = split_on sep a ++ split_on sep b.
Proof.
  induction a as [| c a IH]; simpl.
  - by rewrite Z.eqb_refl.
  - destruct (c =? sep); [by rewrite IH |].
    rewrite IH. pose proof (split_on_nonempty sep a).
    by destruct (split_on sep a).
Qed.

Lemma split_on_no_sep (sep : Z) (w : str) :
  sep ∉ w -> split_on sep w = [w].
Proof.
  induction w as [| c w IH]; intros Hnot; simpl; [done |].
  apply not_elem_of_cons in Hnot as [Hc Hw].
  destruct (Z.eqb_spec c sep); [congruence |]. by rewrite (IH Hw).
Qed.

Lemma is_word_no_space (w : str) : is_word w -> space ∉ w.
Proof.
  intros [_ Hw] Hin. rewrite Forall_forall in Hw. by specialize (Hw _ Hin).
Qed.

Lemma split_ws_from_words (word s : str) :
  Forall (fun c => is_whitespace c = false) word ->
  Forall is_word (split_ws_from word s).
Proof.
  revert word. induction s as [| c s IH]; intros word Hword; simpl.
  - destruct word as [| c' word']; [done |].
    apply Forall_singleton. split.
    + intros E. apply (f_equal length) in E. rewrite length_rev in E. done.
    + by apply Forall_rev.
  - destruct (is_whitespace c) eqn:Hc.
    + destruct word as [| c' word']; [by apply IH |].
      apply Forall_cons. split; [| by apply IH].
      split.
      * intros E. apply (f_equal length) in E. rewrite length_rev in E. done.
      * by apply Forall_rev.
    + apply IH. by apply Forall_cons.
Qed.

Lemma split_ws_words (s : str) : Forall is_word (split_ws s).
Proof. by apply split_ws_from_words. Qed.

Lemma words_of_lines_app (l1 l2 : list str) :
  words_of_lines (l1 ++ l2) = words_of_lines l1 ++ words_of_lines l2.
Proof. unfold words_of_lines. by rewrite fmap_app, concat_app. Qed.

Lemma words_of_lines_singleton (l : str) : words_of_lines [l] = split_on space l.
Proof. unfold words_of_lines. simpl. by rewrite app_nil_r. Qed.

Section WrapFacts.

Variable line_width : str -> num.
Variable max_w : Z.

Lemma wrap_step_words (st : list str * str) (word : str) :
  is_word word ->
  words_of_lines (flushed (wrap_step line_width max_w st word))
  = words_of_lines (flushed st) ++ [word].
Proof.
  intros Hword. pose proof (is_word_no_space _ Hword) as Hns.
  destruct Hword as [Hne _]. destruct st as [lines curr_l].
  unfold wrap_step, flushed.
  destruct curr_l as [| c curr]; simpl.
  - rewrite app_nil_r.
    destruct (py_le _ _); simpl; destruct word as [| c w]; try done;
      by rewrite ?app_nil_r, words_of_lines_app, words_of_lines_singleton,
           split_on_no_sep.
  - destruct (py_le _ _); simpl.
    + rewrite !words_of_lines_app, !words_of_lines_singleton.
      change (c :: curr ++ space :: word) with ((c :: curr) ++ space :: word).
      by rewrite split_on_app, (split_on_no_sep _ word), app_assoc.
    + destruct word as [| c' w]; [done |].
      by rewrite !words_of_lines_app, !words_of_lines_singleton,
           (split_on_no_sep _ (c' :: w)).
Qed.

Lemma wrap_loop_words (words : list str) (st : list str * str) :
  Forall is_word words ->
  words_of_lines (flushed (foldl (wrap_step line_width max_w) st words))
  = words_of_lines (flushed st) ++ words.
Proof.
  revert st. induction words as [| w ws IH]; intros st Hws; simpl.
  - by rewrite app_nil_r.
  - apply Forall_cons in Hws as [Hw Hws].
    by rewrite (IH _ Hws), wrap_step_words, <- app_assoc.
Qed.

Lemma greedy_wrap_flushed (words : list str) :
  greedy_wrap line_width max_w words
  = flushed (foldl (wrap_step line_width max_w) ([], []) words).
Proof.
  unfold greedy_wrap, flushed.
  destruct (foldl _ _ words) as [lines curr_l]. simpl.
  destruct curr_l; [by rewrite app_nil_r | done].
Qed.

(** The greedy wrap keeps the word sequence. *)
Lemma greedy_wrap_words (words : list str) :
  Forall is_word words ->
  words_of_lines (greedy_wrap line_width max_w words) = words.
Proof. intros H. by rewrite greedy_wrap_flushed, wrap_loop_words. Qed.

(** C6.  Unless the hard-truncation fallback fires, the wrap returns lines
    which, split on single spaces and concatenated in order, are exactly
    the whitespace-split words of the text: none dropped, duplicated or
    reordered.  This holds for every width function and maximum width. *)
Theorem wrap_round_trip (font_sz : Z) (content_item : str) :
  fallback_fires line_width max_w content_item = false ->
  exists lines,
    wrap_text line_width max_w font_sz content_item = Some lines
    /\ words_of_lines lines = split_ws content_item.
Proof.
  intros Hfb. unfold wrap_text. rewrite Hfb.
  eexists. split; [done |]. apply greedy_wrap_words, split_ws_words.
Qed.

(** The fallback fires exactly on a non-empty text without any word, that
    is, made of whitespace only: a single word, however wide, always ends
    up in a line of its own. *)
Lemma fallback_fires_iff (content_item : str) :
  fallback_fires line_width max_w content_item = true
  <-> content_item <> [] /\ split_ws content_item = [].
Proof.
  unfold fallback_fires.
  rewrite andb_true_iff, negb_true_iff, bool_decide_eq_true, bool_decide_eq_false.
  split; intros [H1 H2].
  - split; [done |].
    rewrite <- (greedy_wrap_words (split_ws content_item)) by apply split_ws_words.
    by rewrite H1.
  - split; [| done]. by rewrite H2.
Qed.

(** When it fires the round trip is lost: the one emitted line splits into
    at least one piece, and the text has no word. *)
Lemma fallback_breaks_round_trip (font_sz : Z) (content_item : str) (lines : list str) :
  fallback_fires line_width max_w content_item = true ->
  wrap_text line_width max_w font_sz content_item = Some lines ->
  words_of_lines lines <> split_ws content_item.
Proof.
  intros Hfb. unfold wrap_text. rewrite Hfb.
  apply fallback_fires_iff in Hfb as [_ Hnil]. rewrite Hnil.
  destruct (py_int _) as [k |]; [| done]. simpl. intros [= <-].
  change (greedy_wrap line_width max_w []) with (@nil str). simpl.
  rewrite words_of_lines_singleton. apply split_on_nonempty.
Qed.

End WrapFacts.

Lemma wrap_round_trip_witness :
  exists lines,
    wrap_text (fun l => Int (10 * Z.of_nat (length l))) 100 20
      (of_string "  Spring   Collection now on sale ") = Some lines
    /\ words_of_lines lines = split_ws (of_string "  Spring   Collection now on sale ").
Proof. apply wrap_round_trip. by vm_compute. Defined.

Local Open Scope string_scope.
Local Open Scope list_scope.

(** ** Stacking order *)

(** The groups of a format hold the shown elements in the order logo,
    copy, cta: a group is one of seven lists. *)
Lemma group_shapes (b1 b2 b3 : bool) (k1 k2 k3 key : string) (group : list element) :
  (key, group) ∈ pos_groups
    ((if b1 then [(logo, k1)] else []) ++ (if b2 then [(copy, k2)] else [])
     ++ (if b3 then [(cta, k3)] else [])) ->
  group ∈ [[logo]; [copy]; [cta]; [logo; copy]; [logo; cta]; [copy; cta];
           [logo; copy; cta]].
Proof.
  destruct b1, b2, b3; unfold pos_groups; simpl;
    repeat (case_bool_decide; simpl); intros Hin;
    repeat (apply elem_of_cons in Hin as [[= _ ->] | Hin]; [set_solver |]);
    by apply elem_of_nil in Hin.
Qed.

Lemma group_of_format (req : GenerateRequest) (fmt : FormatItem)
    (key : string) (group : list element) :
  (key, group) ∈ pos_groups (elements_for req fmt) ->
  group ∈ [[logo]; [copy]; [cta]; [logo; copy]; [logo; cta]; [copy; cta];
           [logo; copy; cta]].
Proof. apply group_shapes. Qed.

(** Away from ["bottom_center"] the key plays no part in the order. *)
Lemma render_elsewhere (key : string) (group : list element) :
  key <> "bottom_center" ->
  el_render_details_sorted key group = el_render_details_sorted "" group.
Proof.
  intros Hne. unfold el_render_details_sorted, stacking_order.
  by rewrite (bool_decide_eq_false_2 _ Hne).
Qed.

Lemma copy_above_cta (key : string) (group : list element) :
  group = [copy; cta] \/ group = [logo; copy; cta] ->
  exists above between below,
    el_render_details_sorted key group = above ++ copy :: between ++ cta :: below.
Proof.
  intros Hg. destruct (decide (key = "bottom_center")) as [-> | Hne].
  - destruct Hg as [-> | ->]; [by exists [], [], [] | by exists [logo], [], []].
  - rewrite (render_elsewhere _ _ Hne).
    destruct Hg as [-> | ->]; [by exists [], [], [] | by exists [logo], [], []].
Qed.

(** C7.  In every group of pass 2 the members are drawn, top to bottom, in
    the order logo, copy, cta; except that a group of exactly two members
    at the key ["bottom_center"] is drawn in the order copy, cta, logo.
    Whenever copy and cta share a group, copy is drawn above cta. *)
Theorem stacking_order_rule (req : GenerateRequest) (fmt : FormatItem)
    (key : string) (group : list element) :
  (key, group) ∈ pos_groups (elements_for req fmt) ->
  el_render_details_sorted key group
  = (if bool_decide (key = "bottom_center" /\ length group = 2%nat)
     then in_order [copy; cta; logo] group
     else in_order [logo; copy; cta] group)
  /\ (copy ∈ group -> cta ∈ group ->
      exists above between below,
        el_render_details_sorted key group
        = above ++ copy :: between ++ cta :: below).
Proof.
  intros Hg. apply group_of_format in Hg. split.
  - destruct (decide (key = "bottom_center")) as [-> | Hne].
    + repeat (apply elem_of_cons in Hg as [-> | Hg]; [by vm_compute |]).
      by apply elem_of_nil in Hg.
    + rewrite (render_elsewhere _ _ Hne).
      rewrite (bool_decide_eq_false_2 (key = "bottom_center" /\ _)) by tauto.
      repeat (apply elem_of_cons in Hg as [-> | Hg]; [by vm_compute |]).
      by apply elem_of_nil in Hg.
  - intros Hc Ht. apply copy_above_cta.
    apply (bool_decide_eq_true_2 _) in Hc. apply (bool_decide_eq_true_2 _) in Ht.
    repeat (apply elem_of_cons in Hg as [-> | Hg];
            [first [by left | by right | by vm_compute in Hc | by vm_compute in Ht] |]).
    by apply elem_of_nil in Hg.
Qed.

Lemma stacking_order_rule_witness :
  el_render_details_sorted "bottom_center" [logo; cta] = [cta; logo].
Proof.
  assert (("bottom_center", [logo; cta])
          ∈ pos_groups (elements_for
                          (sample_request "bottom_center" "top_left" "bottom_center")
                          fb_feed)) as Hin.
  { refine (bool_decide_unpack _ _). vm_compute. exact I. }
  rewrite (proj1 (stacking_order_rule _ _ _ _ Hin)). reflexivity.
Defined.

(** The offsets [current_y_offset] at which the members are drawn follow
    the drawing order and never decrease when heights and gaps are not
    negative (every gap is a [max(3, ...)]). *)
Lemma y_offsets_order (gap : element -> element -> Z) (el_h : element -> Z)
    (y : Z) (els : list element) :
  (y_offsets gap el_h y els).*1 = els.
Proof.
  revert y. induction els as [| el rest IH]; intros y; simpl; [done |].
  by rewrite IH.
Qed.

Lemma y_offsets_from (gap : element -> element -> Z) (el_h : element -> Z)
    (y : Z) (els : list element) :
  (forall a b, 0 <= gap a b) -> (forall a, 0 <= el_h a) ->
  Forall (fun p => y <= p.2) (y_offsets gap el_h y els).
Proof.
  intros Hgap Hh. revert y. induction els as [| el rest IH]; intros y; simpl; [done |].
  apply Forall_cons. split; [simpl; lia |].
  eapply Forall_impl; [apply IH |]. intros [a ya] Hya. simpl in *.
  specialize (Hh el). destruct rest as [| next rest']; [lia |].
  specialize (Hgap el next). lia.
Qed.

Lemma y_offsets_top_to_bottom (gap : element -> element -> Z) (el_h : element -> Z)
    (y : Z) (els above below : list element) (a b : element) (ya yb : Z) :
  (forall a b, 0 <= gap a b) -> (forall a, 0 <= el_h a) ->
  y_offsets gap el_h y els !! length above = Some (a, ya) ->
  y_offsets gap el_h y els !! (length above + S (length below))%nat = Some (b, yb) ->
  ya + el_h a <= yb.
Proof.
  intros Hgap Hh. revert y els. induction above as [| x above IH]; intros y els.
  - destruct els as [| el rest]; simpl; [done |]. intros [= -> ->] Hb.
    pose proof (y_offsets_from gap el_h
                  (ya + el_h a + match rest with next :: _ => gap a next | [] => 0 end)
                  rest Hgap Hh) as Hall.
    rewrite Forall_forall in Hall.
    apply list_elem_of_lookup_2 in Hb. specialize (Hall _ Hb). simpl in Hall.
    destruct rest as [| next rest']; [lia |]. specialize (Hgap a next). lia.
  - destruct els as [| el rest]; simpl; [done |]. apply IH.
Qed.

(** ** Position keys and the legacy alias *)

(** C8, at a failing input.  A request whose logo, copy and CTA position
    keys are all the alias ["let_ai_choose"], at a landscape format: copy
    and CTA are keyed ["bottom_center"] (lines 372 and 374 replace the
    alias), the logo keeps the alias as its key (line 370 has no such
    test).  So the logo is grouped apart from copy and CTA, reserves no
    edge where ["bottom_center"] reserves the bottom one, and is anchored
    at the origin of its zone, whatever its size. *)
Lemma logo_alias_is_not_resolved (el_w el_h zone_x zone_y zone_w zone_h : Z) :
  let req := sample_request "let_ai_choose" "let_ai_choose" "let_ai_choose" in
  let o := orientation (width fb_feed) (height fb_feed) in
  (selected_logo_key req o = "let_ai_choose"
   /\ selected_copy_key req o = "let_ai_choose"
   /\ selected_cta_key req o = "let_ai_choose")
  /\ copy_pos_key req o = "bottom_center"
  /\ cta_pos_key req o = "bottom_center"
  /\ logo_pos_key req o = "let_ai_choose"
  /\ pos_groups (elements_for req fb_feed)
     = [("let_ai_choose", [logo]); ("bottom_center", [copy; cta])]
  /\ get_edges_for_pos_key "let_ai_choose" = ∅
  /\ get_edges_for_pos_key "bottom_center" = {["bottom"]}
  /\ get_element_position "let_ai_choose" el_w el_h zone_x zone_y zone_w zone_h
     = (zone_x, zone_y).
Proof. repeat split; by vm_compute. Qed.

(** The same for every request and format.  For copy and for CTA the
    alias ["let_ai_choose"] is replaced by ["bottom_center"], and that key
    is the one the element carries into grouping (and from there into edge
    reservation and anchoring); the logo carries its selected key, the
    alias included, unchanged. *)
Lemma alias_resolution (req : GenerateRequest) (fmt : FormatItem) :
  let o := orientation (width fmt) (height fmt) in
  (selected_copy_key req o = "let_ai_choose" ->
   copy_pos_key req o = "bottom_center"
   /\ (show_copy_for_format req (id fmt) = true ->
       (copy, "bottom_center") ∈ elements_for req fmt))
  /\ (selected_cta_key req o = "let_ai_choose" ->
      cta_pos_key req o = "bottom_center"
      /\ (show_cta_for_format req (id fmt) = true ->
          (cta, "bottom_center") ∈ elements_for req fmt))
  /\ logo_pos_key req o = selected_logo_key req o
  /\ (show_logo_for_format req (id fmt) = true ->
      (logo, selected_logo_key req o) ∈ elements_for req fmt).
Proof.
  intros o. unfold elements_for. fold o.
  assert (forall k, k = "let_ai_choose" ->
            (if bool_decide (k = "let_ai_choose") then "bottom_center" else k)
            = "bottom_center") as Hres
    by (intros k ->; reflexivity).
  repeat split.
  - unfold copy_pos_key. by apply Hres.
  - intros ->. unfold copy_pos_key. rewrite (Hres _ H). set_solver.
  - unfold cta_pos_key. by apply Hres.
  - intros ->. unfold cta_pos_key. rewrite (Hres _ H). set_solver.
  - intros ->. unfold logo_pos_key. set_solver.
Qed.

(** ** Safe area *)

(** The literals of the override are the doubles nearest to the decimals
    written in the source, and [int()] truncates them. *)
Lemma override_literals :
  lit_127_34 = int_truediv 12734 100 /\ lit_254_56 = int_truediv 25456 100
  /\ lit_1182_1 = int_truediv 11821 10 /\ lit_2072_43 = int_truediv 207243 100
  /\ lit_0_07 = int_truediv 7 100
  /\ py_int (Flt lit_127_34) = Some 127 /\ py_int (Flt lit_254_56) = Some 254
  /\ py_int (Flt lit_1182_1) = Some 1182 /\ py_int (Flt lit_2072_43) = Some 2072.
Proof. repeat split; by vm_compute. Qed.

(** C9.  At exactly 1440 x 2560 the safe rectangle is the truncated
    literal override (127, 254, 1182, 2072); at any other size it is
    [x = int(0.07 * width)], [y = int(0.07 * height)], [w = width - 2x],
    [h = height - 2y]. *)
Theorem safe_area_rule (tw th : Z) :
  safe_area tw th
  = if bool_decide ((tw, th) = (1440, 2560))
    then Some (127, 254, 1182, 2072)
    else x ← py_int (py_mul (Int tw) (Flt lit_0_07));
         y ← py_int (py_mul (Int th) (Flt lit_0_07));
         Some (x, y, tw - 2 * x, th - 2 * y).
Proof.
  unfold safe_area. case_bool_decide as Hsz.
  - injection Hsz as -> ->. by vm_compute.
  - destruct (Z.eqb_spec tw 1440) as [-> |]; [| done].
    destruct (Z.eqb_spec th 2560) as [-> |]; done.
Qed.

(** The 7% formula would give something else at 1440 x 2560. *)
Lemma override_is_not_the_margin_formula :
  (x ← py_int (py_mul (Int 1440) (Flt lit_0_07));
   y ← py_int (py_mul (Int 2560) (Flt lit_0_07));
   Some (x, y, 1440 - 2 * x, 2560 - 2 * y))
  = Some (100, 179, 1240, 2202).
Proof. by vm_compute. Qed.

Lemma margin_exact_upto : forallb margin_matches (seqZ 0 8193) = true.
Proof. by vm_compute. Qed.

(** For every side up to 8192 pixels the double product truncates to the
    exact 7%: [int(w * 0.07) = floor(7 * w / 100)]. *)
Lemma margin_is_seven_percent (w : Z) :
  0 <= w <= 8192 ->
  py_int (py_mul (Int w) (Flt lit_0_07)) = Some ((7 * w) `div` 100).
Proof.
  intros Hw. pose proof margin_exact_upto as H.
  rewrite forallb_forall in H. specialize (H w).
  unfold margin_matches in H.
  destruct (py_int _) as [m |].
  - f_equal. apply Z.eqb_eq, H, list_elem_of_In, elem_of_seqZ. lia.
  - discriminate H. apply list_elem_of_In, elem_of_seqZ. lia.
Qed.

Lemma safe_area_seven_percent (tw th : Z) :
  0 <= tw <= 8192 -> 0 <= th <= 8192 -> (tw, th) <> (1440, 2560) ->
  safe_area tw th
  = Some ((7 * tw) `div` 100, (7 * th) `div` 100,
          tw - 2 * ((7 * tw) `div` 100), th - 2 * ((7 * th) `div` 100)).
Proof.
  intros Hw Hh Hne. unfold safe_area.
  assert (((tw =? 1440) && (th =? 2560))%Z = false) as ->.
  { destruct (Z.eqb_spec tw 1440) as [-> |]; [| done].
    destruct (Z.eqb_spec th 2560) as [-> |]; done. }
  cbn zeta. by rewrite !margin_is_seven_percent.
Qed.

(** * More properties of the code *)

Local Close Scope string_scope.
Local Open Scope Z_scope.

(** ** Position keys: reserved edges and anchoring *)

Local Open Scope string_scope.

(** X1.  The edges a position key reserves are exactly those of top,
    bottom, left and right whose name occurs in the key.  The two tests
    for the centred keys (lines 274-275) never add an edge of their own. *)
Theorem get_edges_are_the_keywords (pos_key e : string) :
  e ∈ get_edges_for_pos_key pos_key <->
  (e = "top" \/ e = "bottom" \/ e = "left" \/ e = "right") /\ str_in e pos_key = true.
Proof.
  unfold get_edges_for_pos_key. split.
  - rewrite !elem_of_union. intros [[[[[H | H] | H] | H] | H] | H].
    + destruct (str_in "top" pos_key) eqn:E; [| set_solver].
      apply elem_of_singleton in H as ->. auto.
    + destruct (str_in "bottom" pos_key) eqn:E; [| set_solver].
      apply elem_of_singleton in H as ->. auto.
    + destruct (str_in "left" pos_key) eqn:E; [| set_solver].
      apply elem_of_singleton in H as ->. auto 6.
    + destruct (str_in "right" pos_key) eqn:E; [| set_solver].
      apply elem_of_singleton in H as ->. auto 6.
    + destruct (bool_decide (pos_key = "top_center") || bool_decide (pos_key = "bottom_center"))
        eqn:E; [| set_solver].
      apply orb_true_iff in E as [E | E]; apply bool_decide_eq_true in E; subst pos_key;
        apply elem_of_singleton in H as ->; auto.
    + destruct (bool_decide (pos_key = "left_middle") || bool_decide (pos_key = "right_middle"))
        eqn:E; [| set_solver].
      apply orb_true_iff in E as [E | E]; apply bool_decide_eq_true in E; subst pos_key;
        apply elem_of_singleton in H as ->; auto 6.
  - intros [[-> | [-> | [-> | ->]]] H]; rewrite H; set_solver.
Qed.

Local Close Scope string_scope.

(** An element no larger than the zone is anchored inside it. *)
Lemma element_in_zone_of_fit (pos_key : string)
    (el_w el_h zone_x zone_y zone_w zone_h : Z) :
  el_w <= zone_w -> el_h <= zone_h ->
  let '(px, py) := get_element_position pos_key el_w el_h zone_x zone_y zone_w zone_h in
  zone_x <= px /\ px + el_w <= zone_x + zone_w
  /\ zone_y <= py /\ py + el_h <= zone_y + zone_h.
Proof.
  intros Hw Hh. unfold get_element_position.
  assert (forall a : Z, 0 <= a -> 0 <= a `div` 2 <= a) as Hhalf.
  { intros a Ha. split; [apply Z.div_pos; lia | apply Z.div_le_upper_bound; lia]. }
  specialize (Hhalf (zone_w - el_w) ltac:(lia)) as Hx.
  specialize (Hhalf (zone_h - el_h) ltac:(lia)) as Hy.
  destruct (str_in "left" pos_key), (str_in "right" pos_key), (str_in "center" pos_key),
    (str_in "top" pos_key), (str_in "bottom" pos_key), (str_in "middle" pos_key); lia.
Qed.

(** X2.  On each axis the anchored element lies within the zone exactly
    when it is no larger than the zone, whatever the key: a key without a
    keyword anchors at the zone origin, and centring rounds towards the
    origin. *)
Theorem element_in_zone_iff_fits (pos_key : string)
    (el_w el_h zone_x zone_y zone_w zone_h : Z) :
  let '(px, py) := get_element_position pos_key el_w el_h zone_x zone_y zone_w zone_h in
  (zone_x <= px /\ px + el_w <= zone_x + zone_w <-> el_w <= zone_w)
  /\ (zone_y <= py /\ py + el_h <= zone_y + zone_h <-> el_h <= zone_h).
Proof.
  unfold get_element_position.
  assert (forall a : Z, 0 <= a -> 0 <= a `div` 2 <= a) as Hhalf.
  { intros a Ha. split; [apply Z.div_pos; lia | apply Z.div_le_upper_bound; lia]. }
  split.
  - destruct (str_in "left" pos_key); [lia |].
    destruct (str_in "right" pos_key); [lia |].
    destruct (str_in "center" pos_key); [| lia].
    split; [lia |]. intros H. specialize (Hhalf (zone_w - el_w) ltac:(lia)). lia.
  - destruct (str_in "top" pos_key); [lia |].
    destruct (str_in "bottom" pos_key); [lia |].
    destruct (str_in "middle" pos_key); [| lia].
    split; [lia |]. intros H. specialize (Hhalf (zone_h - el_h) ltac:(lia)). lia.
Qed.

(** ** What the compositor draws *)

Lemma binary_round_aux_sign (s : bool) (mx ex : Z) (lx : location) :
  is_negative (binary_round_aux prec emax s mx ex lx) = s
  \/ binary_round_aux prec emax s mx ex lx = S754_nan.
Proof.
  unfold binary_round_aux.
  destruct (shr_fexp prec emax mx ex lx) as [mrs1 e1].
  destruct (shr_fexp prec emax _ e1 loc_Exact) as [mrs2 e2].
  destruct (shr_m mrs2); [by left | | by right].
  destruct (e2 <=? emax - prec); by left.
Qed.

Lemma trunc_nonneg (x : float) (n : Z) :
  is_negative x = false -> trunc x = Some n -> 0 <= n.
Proof.
  destruct x as [s | s | | s m e]; simpl; try done.
  - intros _ [= <-]. lia.
  - intros -> [= <-]. destruct e as [| q | q]; [lia | |].
    + pose proof (pow2_pos (Z.pos q) ltac:(lia)). nia.
    + apply Z.div_pos; [lia |]. apply pow2_pos. lia.
Qed.

Lemma int_truediv_sign (a b : Z) :
  0 <= a -> 0 < b -> is_negative (int_truediv a b) = false.
Proof.
  intros Ha Hb. pose proof (int_truediv_not_nan a b ltac:(lia)) as Hn.
  unfold int_truediv in *.
  destruct a as [| a | a], b as [| b | b]; try lia; try done.
  simpl (xorb _ _) in *.
  destruct (SFdiv_core_binary prec emax (Z.abs (Z.pos a)) 0 (Z.abs (Z.pos b)) 0)
    as [[mz ez] lz].
  by destruct (binary_round_aux_sign false mz ez lz).
Qed.

Lemma of_int_sign (z : Z) : 0 <= z -> is_negative (of_int z) = false.
Proof.
  intros Hz. destruct z as [| p | p]; [done | | lia].
  unfold of_int, binary_normalize, binary_round.
  destruct (shl_align p 0 _) as [mz ez].
  pose proof (binary_round_aux_not_nan false (Z.pos mz) ez loc_Exact ltac:(lia)).
  by destruct (binary_round_aux_sign false (Z.pos mz) ez loc_Exact).
Qed.

Lemma fmul_sign (x y : float) (n : Z) :
  is_negative x = false -> is_negative y = false ->
  trunc (fmul x y) = Some n -> 0 <= n.
Proof.
  intros Hx Hy. destruct x as [sx | sx | | sx mx ex], y as [sy | sy | | sy my ey];
    simpl in *; subst; try done; try (intros [= <-]; lia).
  apply trunc_nonneg.
  pose proof (binary_round_aux_not_nan false (Z.pos (mx * my)) (ex + ey) loc_Exact
                ltac:(lia)).
  by destruct (binary_round_aux_sign false (Z.pos (mx * my)) (ex + ey) loc_Exact).
Qed.

(** The sizes of the no-hero branch are not negative for a target that is
    not. *)
Lemma plan_cover_nonneg (tw th iw ih : Z) (p : cover_plan) :
  0 <= tw -> 0 <= th -> 0 < iw -> 0 < ih ->
  plan_cover tw th iw ih = Some p -> 0 <= cp_rw p /\ 0 <= cp_rh p.
Proof.
  intros Htw Hth Hiw Hih Hp.
  apply plan_cover_fields in Hp as (Hs & Hw & Hh & _).
  rewrite Hs, cover_scale_positive_size in Hw, Hh by done.
  assert (exists x, py_max (py_truediv (Int tw) (Int iw)) (py_truediv (Int th) (Int ih))
                    = Flt x /\ is_negative x = false) as (x & E & Hx).
  { destruct (py_max_cases (py_truediv (Int tw) (Int iw)) (py_truediv (Int th) (Int ih)))
      as [[_ ->] | [_ ->]]; eexists; (split; [reflexivity |]); by apply int_truediv_sign. }
  rewrite E in Hw, Hh. simpl in Hw, Hh.
  split.
  - apply (fmul_sign (of_int iw) x); [apply of_int_sign; lia | done | done].
  - apply (fmul_sign (of_int ih) x); [apply of_int_sign; lia | done | done].
Qed.

Section CanvasPixels.

Variable LANCZOS : resampler.


End CanvasPixels.


(** *** Rounding above an integer bound *)







Section HeroPixels.

Variable LANCZOS : resampler.


End HeroPixels.


(** ** The lines of the greedy wrap *)

Section WrapLines.

Variable line_width : str -> num.
Variable max_w : Z.

Local Abbreviation fits := (fun l : str => py_le (line_width l) (Int max_w) = true).

Lemma wrap_step_fits (words : list str) (st : list str * str) (word : str) :
  word ∈ words ->
  Forall (fun l => fits l \/ l ∈ words) (flushed st) ->
  Forall (fun l => fits l \/ l ∈ words) (flushed (wrap_step line_width max_w st word)).
Proof.
  intros Hw. destruct st as [lines curr_l]. unfold wrap_step, flushed. simpl.
  intros Hst. apply Forall_app in Hst as [Hlines Hcurr].
  destruct (py_le (line_width (curr_l ++ _ ++ word)) (Int max_w)) eqn:E; simpl.
  - apply Forall_app. split; [done |].
    destruct (curr_l ++ _ ++ word); [constructor |].
    apply Forall_singleton. by left.
  - apply Forall_app. split.
    + destruct curr_l; [done |]. apply Forall_app. by split.
    + destruct word; [constructor |]. apply Forall_singleton. by right.
Qed.

Lemma wrap_loop_fits (words ws : list str) (st : list str * str) :
  ws ⊆ words ->
  Forall (fun l => fits l \/ l ∈ words) (flushed st) ->
  Forall (fun l => fits l \/ l ∈ words)
    (flushed (foldl (wrap_step line_width max_w) st ws)).
Proof.
  revert st. induction ws as [| w ws IH]; intros st Hsub Hst; simpl; [done |].
  apply IH; [set_solver |]. apply wrap_step_fits; [set_solver | done].
Qed.

(** X5.  A line of the greedy wrap is wider than the maximum only if it is
    a single word of the text: every line either fits or is one word. *)
Theorem wrap_overflow_is_single_word (words : list str) :
  Forall (fun l => py_le (line_width l) (Int max_w) = true \/ l ∈ words)
    (greedy_wrap line_width max_w words).
Proof. rewrite greedy_wrap_flushed. by apply wrap_loop_fits. Qed.

Lemma wrap_step_count (st : list str * str) (word : str) :
  word <> [] ->
  Forall (fun l => l <> []) st.1 ->
  Forall (fun l => l <> []) (wrap_step line_width max_w st word).1
  /\ (wrap_step line_width max_w st word).2 <> []
  /\ (length (flushed (wrap_step line_width max_w st word)) <= S (length (flushed st)))%nat.
Proof.
  intros Hw. destruct st as [lines curr_l]. unfold wrap_step, flushed. simpl.
  intros Hlines.
  destruct (py_le (line_width (curr_l ++ _ ++ word)) (Int max_w)); simpl.
  - split; [done |]. split.
    + destruct curr_l, word; done.
    + rewrite !length_app. destruct curr_l, word; simpl; try done; lia.
  - split; [| split; [done |]].
    + destruct curr_l; [done |]. apply Forall_app. split; [done |].
      by apply Forall_singleton.
    + destruct word; [done |]. destruct curr_l; rewrite !length_app; simpl; lia.
Qed.

Lemma wrap_loop_count (ws : list str) (st : list str * str) :
  Forall (fun w => w <> []) ws ->
  Forall (fun l => l <> []) st.1 ->
  let st' := foldl (wrap_step line_width max_w) st ws in
  Forall (fun l => l <> []) st'.1
  /\ (ws <> [] -> st'.2 <> [])
  /\ (length (flushed st') <= length (flushed st) + length ws)%nat.
Proof.
  revert st. induction ws as [| w ws IH]; intros st Hws Hst; simpl.
  - split; [done |]. split; [done | lia].
  - apply Forall_cons in Hws as [Hw Hws].
    destruct (wrap_step_count st w Hw Hst) as (H1 & H2 & H3).
    destruct (IH _ Hws H1) as (H4 & H5 & H6). cbn zeta in H4, H5, H6.
    split; [done |]. split; [| lia].
    intros _. destruct ws as [| w' ws']; [done |]. by apply H5.
Qed.

(** X6.  The greedy wrap of the words of a text never emits an empty
    line, emits at most one line per word, and emits no line at all only
    when the text has no word. *)
Theorem wrap_lines_nonempty (content_item : str) :
  let words := split_ws content_item in
  let lines := greedy_wrap line_width max_w words in
  Forall (fun l => l <> []) lines
  /\ (length lines <= length words)%nat
  /\ (lines = [] <-> words = []).
Proof.
  intros words lines. subst lines. rewrite greedy_wrap_flushed.
  assert (Forall (fun w : str => w <> []) words) as Hws.
  { eapply Forall_impl; [apply split_ws_words |]. by intros w [? _]. }
  destruct (wrap_loop_count words ([], []) Hws ltac:(done)) as (H1 & H2 & H3).
  cbn zeta in H1, H2, H3.
  destruct (foldl _ _ words) as [ls curr] eqn:E. unfold flushed in *. simpl in *.
  split; [| split; [lia |]].
  - apply Forall_app. split; [done |]. destruct curr; [done |]. by apply Forall_singleton.
  - split.
    + intros Hnil. destruct words as [| w ws]; [done |].
      apply app_eq_nil in Hnil as [_ Hc]. specialize (H2 ltac:(done)). by destruct curr.
    + intros Hnil. rewrite Hnil in E. simpl in E. by injection E as <- <-.
Qed.

End WrapLines.

(** ** More on the font-size search *)

Section FontSearchMonotone.

Variable measure : Z -> Z.
Variable T : Z.
Variables lo hi : Z.
Hypothesis measure_mono : forall a b, lo <= a <= b /\ b <= hi -> measure a <= measure b.

Local Abbreviation dist := (miss measure T).

(** With a metric that does not decrease with the size, the sizes left of
    the bracket are too small, those right of it too large, and the best
    size so far is at least as good as every size outside the bracket. *)
Lemma font_search_monotone (low high best_size : Z) (best_diff : option Z)
    (probed : list Z) :
  lo <= low -> high <= hi -> 1 <= low -> lo <= hi ->
  (forall c, lo <= c < low -> measure c < T) ->
  (forall c, high < c <= hi -> T < measure c) ->
  match best_diff with
  | None => low = lo /\ high = hi
  | Some d => d = dist best_size /\ lo <= best_size <= hi
              /\ forall c, lo <= c < low \/ high < c <= hi -> d <= dist c
  end ->
  let r := (font_search measure T low high best_size best_diff probed).1 in
  lo <= r <= hi /\ forall c, lo <= c <= hi -> dist r <= dist c.
Proof.
  funelim (font_search measure T low high best_size best_diff probed);
    intros Hlo Hhi H1 Hlh Hleft Hright Hbest; clear Heqcall; cbn zeta.
  - (* low > high: the loop ends *)
    simpl. destruct best_diff as [d |]; [| lia].
    destruct Hbest as (-> & Hin & Hmin). split; [done |].
    intros c Hc. apply Hmin. lia.
  - (* mid <= 0 does not happen from low >= 1 *)
    assert (low <= (low + high) `div` 2) by (apply Z.div_le_lower_bound; lia). lia.
  - (* exact hit *)
    apply Z.compare_eq in Heq. simpl.
    assert (low <= (low + high) `div` 2 <= high)
      by (split; [apply Z.div_le_lower_bound | apply Z.div_le_upper_bound]; lia).
    split; [lia |]. intros c _. unfold miss. rewrite Heq. lia.
  - (* too small: everything up to mid is too small *)
    set (mid := (low + high) `div` 2) in *.
    change (measure mid < T) in Heq.
    assert (low <= mid <= high)
      by (subst mid; split;
          [apply Z.div_le_lower_bound | apply Z.div_le_upper_bound]; lia).
    assert (forall c, lo <= c < mid + 1 -> measure c < T) as Hleft'.
    { intros c Hc. destruct (Z_lt_le_dec c low) as [? | ?]; [apply Hleft; lia |].
      pose proof (measure_mono c mid ltac:(lia)). lia. }
    assert (forall c, low <= c < mid + 1 -> dist mid <= dist c) as Hmid.
    { intros c Hc. pose proof (measure_mono c mid ltac:(lia)).
      unfold miss. lia. }
    fold (dist mid) in *.
    destruct (improves (dist mid) best_diff) eqn:Himp.
    + apply H; try done; try lia.
      split; [done |]. split; [lia |]. intros c Hc.
      destruct best_diff as [d |]; simpl in Himp.
      * destruct Hbest as (_ & _ & Hmin). apply Z.ltb_lt in Himp.
        destruct (Z_lt_le_dec c low) as [? | ?]; [specialize (Hmin c ltac:(lia)); lia |].
        destruct (Z_lt_le_dec c (mid + 1)) as [? | ?]; [apply Hmid; lia |].
        specialize (Hmin c ltac:(lia)). lia.
      * destruct Hbest as [-> ->]. apply Hmid. lia.
    + apply H0; try done; try lia.
      destruct best_diff as [d |]; simpl in Himp; [| done].
      destruct Hbest as (Hd & Hin & Hmin). apply Z.ltb_ge in Himp.
      split; [done |]. split; [done |]. intros c Hc.
      destruct (Z_lt_le_dec c low) as [? | ?]; [apply Hmin; lia |].
      destruct (Z_lt_le_dec c (mid + 1)) as [? | ?];
        [specialize (Hmid c ltac:(lia)); lia | apply Hmin; lia].
  - (* too large: everything from mid on is too large *)
    set (mid := (low + high) `div` 2) in *.
    change (measure mid > T) in Heq.
    assert (low <= mid <= high)
      by (subst mid; split;
          [apply Z.div_le_lower_bound | apply Z.div_le_upper_bound]; lia).
    assert (forall c, mid - 1 < c <= hi -> T < measure c) as Hright'.
    { intros c Hc. destruct (Z_lt_le_dec high c) as [? | ?]; [apply Hright; lia |].
      pose proof (measure_mono mid c ltac:(lia)). lia. }
    assert (forall c, mid - 1 < c <= high -> dist mid <= dist c) as Hmid.
    { intros c Hc. pose proof (measure_mono mid c ltac:(lia)).
      unfold miss. lia. }
    fold (dist mid) in *.
    destruct (improves (dist mid) best_diff) eqn:Himp.
    + apply H; try done; try lia.
      split; [done |]. split; [lia |]. intros c Hc.
      destruct best_diff as [d |]; simpl in Himp.
      * destruct Hbest as (_ & _ & Hmin). apply Z.ltb_lt in Himp.
        destruct (Z_lt_le_dec high c) as [? | ?]; [specialize (Hmin c ltac:(lia)); lia |].
        destruct (Z_lt_le_dec (mid - 1) c) as [? | ?]; [apply Hmid; lia |].
        specialize (Hmin c ltac:(lia)). lia.
      * destruct Hbest as [-> ->]. apply Hmid. lia.
    + apply H0; try done; try lia.
      destruct best_diff as [d |]; simpl in Himp; [| done].
      destruct Hbest as (Hd & Hin & Hmin). apply Z.ltb_ge in Himp.
      split; [done |]. split; [done |]. intros c Hc.
      destruct (Z_lt_le_dec high c) as [? | ?]; [apply Hmin; lia |].
      destruct (Z_lt_le_dec (mid - 1) c) as [? | ?];
        [specialize (Hmid c ltac:(lia)); lia | apply Hmin; lia].
Qed.

End FontSearchMonotone.

(** X7.  When the measured height does not decrease with the font size,
    the size returned is a best one of the whole range, not only among the
    sizes probed: no size between the bounds comes closer to the target. *)
Theorem find_font_size_optimal_for_monotone_metric (measure : Z -> Z)
    (target_height min_size max_size : Z) :
  1 <= min_size <= max_size ->
  (forall a b, min_size <= a <= b /\ b <= max_size -> measure a <= measure b) ->
  let T := Z.max 1 target_height in
  let size := find_font_size_for_height measure target_height min_size max_size in
  min_size <= size <= max_size
  /\ forall c, min_size <= c <= max_size ->
       Z.abs (measure size - T) <= Z.abs (measure c - T).
Proof.
  intros Hb Hmono T size.
  apply (font_search_monotone measure T min_size max_size Hmono
           min_size max_size min_size None []); try lia; done.
Qed.

Lemma find_font_size_optimal_for_monotone_metric_witness :
  find_font_size_for_height (fun s => (23 * s) `div` 20) 31 10 128 = 27
  /\ forall c, 10 <= c <= 128 ->
       Z.abs ((23 * 27) `div` 20 - 31) <= Z.abs ((23 * c) `div` 20 - 31).
Proof.
  assert (find_font_size_for_height (fun s => (23 * s) `div` 20) 31 10 128 = 27) as E
    by (by vm_compute).
  split; [exact E |].
  pose proof (find_font_size_optimal_for_monotone_metric
                (fun s => (23 * s) `div` 20) 31 10 128 ltac:(lia)) as H.
  cbn zeta in H. rewrite E in H. apply H.
  intros a b Hab. apply Z.div_le_mono; lia.
Defined.

Section FontSearchCount.

Variable measure : Z -> Z.
Variable T : Z.

(** Every probe halves the bracket. *)
Lemma font_search_count (low high best_size : Z) (best_diff : option Z)
    (probed : list Z) :
  forall n, 1 <= low -> 0 <= n -> high - low + 1 < 2 ^ n ->
    Z.of_nat (length (font_search measure T low high best_size best_diff probed).2)
    <= Z.of_nat (length probed) + n.
Proof.
  funelim (font_search measure T low high best_size best_diff probed);
    intros n H1 Hn Hsz; clear Heqcall.
  - simpl. lia.
  - assert (low <= (low + high) `div` 2) by (apply Z.div_le_lower_bound; lia). lia.
  - simpl. rewrite length_app. simpl.
    assert (n <> 0) by (intros ->; simpl in Hsz; lia). lia.
  - set (mid := (low + high) `div` 2) in *.
    assert (n <> 0) by (intros ->; simpl in Hsz; lia).
    assert (2 ^ n = 2 * 2 ^ (n - 1)) as Hpow
      by (rewrite <- Z.pow_succ_r by lia; f_equal; lia).
    assert (low + high = 2 * mid + (low + high) `mod` 2) by (apply Z.div_mod; lia).
    pose proof (Z.mod_pos_bound (low + high) 2 ltac:(lia)).
    destruct (improves _ best_diff);
      [specialize (H (n - 1) ltac:(lia) ltac:(lia) ltac:(lia))
      | specialize (H0 (n - 1) ltac:(lia) ltac:(lia) ltac:(lia))];
      rewrite length_app in *; simpl in *; lia.
  - set (mid := (low + high) `div` 2) in *.
    assert (n <> 0) by (intros ->; simpl in Hsz; lia).
    assert (2 ^ n = 2 * 2 ^ (n - 1)) as Hpow
      by (rewrite <- Z.pow_succ_r by lia; f_equal; lia).
    assert (low + high = 2 * mid + (low + high) `mod` 2) by (apply Z.div_mod; lia).
    pose proof (Z.mod_pos_bound (low + high) 2 ltac:(lia)).
    destruct (improves _ best_diff);
      [specialize (H (n - 1) ltac:(lia) ltac:(lia) ltac:(lia))
      | specialize (H0 (n - 1) ltac:(lia) ltac:(lia) ltac:(lia))];
      rewrite length_app in *; simpl in *; lia.
Qed.

End FontSearchCount.

(** X8.  The search probes (loads a font and measures it) at most [n]
    times when the range holds fewer than [2^n] sizes, whatever the
    metric: at most 7 times for the default bounds 10 and 128. *)
Theorem find_font_size_probe_count (measure : Z -> Z)
    (target_height min_size max_size n : Z) :
  1 <= min_size -> 0 <= n -> max_size - min_size + 1 < 2 ^ n ->
  Z.of_nat (length (probed_sizes measure target_height min_size max_size)) <= n.
Proof.
  intros H1 Hn Hsz.
  apply (font_search_count measure (Z.max 1 target_height)
           min_size max_size min_size None [] n H1 Hn Hsz).
Qed.

Lemma find_font_size_probe_count_witness :
  Z.of_nat (length (probed_sizes (fun s => (23 * s) `div` 20) 31 10 128)) <= 7.
Proof. apply find_font_size_probe_count; lia. Defined.

(** X9.  The edges of the search, for any bounds: an empty range
    ([max_size < min_size]) is answered with [min_size] without a probe;
    and no probe is ever made at a size below 1 or outside the bounds,
    even when [min_size] is zero or negative. *)
Theorem find_font_size_edges (measure : Z -> Z) (target_height min_size max_size : Z) :
  (max_size < min_size ->
   find_font_size_for_height measure target_height min_size max_size = min_size
   /\ probed_sizes measure target_height min_size max_size = [])
  /\ (forall c, c ∈ probed_sizes measure target_height min_size max_size ->
        1 <= c /\ min_size <= c <= max_size).
Proof.
  assert (best_inv measure (Z.max 1 target_height) min_size None []) as Hinv
    by (split; [set_solver | done]).
  destruct (font_search_spec measure (Z.max 1 target_height) min_size max_size
              min_size None [] Hinv) as (new & Hps & Hnew & _ & Hnil & _ & _).
  unfold find_font_size_for_height, probed_sizes. simpl in Hps. split.
  - intros Hempty.
    assert (new = []) as ->.
    { destruct new as [| c new']; [done |].
      specialize (Hnew c ltac:(left)). lia. }
    split; [by apply Hnil | done].
  - intros c Hc. rewrite Hps in Hc. specialize (Hnew c Hc). lia.
Qed.

Lemma find_font_size_edges_witness :
  find_font_size_for_height (fun s => (23 * s) `div` 20) 31 20 10 = 20
  /\ probed_sizes (fun s => (23 * s) `div` 20) 31 20 10 = [].
Proof. apply (find_font_size_edges (fun s => (23 * s) `div` 20) 31 20 10). lia. Defined.

(** ** Groups *)

Lemma group_append_keys (groups : list (string * list element)) (key : string)
    (name : element) :
  (group_append groups key name).*1
  = if bool_decide (key ∈ groups.*1) then groups.*1 else groups.*1 ++ [key].
Proof.
  induction groups as [| [k g] rest IH]; [done |].
  cbn [group_append]. rewrite (fmap_cons fst _ rest). cbn [fst].
  destruct (decide (k = key)) as [-> | Hne].
  - rewrite (bool_decide_eq_true_2 (key = key)) by done.
    by rewrite (bool_decide_eq_true_2 (key ∈ _)) by left.
  - rewrite (bool_decide_eq_false_2 (k = key)) by done. rewrite fmap_cons, IH. cbn [fst].
    destruct (decide (key ∈ rest.*1)) as [Hin | Hin].
    + rewrite (bool_decide_eq_true_2 _ Hin).
      by rewrite (bool_decide_eq_true_2 (key ∈ k :: _)) by (by right).
    + rewrite (bool_decide_eq_false_2 _ Hin).
      rewrite (bool_decide_eq_false_2 (key ∈ k :: _)); [done |].
      intros [? | ?]%elem_of_cons; [by subst | done].
Qed.

Lemma group_append_other (groups : list (string * list element)) (key : string)
    (name : element) (k : string) (g : list element) :
  k <> key -> (k, g) ∈ group_append groups key name <-> (k, g) ∈ groups.
Proof.
  intros Hne. induction groups as [| [k' g'] rest IH]; cbn [group_append].
  - rewrite list_elem_of_singleton. split; [by intros [= ? ?] | by intros ?%elem_of_nil].
  - destruct (decide (k' = key)) as [-> | Hk].
    + rewrite (bool_decide_eq_true_2 (key = key)) by done. rewrite !elem_of_cons.
      split; (intros [[= ? ?] | H]; [done | by right]).
    + rewrite (bool_decide_eq_false_2 (k' = key)) by done.
      by rewrite !elem_of_cons, IH.
Qed.

Lemma group_append_new (groups : list (string * list element)) (key : string)
    (name : element) (g : list element) :
  key ∉ groups.*1 -> (key, g) ∈ group_append groups key name <-> g = [name].
Proof.
  induction groups as [| [k' g'] rest IH]; cbn [group_append]; intros Hnin.
  - rewrite list_elem_of_singleton. split; [by intros [= ->] | by intros ->].
  - rewrite fmap_cons, not_elem_of_cons in Hnin. destruct Hnin as [Hne Hnin]. simpl in Hne.
    rewrite (bool_decide_eq_false_2 (k' = key)) by done.
    rewrite elem_of_cons, (IH Hnin). split; [by intros [[= ? ?] | ?] | by right].
Qed.

Lemma group_append_old (groups : list (string * list element)) (key : string)
    (name : element) (g0 g : list element) :
  NoDup groups.*1 -> (key, g0) ∈ groups ->
  (key, g) ∈ group_append groups key name <-> g = g0 ++ [name].
Proof.
  induction groups as [| [k' g'] rest IH]; cbn [group_append]; intros Hnd Hin.
  - by apply elem_of_nil in Hin.
  - rewrite fmap_cons in Hnd. apply NoDup_cons in Hnd as [Hk' Hnd]. simpl in Hk'.
    assert (forall x, (k', x) ∉ rest) as Hrest.
    { intros x Hx. apply Hk'. apply list_elem_of_fmap. by exists (k', x). }
    apply elem_of_cons in Hin as [[= <- <-] | Hin].
    + rewrite (bool_decide_eq_true_2 (key = key)) by done. rewrite elem_of_cons.
      split; [intros [[= ->] | H]; [done | by apply Hrest in H] | intros ->; by left].
    + destruct (decide (k' = key)) as [-> | Hk]; [by apply Hrest in Hin |].
      rewrite (bool_decide_eq_false_2 (k' = key)) by done.
      rewrite elem_of_cons, (IH Hnd Hin). split; [by intros [[= ? ?] | ?] | by right].
Qed.

Lemma pos_groups_snoc (els : list (element * string)) (name : element) (key : string) :
  pos_groups (els ++ [(name, key)]) = group_append (pos_groups els) key name.
Proof. unfold pos_groups. by rewrite foldl_app. Qed.

Lemma pos_groups_keys (els : list (element * string)) : NoDup (pos_groups els).*1.
Proof.
  induction els as [| [name key] els IH] using rev_ind; [constructor |].
  rewrite pos_groups_snoc, group_append_keys. case_bool_decide as Hin; [done |].
  apply NoDup_app. split; [done |]. split; [| apply NoDup_singleton].
  intros k Hk ->%list_elem_of_singleton. done.
Qed.

(** X10.  Grouping by position key ([defaultdict(list)], lines 403-405
    and 562-564) partitions the elements: the keys of the groups are
    pairwise different, no group is empty, and the group of a key holds
    exactly the elements with that key, in their order of arrival. *)
Theorem pos_groups_partition (els : list (element * string)) :
  NoDup (pos_groups els).*1
  /\ forall key g,
       (key, g) ∈ pos_groups els <->
       g <> [] /\ g = (filter (fun p => p.2 = key) els).*1.
Proof.
  split; [apply pos_groups_keys |].
  induction els as [| [name k] els IH] using rev_ind; intros key g.
  - split; [by intros ?%elem_of_nil | by intros [? ->]].
  - rewrite pos_groups_snoc, filter_app, fmap_app, filter_cons, filter_nil. cbn [snd].
    destruct (decide (k = key)) as [-> | Hne].
    + cbn [fmap list_fmap fst].
      destruct ((filter (fun p => p.2 = key) els).*1) as [| n0 g0] eqn:E.
      * rewrite group_append_new.
        { split; [by intros -> | by intros [_ ->]]. }
        intros Hin. apply list_elem_of_fmap in Hin as ([k' g'] & -> & Hin). cbn [fst] in *.
        apply IH in Hin as [Hg' Heq]. by rewrite E in Heq.
      * rewrite (group_append_old _ _ _ (n0 :: g0)).
        { split; [by intros -> | by intros [_ ->]]. }
        { apply pos_groups_keys. }
        apply IH. by rewrite E.
    + rewrite group_append_other by done. cbn [fmap list_fmap]. rewrite app_nil_r.
      apply IH.
Qed.

(** ** The stacked block *)

Lemma stacked_block_bounds (gap : element -> element -> Z) (el_w el_h : element -> Z)
    (t m y : Z) (els : list element) :
  (forall a b, 0 <= gap a b) -> (forall a, 0 <= el_h a) ->
  m <= (stacked_block gap el_w el_h t m els).2
  /\ t <= (stacked_block gap el_w el_h t m els).1
  /\ forall el y', (el, y') ∈ y_offsets gap el_h y els ->
       el_w el <= (stacked_block gap el_w el_h t m els).2
       /\ y <= y'
       /\ y' + el_h el - y <= (stacked_block gap el_w el_h t m els).1 - t.
Proof.
  intros Hgap Hh. revert t m y. induction els as [| el rest IH]; intros t m y; simpl.
  - split; [lia |]. split; [lia |]. by intros el y' ?%elem_of_nil.
  - set (g := match rest with next :: _ => gap el next | [] => 0 end).
    assert (0 <= g) as Hg by (subst g; destruct rest; [lia | apply Hgap]).
    specialize (Hh el) as Hel.
    destruct (IH (t + el_h el + g) (Z.max m (el_w el)) (y + el_h el + g))
      as (Hm & Ht & Hall).
    split; [lia |]. split; [lia |].
    intros el' y' [[= -> ->] | Hin]%elem_of_cons.
    + lia.
    + destruct (Hall _ _ Hin) as (? & ? & ?). lia.
Qed.

Lemma spacing_at_least_3 (side : Z) (pct : float) (n : Z) :
  spacing side pct = Some n -> 3 <= n.
Proof.
  unfold spacing. destruct (py_int _) as [k |]; [| done]. simpl. intros [= <-]. lia.
Qed.

(** Every gap between two members is one of the three spacings, and so at
    least 3 pixels. *)
Lemma group_gaps_at_least_3 (tw th safe_w safe_h l c g : Z) (a b : element) :
  group_spacings tw th safe_w safe_h = Some (l, c, g) -> 3 <= gap_between l c g a b.
Proof.
  unfold group_spacings. intros H.
  assert (3 <= l /\ 3 <= c /\ 3 <= g) as (Hl & Hc & Hg).
  { destruct (tw <? th); [| destruct ((tw =? th) || is_special_fmt tw th)];
      repeat match type of H with
             | context [mbind _ (spacing ?s ?p)] =>
                 let E := fresh "E" in
                 destruct (spacing s p) eqn:E; [apply spacing_at_least_3 in E | done];
                 simpl in H
             end;
      injection H as <- <- <-; lia. }
  destruct a, b; simpl; lia.
Qed.

(** X11.  A group whose stacked block is no larger than the safe
    rectangle is drawn inside the safe rectangle: every member lies
    between the left and right and between the top and bottom edges of the
    safe rectangle, for every position key and every order of the members
    (with the spacings of the format and heights that are not negative). *)
Theorem group_drawn_inside_safe_area (pos_key : string)
    (tw th sx sy safe_w safe_h l c g : Z)
    (el_w el_h : element -> Z) (els : list element) :
  group_spacings tw th safe_w safe_h = Some (l, c, g) ->
  (forall a, 0 <= el_h a) ->
  let gap := gap_between l c g in
  (stacked_block gap el_w el_h 0 0 els).2 <= safe_w ->
  (stacked_block gap el_w el_h 0 0 els).1 <= safe_h ->
  forall el px py,
    (el, px, py) ∈ draw_positions pos_key gap el_w el_h sx sy safe_w safe_h els ->
    sx <= px /\ px + el_w el <= sx + safe_w
    /\ sy <= py /\ py + el_h el <= sy + safe_h.
Proof.
  intros Hsp Hh gap HW HH el px py. unfold draw_positions.
  assert (forall a b, 0 <= gap a b) as Hgap.
  { intros a b. pose proof (group_gaps_at_least_3 _ _ _ _ _ _ _ a b Hsp). subst gap. lia. }
  destruct (stacked_block gap el_w el_h 0 0 els) as [total_h max_w] eqn:E. simpl in HW, HH.
  pose proof (element_in_zone_of_fit pos_key max_w total_h sx sy safe_w safe_h HW HH) as Hz.
  destruct (get_element_position pos_key max_w total_h sx sy safe_w safe_h) as [gx gy].
  destruct Hz as (Hx1 & Hx2 & Hy1 & Hy2).
  intros Hin. apply list_elem_of_fmap in Hin as ([el' y] & [= -> -> ->] & Hin).
  destruct (stacked_block_bounds gap el_w el_h 0 0 gy els Hgap Hh) as (_ & _ & Hall).
  rewrite E in Hall. simpl in Hall. destruct (Hall _ _ Hin) as (Hw & Hy & Hb).
  assert (0 <= (max_w - el_w el') `div` 2 <= max_w - el_w el')
    by (split; [apply Z.div_pos; lia | apply Z.div_le_upper_bound; lia]).
  lia.
Qed.

Lemma group_drawn_inside_safe_area_witness :
  84 <= 84 /\ 84 + 200 <= 84 + 1032 /\ 43 <= 115 /\ 115 + 40 <= 43 + 542.
Proof.
  assert (group_spacings 1200 628 1032 542 = Some (32, 27, 10)) as Hsp by (by vm_compute).
  apply (group_drawn_inside_safe_area "top_left" 1200 628 84 43 1032 542 32 27 10
           (fun _ => 200) (fun _ => 40) [logo; copy] Hsp
           ltac:(intros; lia) ltac:(vm_compute; discriminate) ltac:(vm_compute; discriminate)
           copy 84 115).
  refine (bool_decide_unpack _ _). vm_compute. exact I.
Defined.

(** The spacing literals are the doubles nearest to the decimals of the
    source. *)
Lemma spacing_literals :
  lit_0_05 = int_truediv 5 100 /\ lit_0_06 = int_truediv 6 100
  /\ lit_0_02 = int_truediv 2 100 /\ lit_0_03 = int_truediv 3 100.
Proof. repeat split; by vm_compute. Qed.

(** ** The safe rectangle in the canvas *)

(** X12.  For every format with sides between 1 and 8192 pixels, the
    override included, the safe rectangle is computed, has a positive
    width and height and lies inside the canvas; away from the override
    its margins are the same on both sides. *)
Theorem safe_area_inside_canvas (tw th : Z) :
  1 <= tw <= 8192 -> 1 <= th <= 8192 ->
  exists sx sy sw sh,
    safe_area tw th = Some (sx, sy, sw, sh)
    /\ 0 <= sx /\ 0 <= sy /\ 0 < sw /\ 0 < sh
    /\ sx + sw <= tw /\ sy + sh <= th
    /\ ((tw, th) <> (1440, 2560) -> tw = 2 * sx + sw /\ th = 2 * sy + sh).
Proof.
  intros Hw Hh. destruct (decide ((tw, th) = (1440, 2560))) as [[= -> ->] | Hne].
  - exists 127, 254, 1182, 2072. split; [by vm_compute |].
    repeat (split; [lia |]). intros H. by destruct H.
  - rewrite safe_area_seven_percent by (done || lia).
    eexists _, _, _, _. split; [done |].
    pose proof (Z.mul_div_le (7 * tw) 100 ltac:(lia)).
    pose proof (Z.mul_div_le (7 * th) 100 ltac:(lia)).
    assert (0 <= (7 * tw) `div` 100) by (apply Z.div_pos; lia).
    assert (0 <= (7 * th) `div` 100) by (apply Z.div_pos; lia).
    repeat split; lia.
Qed.

Lemma safe_area_inside_canvas_witness :
  exists sx sy sw sh,
    safe_area 1200 628 = Some (sx, sy, sw, sh)
    /\ 0 <= sx /\ 0 <= sy /\ 0 < sw /\ 0 < sh
    /\ sx + sw <= 1200 /\ sy + sh <= 628
    /\ ((1200, 628) <> (1440, 2560) -> 1200 = 2 * sx + sw /\ 628 = 2 * sy + sh).
Proof. apply safe_area_inside_canvas; lia. Defined.

(** ** Font paths *)

Local Open Scope string_scope.

(** X13.  Whatever file name the request carries, the path returned is
    the path of one of the thirteen bundled fonts, and it is the default
    font or a file that exists; a bundled name whose file exists is
    answered with its own file. *)
Theorem get_font_path_is_bundled (font_file : string -> string)
    (path_exists : string -> bool) (font_filename : option string) :
  let path := get_font_path font_file path_exists font_filename in
  (exists name, name ∈ font_names /\ path = font_file name)
  /\ (path = DEFAULT_FONT_PATH font_file \/ path_exists path = true)
  /\ (forall name, font_filename = Some name -> name ∈ font_names ->
        path_exists (font_file name) = true -> path = font_file name).
Proof.
  intros path. subst path. unfold get_font_path.
  assert ("arial.ttf" ∈ font_names) as Hdef by (by left).
  assert (forall f p, FONT_MAP font_file !! f = Some p -> f ∈ font_names /\ p = font_file f)
    as Hmap.
  { intros f p Hf. apply elem_of_list_to_map_2 in Hf.
    repeat (apply elem_of_cons in Hf as [[= -> ->] | Hf];
            [split; [| done]; refine (bool_decide_unpack _ _); by vm_compute |]).
    by apply elem_of_nil in Hf. }
  assert (forall f, f ∈ font_names -> FONT_MAP font_file !! f = Some (font_file f)) as Hin.
  { intros f Hf. unfold font_names in Hf.
    repeat (apply elem_of_cons in Hf as [-> | Hf]; [by vm_compute |]).
    by apply elem_of_nil in Hf. }
  destruct font_filename as [f |].
  - case_bool_decide as Hempty.
    + split; [by exists "arial.ttf" |]. split; [by left |].
      intros name [= <-] Hname. subst f.
      exfalso. revert Hname. unfold font_names.
      intros Hname. apply (bool_decide_pack _) in Hname. by vm_compute in Hname.
    + destruct (FONT_MAP font_file !! f) as [p |] eqn:E; simpl.
      * destruct (Hmap _ _ E) as [Hf ->].
        destruct (path_exists (font_file f)) eqn:Ex.
        -- split; [by exists f |]. split; [by right |]. by intros name [= <-] _ _.
        -- split; [by exists "arial.ttf" |]. split; [by left |].
           intros name [= <-] _ Hex. congruence.
      * split.
        { destruct (path_exists _); by exists "arial.ttf". }
        split.
        { destruct (path_exists _) eqn:Ex; [by right | by left]. }
        intros name [= <-] Hname _. by rewrite (Hin _ Hname) in E.
  - split; [by exists "arial.ttf" |]. split; [by left |]. by intros name [=].
Qed.

Lemma get_font_path_is_bundled_witness :
  get_font_path (fun n => "fonts/" +:+ n) (fun _ => true) (Some "Inter-Regular.ttf")
  = "fonts/Inter-Regular.ttf".
Proof.
  apply (get_font_path_is_bundled (fun n => "fonts/" +:+ n) (fun _ => true)
           (Some "Inter-Regular.ttf")); [done | | done].
  refine (bool_decide_unpack _ _). by vm_compute.
Defined.

(** ** The user's hero box *)



Local Close Scope string_scope.

(** ** The results of a request *)

Lemma generate_results_snoc (render : FormatItem -> option string)
    (formats : list FormatItem) (fmt_item : FormatItem) :
  generate_results render (formats ++ [fmt_item])
  = output_results ← generate_results render formats;
    data ← render fmt_item;
    Some (<[id fmt_item := data]> output_results).
Proof. unfold generate_results. by rewrite foldl_app. Qed.

(** X15.  The request succeeds exactly when every format renders; the
    results then hold one entry per format id, and a format id requested
    more than once keeps the image of its last occurrence. *)
Theorem generate_results_last_wins (render : FormatItem -> option string)
    (formats : list FormatItem) :
  (is_Some (generate_results render formats)
   <-> forall fmt_item, fmt_item ∈ formats -> is_Some (render fmt_item))
  /\ forall output_results, generate_results render formats = Some output_results ->
       forall fid,
         output_results !! fid
         = last (filter (fun fmt_item => id fmt_item = fid) formats) ≫= render.
Proof.
  induction formats as [| fmt_item formats [IH1 IH2]] using rev_ind.
  - split.
    + split; [by intros _ f ?%elem_of_nil | by eexists].
    + intros res [= <-] fid. by rewrite lookup_empty.
  - rewrite generate_results_snoc. split.
    + split.
      * intros [res Hres] f [Hf | ->%list_elem_of_singleton]%elem_of_app.
        -- apply IH1; [| done]. by destruct (generate_results render formats).
        -- destruct (generate_results render formats); [| done]. simpl in Hres.
           by destruct (render fmt_item).
      * intros Hall.
        destruct (proj2 IH1 (fun f Hf => Hall f (proj2 (elem_of_app _ _ _) (or_introl Hf))))
          as [res ->].
        destruct (Hall fmt_item ltac:(apply elem_of_app; right; by apply list_elem_of_singleton))
          as [data ->].
        by eexists.
    + intros res Hres fid.
      destruct (generate_results render formats) as [res0 |] eqn:E0; [| done].
      simpl in Hres. destruct (render fmt_item) as [data |] eqn:Er; [| done].
      simpl in Hres. injection Hres as <-.
      rewrite filter_app, filter_cons, filter_nil.
      destruct (decide (id fmt_item = fid)) as [<- | Hne].
      * rewrite lookup_insert_eq, last_snoc. simpl. by rewrite Er.
      * rewrite lookup_insert_ne by done. rewrite app_nil_r. by apply IH2.
Qed.

Local Open Scope string_scope.

Lemma generate_results_last_wins_witness :
  generate_results
    (fun fmt_item => Some (if (width fmt_item =? 336)%Z then "336x280" else "other"))
    [ {| id := "a"; width := 300; height := 250 |};
      {| id := "b"; width := 728; height := 90 |};
      {| id := "a"; width := 336; height := 280 |} ] ≫= (.!! "a")
  = Some "336x280".
Proof.
  destruct (generate_results _ _) as [res |] eqn:E; [| by vm_compute in E].
  simpl.
  rewrite (proj2 (generate_results_last_wins _ _) res E "a"). reflexivity.
Defined.

Local Close Scope string_scope.

(** ** Fitting the copy *)

Section CopyFitFacts.

Variable getbbox : Z -> str -> option (Z * Z * Z * Z).
Variable max_ac_w : Z.
Variable content_item : str.

Local Abbreviation wrap_at := (wrap_at getbbox max_ac_w content_item).
Local Abbreviation all_lines_fit := (all_lines_fit getbbox max_ac_w).

(** The wrap at size [s] has a line that is too wide. *)
Local Abbreviation too_wide_at :=
  (fun s : Z => exists ls, wrap_at s = Some ls /\ all_lines_fit ls s = false).

Lemma shrink_loop_spec (ac_font_sz : Z) (temp : list str) (current : Z)
    (lines : list str) (size : Z) :
  current <= ac_font_sz ->
  (current = ac_font_sz -> wrap_at ac_font_sz = Some temp) ->
  (current < ac_font_sz -> 10 <= current /\ wrap_at (current + 1) = Some temp) ->
  (forall s, current < s <= ac_font_sz -> too_wide_at s) ->
  shrink_loop getbbox max_ac_w content_item ac_font_sz temp current = Some (lines, size) ->
  size <= ac_font_sz
  /\ (forall s, size < s <= ac_font_sz -> too_wide_at s)
  /\ ((10 < size /\ wrap_at size = Some lines /\ all_lines_fit lines size = true)
      \/ (size = ac_font_sz /\ size <= 10 /\ wrap_at ac_font_sz = Some lines)
      \/ (size = 10 /\ size < ac_font_sz /\ wrap_at 11 = Some lines)).
Proof.
  funelim (shrink_loop getbbox max_ac_w content_item ac_font_sz temp current);
    intros Hle Heq_ac Hlt Hfail Hres; clear Heqcall.
  - (* the loop condition fails *)
    injection Hres as <- <-. split; [done |]. split; [done |]. right.
    destruct (Z.eq_dec current ac_font_sz) as [E | E].
    + left. subst. split; [done |]. split; [lia | by apply Heq_ac].
    + right. destruct (Hlt ltac:(lia)) as [H10 Hw].
      assert (current = 10) as -> by lia. split; [done |]. split; [lia | done].
  - (* a round of the loop *)
    assert (wrap_at current = Some temp') as Hw.
    { case_bool_decide as E; [done |].
      subst current. rewrite Heq_ac by done. done. }
    destruct (all_lines_fit temp' current) eqn:Hfit.
    + injection Hres as <- <-. split; [done |]. split; [done |]. left.
      split; [lia | done].
    + apply H in Hres; try lia; try done.
      * intros _. split; [lia |]. by replace (current - 1 + 1) with current by lia.
      * intros s Hs. destruct (Z.eq_dec s current) as [-> | Hne];
          [by exists temp' | apply Hfail; lia].
  - (* wrapping fails *)
    done.
Qed.

(** X16.  The copy is set at the largest size, from the size of the font
    search downwards, at which none of its wrapped lines is too wide; the
    sizes above the chosen one all leave a line too wide.  The search
    stops at 10: then the lines are those wrapped at size 11 (the loop
    does not wrap again at 10), and a first size of 10 or less is kept
    without any check. *)
Theorem fit_copy_largest_fitting_size (ac_font_sz : Z) (lines : list str) (size : Z) :
  fit_copy getbbox max_ac_w content_item ac_font_sz = Some (lines, size) ->
  size <= ac_font_sz
  /\ (forall s, size < s <= ac_font_sz ->
        exists ls, wrap_at s = Some ls /\ all_lines_fit ls s = false)
  /\ ((10 < size /\ wrap_at size = Some lines /\ all_lines_fit lines size = true)
      \/ (size = ac_font_sz /\ size <= 10 /\ wrap_at ac_font_sz = Some lines)
      \/ (size = 10 /\ size < ac_font_sz /\ wrap_at 11 = Some lines)).
Proof.
  unfold fit_copy. intros Hres.
  destruct (wrap_at ac_font_sz) as [ad_copy_lines |] eqn:E in Hres; [| done].
  simpl in Hres.
  apply (shrink_loop_spec ac_font_sz ad_copy_lines ac_font_sz lines size);
    [lia | done | lia | intros s Hs; lia | done].
Qed.

End CopyFitFacts.

Lemma fit_copy_largest_fitting_size_witness :
  exists lines,
    fit_copy (fun size l => Some (0, 0, size * Z.of_nat (length l), size)) 100
      (of_string "Spring Sale") 24 = Some (lines, 16)
    /\ all_lines_fit (fun size l => Some (0, 0, size * Z.of_nat (length l), size)) 100
         lines 16 = true.
Proof.
  destruct (fit_copy (fun size l => Some (0, 0, size * Z.of_nat (length l), size)) 100
              (of_string "Spring Sale") 24) as [[lines size] |] eqn:E;
    [| by vm_compute in E].
  assert (size = 16) as -> by (vm_compute in E; by injection E as _ <-).
  exists lines. split; [done |].
  destruct (fit_copy_largest_fitting_size _ _ _ _ _ _ E) as (_ & _ & [H | [H | H]]).
  - by destruct H as (_ & _ & ?).
  - lia.
  - lia.
Defined.

(** ** The copy block *)

(** X17.  The lines of the copy are drawn inside the copy block: for a
    line height that is not negative, the line spacing is not negative,
    the block of [n >= 1] lines is [n] line heights and [n - 1] spacings
    high, and line [i] (drawn at [i * (line height + spacing)] from the top
    of the block, line 784) ends no lower than the block. *)
Theorem copy_lines_inside_block (n_lines line_h sp block_h : Z) :
  0 <= line_h -> 1 <= n_lines ->
  copy_block_height n_lines line_h = Some (sp, block_h) ->
  0 <= sp
  /\ block_h = n_lines * line_h + (n_lines - 1) * sp
  /\ forall i, 0 <= i < n_lines ->
       0 <= i * (line_h + sp) /\ i * (line_h + sp) + line_h <= block_h.
Proof.
  intros Hh Hn. unfold copy_block_height.
  destruct (py_int _) as [s |] eqn:E; [| done]. simpl. intros [= <- <-].
  assert (0 <= s) as Hs.
  { simpl in E. apply (fmul_sign (of_int line_h) lit_0_2); [| done | done].
    apply of_int_sign. lia. }
  split; [done |].
  assert (Z.max 0 (n_lines * (line_h + s)
                   - (if (0 <? s) && (0 <? n_lines) then s else 0))
          = n_lines * line_h + (n_lines - 1) * s) as ->.
  { destruct (Z.ltb_spec 0 s), (Z.ltb_spec 0 n_lines); simpl; nia. }
  split; [done |]. intros i Hi. split; nia.
Qed.

Lemma copy_lines_inside_block_witness :
  copy_block_height 3 20 = Some (4, 68).
Proof.
  destruct (copy_block_height 3 20) as [[sp block_h] |] eqn:E; [| by vm_compute in E].
  destruct (copy_lines_inside_block 3 20 sp block_h ltac:(lia) ltac:(lia) E)
    as (_ & -> & _).
  assert (sp = 4) as -> by (vm_compute in E; by injection E as <- _).
  reflexivity.
Defined.
